(** * Domain-name scoring and preference-pair pipeline

    A shallow embedding of the scoring rubrics
    ([eval/constraint_satisfaction.py], [eval/diversity_metrics.py],
    [eval/pronounceability.py], [eval/premium_score.py]), of the delta report
    of [run_evaluation.py] and of the judge blending and pairing of
    [rlhf/generate_preferences.py].

    Conventions of the embedding:
    - a Python [str] is a list of Unicode code points ([list N]);
    - a Python [float] is an exact rational ([Q]): rounding errors of the
      binary representation are not modelled;
    - an operation that can raise ([/], indexing) returns in the error
      monad [res];
    - the Unicode tables behind [str.lower], [str.isalpha], [str.isdigit],
      [\s] and [\d] belong to the interpreter, not to the repository: they
      are the fields of the class [Unicode], fixed on the ASCII range. *)

From Stdlib Require Import QArith Qround Qabs ZArith NArith List String Ascii.
From Stdlib Require Import Lia Lqa Bool Sorted Permutation.
From stdpp Require Import gmap list.
Import ListNotations.

(* ------------------------------------------------------------------ *)
(** ** Python strings *)

Module PyStr.

Abbreviation char := N (only parsing).
Abbreviation str := (list N) (only parsing).

(** An ASCII literal of the source as a list of code points. *)
Definition lit (s : string) : str := List.map N_of_ascii (list_ascii_of_string s).

Definition in_range (a b c : char) : bool := (a <=? c)%N && (c <=? b)%N.
Definition is_ascii (c : char) : bool := (c <? 128)%N.
Definition az (c : char) : bool := in_range 97 122 c.          (* [a-z] *)
Definition AZ (c : char) : bool := in_range 65 90 c.           (* [A-Z] *)
Definition d09 (c : char) : bool := in_range 48 57 c.          (* [0-9] *)
Definition chr_is (a : char) (c : char) : bool := (a =? c)%N.
Definition one_of (s : str) (c : char) : bool := existsb (N.eqb c) s.

Definition ascii_lower (c : char) : char := if AZ c then (c + 32)%N else c.
Definition ascii_space (c : char) : bool := in_range 9 13 c || in_range 28 32 c.
Definition ascii_alpha (c : char) : bool := az c || AZ c.
Definition ascii_decimal (c : char) : option N := if d09 c then Some (c - 48)%N else None.

(** What the interpreter's Unicode database provides.  Each field is pinned
    down on ASCII input, where Python's behaviour does not depend on the
    Unicode version. *)
Class Unicode := {
  str_lower : str -> str;                 (* s.lower() *)
  chr_isspace : char -> bool;             (* c.isspace(), and \s in a pattern *)
  chr_isalpha : char -> bool;             (* c.isalpha() *)
  chr_isdigit : char -> bool;             (* c.isdigit() *)
  chr_decimal : char -> option N;         (* \d in a pattern, with its int() value *)
  str_lower_ascii : forall s, forallb is_ascii s = true -> str_lower s = List.map ascii_lower s;
  chr_isspace_ascii : forall c, is_ascii c = true -> chr_isspace c = ascii_space c;
  chr_isalpha_ascii : forall c, is_ascii c = true -> chr_isalpha c = ascii_alpha c;
  chr_isdigit_ascii : forall c, is_ascii c = true -> chr_isdigit c = d09 c;
  chr_decimal_ascii : forall c, is_ascii c = true -> chr_decimal c = ascii_decimal c
}.

(** A table that treats every code point the way ASCII does; it is exact on
    ASCII text and is what the examples below are evaluated with. *)
Definition ascii_table : Unicode := {|
  str_lower := List.map ascii_lower;
  chr_isspace := ascii_space;
  chr_isalpha := ascii_alpha;
  chr_isdigit := d09;
  chr_decimal := ascii_decimal;
  str_lower_ascii := fun _ _ => eq_refl;
  chr_isspace_ascii := fun _ _ => eq_refl;
  chr_isalpha_ascii := fun _ _ => eq_refl;
  chr_isdigit_ascii := fun _ _ => eq_refl;
  chr_decimal_ascii := fun _ _ => eq_refl
|}.

(** [a in b] on strings, [startswith] and [endswith]. *)
Fixpoint startswith (s p : str) : bool :=
  match p, s with
  | [], _ => true
  | _ :: _, [] => false
  | a :: p', c :: s' => (a =? c)%N && startswith s' p'
  end.

Fixpoint contains (s p : str) : bool :=
  startswith s p || match s with [] => false | _ :: s' => contains s' p end.

Definition endswith (s p : str) : bool := startswith (rev s) (rev p).

End PyStr.
Import PyStr.

(* ------------------------------------------------------------------ *)
(** ** The fragment of [re] the sources use

    A backtracking matcher in continuation-passing style: greedy bounded
    repetition, capture groups, [^] and [$].  Groups are numbered in the
    order they close, which is the order they open for the patterns of
    this repository (no group is nested in another capturing group).
    Every repeated body of the sources consumes at least one character, so
    the number of iterations is bounded by the length of the input. *)

Module Re.

Inductive re :=
| Eps
| Chr (p : char -> bool)
| Cat (a b : re)
| Rep (a : re) (lo : nat) (hi : option nat)
| Grp (a : re)
| Bol
| Eol.

Record mstate := MState { pos : nat; rest : str; caps : list str }.

Definition below (hi : option nat) (n : nat) : bool :=
  match hi with None => true | Some h => n <? h end.

Definition orelse {A} (x y : option A) : option A :=
  match x with Some _ => x | None => y end.

(** Greedy repetition of [step]: one more iteration is tried first, and
    only when the rest of the pattern cannot be matched after it does the
    loop settle for the [n] iterations done so far.  An iteration that
    consumes nothing is not repeated. *)
Fixpoint rep_loop {A} (step : mstate -> (mstate -> option A) -> option A)
    (lo : nat) (hi : option nat) (k : mstate -> option A)
    (fuel n : nat) (cur : mstate) : option A :=
  orelse
    match fuel with
    | O => None
    | S fuel' =>
        if below hi n
        then step cur (fun st' =>
               if pos cur <? pos st' then rep_loop step lo hi k fuel' (S n) st' else None)
        else None
    end
    (if lo <=? n then k cur else None).

Fixpoint rmatch {A} (r : re) (st : mstate) (k : mstate -> option A) : option A :=
  match r with
  | Eps => k st
  | Chr p =>
      match rest st with
      | c :: s' => if p c then k (MState (S (pos st)) s' (caps st)) else None
      | [] => None
      end
  | Cat a b => rmatch a st (fun st' => rmatch b st' k)
  | Rep a lo hi => rep_loop (rmatch a) lo hi k (length (rest st)) O st
  | Grp a =>
      rmatch a st (fun st' =>
        k (MState (pos st') (rest st')
             (caps st' ++ [firstn (pos st' - pos st) (rest st)])))
  | Bol => if pos st =? 0 then k st else None
  | Eol =>
      match rest st with
      | [] => k st
      | [c] => if (c =? 10)%N then k st else None
      | _ => None
      end
  end.

(** One attempt at position [p], the rest of the subject being [s]. *)
Definition match_at (r : re) (p : nat) (s : str) : option mstate :=
  rmatch r (MState p s []) Some.

(** [re.search]: the leftmost position at which the pattern matches. *)
Fixpoint search_from (r : re) (p : nat) (s : str) : option mstate :=
  match match_at r p s with
  | Some st => Some st
  | None => match s with [] => None | _ :: s' => search_from r (S p) s' end
  end.

Definition search (r : re) (s : str) : option mstate := search_from r 0 s.

(** [re.finditer]: the non-overlapping matches from left to right; after a
    match that ends at [e] the scan resumes at [e] ([skip] counts the
    characters still to step over). *)
Fixpoint finditer_from (r : re) (p skip : nat) (s : str) : list mstate :=
  match skip, s with
  | S n, [] => []
  | S n, _ :: s' => finditer_from r (S p) n s'
  | O, [] => match match_at r p [] with Some st => [st] | None => [] end
  | O, _ :: s' =>
      match match_at r p s with
      | Some st => st :: finditer_from r (S p) (pos st - p - 1) s'
      | None => finditer_from r (S p) 0 s'
      end
  end.

Definition finditer (r : re) (s : str) : list mstate := finditer_from r 0 0 s.

(** [m.group(i)], [i >= 1]. *)
Definition group (i : nat) (m : mstate) : str := nth (i - 1) (caps m) [].

(** A literal string as a pattern, and the usual repetition operators. *)
Definition Lit (s : str) : re := fold_right (fun c r => Cat (Chr (chr_is c)) r) Eps s.
Definition Star (a : re) : re := Rep a 0 None.
Definition Plus (a : re) : re := Rep a 1 None.
Definition Opt (a : re) : re := Rep a 0 (Some 1).
Definition Seq (l : list re) : re := fold_right Cat Eps l.

End Re.
Import Re.

(* ------------------------------------------------------------------ *)
(** ** Numbers and exceptions *)

Module PyNum.

Inductive pyerr := ZeroDivisionError | IndexError | ValueError.

Inductive res (A : Type) : Type :=
| Ok (a : A)
| Raise (e : pyerr).
Arguments Ok {A} a.
Arguments Raise {A} e.

Definition bind {A B} (x : res A) (f : A -> res B) : res B :=
  match x with Ok a => f a | Raise e => Raise e end.

Definition Qltb (a b : Q) : bool := negb (Qle_bool b a).
Definition of_nat (n : nat) : Q := inject_Z (Z.of_nat n).

(** [a / b] on floats. *)
Definition pydiv (a b : Q) : res Q :=
  if Qeq_bool b 0 then Raise ZeroDivisionError else Ok (a / b)%Q.

Definition Qmin (a b : Q) : Q := if Qle_bool a b then a else b.

(** [round(x, 3)]: the nearest multiple of 1/1000, ties to the even one. *)
Definition round_half_even (q : Q) : Z :=
  let f := Qfloor q in
  match (q - inject_Z f ?= 1 # 2)%Q with
  | Lt => f
  | Gt => (f + 1)%Z
  | Eq => if Z.even f then f else (f + 1)%Z
  end.

Definition round3 (q : Q) : Q := (inject_Z (round_half_even (q * 1000)) / 1000)%Q.

(** [sum(1 for x in l if p x)]. *)
Definition count_if {A} (p : A -> bool) (l : list A) : nat := length (List.filter p l).

(** [sum(f(x) for x in l)]. *)
Definition qsum {A} (f : A -> Q) (l : list A) : Q := fold_left (fun acc x => (acc + f x)%Q) l 0%Q.

(** [len(set(l))]. *)
Definition distinct {A} `{Countable A} (l : list A) : nat := size (list_to_set l : gset A).

End PyNum.
Import PyNum.

Notation "'let*' x ':=' c1 'in' c2" := (bind c1 (fun x => c2))
  (at level 10, x name, c1 at level 100, c2 at level 200).

(* ------------------------------------------------------------------ *)
(** ** eval/constraint_satisfaction.py *)

Module constraint_satisfaction.

Record ConstraintResult := {
  length_satisfied : Q;
  tld_satisfied : Q;
  prefix_suffix_satisfied : Q;
  count_satisfied : Q;
  overall : Q
}.

Definition name_chr (c : char) : bool := az c || d09 c || chr_is 45 c.   (* [a-z0-9-] *)
Definition dash (c : char) : bool := one_of [8212; 45; 8211]%N c.        (* em dash, hyphen, en dash *)
Definition quote (c : char) : bool := one_of [34; 39]%N c.               (* double or single quote *)

Section WithUnicode.
Context {U : Unicode}.

Definition is_decimal (c : char) : bool := bool_decide (is_Some (chr_decimal c)).

(** The number that a string of decimal digits denotes. *)
Definition digits_value (s : str) : N :=
  fold_left (fun acc c => (10 * acc + default 0 (chr_decimal c))%N) s 0%N.

(** [int(s)] for a string of decimal digits.  The interpreter refuses a
    string of more than 4300 digits with [ValueError] (the default of
    [sys.set_int_max_str_digits]); leading zeros count. *)
Definition int_max_str_digits : N := 4300.

Definition int (s : str) : res N :=
  if (int_max_str_digits <? N.of_nat (length s))%N then Raise ValueError
  else Ok (digits_value s).

(** r'([a-z0-9-]+)\.([a-z]{2,10})\s*[—\-–]' *)
Definition domain_pattern : re :=
  Seq [Grp (Plus (Chr name_chr)); Chr (chr_is 46); Grp (Rep (Chr az) 2 (Some 10));
       Star (Chr chr_isspace); Chr dash].

Definition parse_domains_from_response (response : str) : list (str * str) :=
  fold_left (fun domains m => domains ++ [(group 1 m, group 2 m)])
            (finditer domain_pattern (str_lower response)) [].

(** r'length\s*(\d+)\s*-\s*(\d+)' *)
Definition length_pattern : re :=
  Seq [Lit (lit "length"); Star (Chr chr_isspace); Grp (Plus (Chr is_decimal));
       Star (Chr chr_isspace); Chr (chr_is 45); Star (Chr chr_isspace);
       Grp (Plus (Chr is_decimal))].

Definition extract_length_constraint (prompt : str) : res (option (N * N)) :=
  match search length_pattern (str_lower prompt) with
  | Some m =>
      let* min_len := int (group 1 m) in
      let* max_len := int (group 2 m) in
      Ok (Some (min_len, max_len))
  | None => Ok None
  end.

(** The pattern of [extract_tld_constraint]: [use tld], an optional [s],
    a colon, [\s*], then the group: any run without a dot followed by one
    or more items [\.[a-z]+] each trailed by commas and white space.  The
    group is then scanned with [\.([a-z]+)]. *)
Definition tld_list_pattern : re :=
  Seq [Lit (lit "use tld"); Opt (Chr (chr_is 115)); Chr (chr_is 58); Star (Chr chr_isspace);
       Grp (Seq [Star (Chr (fun c => negb (chr_is 46 c)));
                 Plus (Seq [Chr (chr_is 46); Plus (Chr az);
                            Star (Chr (fun c => chr_is 44 c || chr_isspace c))])])].

Definition tld_pattern : re := Seq [Chr (chr_is 46); Grp (Plus (Chr az))].

Definition extract_tld_constraint (prompt : str) : option (list str) :=
  match search tld_list_pattern (str_lower prompt) with
  | Some m => Some (List.map (group 1) (finditer tld_pattern (group 1 m)))
  | None => None
  end.

(** r'generate\s+(\d+)' *)
Definition count_pattern : re :=
  Seq [Lit (lit "generate"); Plus (Chr chr_isspace); Grp (Plus (Chr is_decimal))].

Definition extract_count_constraint (prompt : str) : res (option N) :=
  match search count_pattern (str_lower prompt) with
  | Some m =>
      let* count := int (group 1 m) in
      Ok (Some count)
  | None => Ok None
  end.

(** The keyword, [\s*], a quote character (single or double), the group
    [([^quotes]+)] and a closing quote character: the three patterns of
    [extract_prefix_suffix_constraint]. *)
Definition quoted_after (keyword : string) : re :=
  Seq [Lit (lit keyword); Star (Chr chr_isspace); Chr quote;
       Grp (Plus (Chr (fun c => negb (quote c)))); Chr quote].

Definition extract_prefix_suffix_constraint (prompt : str) : option str * option str :=
  let prefix := None in
  let suffix := None in
  let prefix :=
    match search (quoted_after "must include") (str_lower prompt) with
    | Some m => Some (group 1 m)
    | None => prefix
    end in
  let prefix :=
    match search (quoted_after "must start with") (str_lower prompt) with
    | Some m => Some (group 1 m)
    | None => prefix
    end in
  let suffix :=
    match search (quoted_after "must end with") (str_lower prompt) with
    | Some m => Some (group 1 m)
    | None => suffix
    end in
  (prefix, suffix).

End WithUnicode.

(** Truth value of an [Optional[str]]: [None] and the empty string are false. *)
Definition truthy (o : option str) : bool :=
  match o with Some (_ :: _) => true | _ => false end.

(** One turn of the loop over the domains (lines 137-142): what is added
    to [ps_ok] for [name]. *)
Definition ps_credit (prefix suffix : option str) (name : str) : nat :=
  if truthy prefix && contains name (default [] prefix) then 1
  else if truthy suffix && endswith name (default [] suffix) then 1
  else if negb (truthy prefix) && negb (truthy suffix) then 1
  else 0.

Definition ps_ok (prefix suffix : option str) (domains : list (str * str)) : nat :=
  fold_left (fun acc d => acc + ps_credit prefix suffix (fst d)) domains 0.

(** Lines 152-157: the count score as a function of [ratio]. *)
Definition count_score (ratio : Q) : res Q :=
  if Qle_bool 0.8 ratio && Qle_bool ratio 1.2 then Ok 1%Q
  else if Qltb ratio 0.8 then pydiv ratio 0.8
  else pydiv 1.2 ratio.

Section WithUnicode.
Context {U : Unicode}.

(** Lines 115-161: the local variables [length_satisfied], ..., [overall]
    of [check_constraints] when some domain was found. *)
Definition constraint_locals (prompt : str) (domains : list (str * str)) : res ConstraintResult :=
  let n := of_nat (length domains) in
  let* length_constraint := extract_length_constraint prompt in
  let* length_satisfied :=
    match length_constraint with
    | Some (min_len, max_len) =>
        let length_ok :=
          count_if (fun d => (min_len <=? N.of_nat (length (fst d)))%N
                             && (N.of_nat (length (fst d)) <=? max_len)%N) domains in
        pydiv (of_nat length_ok) n
    | None => Ok 1%Q
    end in
  let* tld_satisfied :=
    match extract_tld_constraint prompt with
    | Some (t :: ts) =>
        let tld_ok := count_if (fun d => bool_decide (snd d ∈ t :: ts)) domains in
        pydiv (of_nat tld_ok) n
    | _ => Ok 1%Q
    end in
  let* prefix_suffix_satisfied :=
    (let '(prefix, suffix) := extract_prefix_suffix_constraint prompt in
     if truthy prefix || truthy suffix
     then
       if truthy prefix || truthy suffix
       then pydiv (of_nat (ps_ok prefix suffix domains)) n
       else Ok 1%Q
     else Ok 1%Q) in
  let* count_constraint := extract_count_constraint prompt in
  let* count_satisfied :=
    match count_constraint with
    | Some count_constraint =>
        if (count_constraint =? 0)%N then Ok 1%Q
        else
          let* ratio := pydiv n (inject_Z (Z.of_N count_constraint)) in
          count_score ratio
    | None => Ok 1%Q
    end in
  let overall :=
    ((length_satisfied + tld_satisfied + prefix_suffix_satisfied + count_satisfied) / 4)%Q in
  Ok (Build_ConstraintResult length_satisfied tld_satisfied prefix_suffix_satisfied
        count_satisfied overall).

(** Lines 163-169: every field goes through [round(x, 3)]. *)
Definition round_result (r : ConstraintResult) : ConstraintResult :=
  Build_ConstraintResult (round3 (length_satisfied r)) (round3 (tld_satisfied r))
    (round3 (prefix_suffix_satisfied r)) (round3 (count_satisfied r)) (round3 (overall r)).

Definition check_constraints (prompt response : str) : res ConstraintResult :=
  let domains := parse_domains_from_response response in
  match domains with
  | [] => Ok (Build_ConstraintResult 0 0 0 0 0)
  | _ :: _ =>
      let* locals := constraint_locals prompt domains in
      Ok (round_result locals)
  end.

End WithUnicode.

End constraint_satisfaction.

(* ------------------------------------------------------------------ *)
(** ** eval/diversity_metrics.py *)

Module diversity_metrics.

Record DiversityResult := {
  type_token_ratio : Q;
  duplicate_rate : Q;
  char_diversity : Q;
  prefix_diversity : Q;
  suffix_diversity : Q;
  overall : Q
}.

Import constraint_satisfaction(name_chr, dash).

Section WithUnicode.
Context {U : Unicode}.

(** r'([a-z0-9-]+)\.[a-z]{2,10}\s*[—\-–]': the TLD is matched, not captured. *)
Definition name_pattern : re :=
  Seq [Grp (Plus (Chr name_chr)); Chr (chr_is 46); Rep (Chr az) 2 (Some 10);
       Star (Chr chr_isspace); Chr dash].

Definition parse_domain_names (response : str) : list str :=
  List.map (group 1) (finditer name_pattern (str_lower response)).

End WithUnicode.

(** [[name[i:i+3] for i in range(len(name) - 2)]] *)
Definition ngrams (name : str) : list str :=
  List.map (fun i => firstn 3 (skipn i name)) (seq 0 (length name - 2)).

Definition calculate_ttr (names : list str) : res Q :=
  match names with
  | [] => Ok 0%Q
  | _ :: _ =>
      let all_ngrams := concat (List.map ngrams names) in
      match all_ngrams with
      | [] => Ok 1%Q
      | _ :: _ =>
          let unique := distinct all_ngrams in
          let total := length all_ngrams in
          pydiv (of_nat unique) (of_nat total)
      end
  end.

Definition calculate_duplicate_rate (names : list str) : res Q :=
  match names with
  | [] => Ok 0%Q
  | _ :: _ =>
      let unique := distinct names in
      let total := length names in
      let duplicate_count := (of_nat total - of_nat unique)%Q in
      pydiv duplicate_count (of_nat total)
  end.

Definition calculate_char_diversity (names : list str) : res Q :=
  match names with
  | [] => Ok 0%Q
  | _ :: _ =>
      let all_chars := concat names in
      match all_chars with
      | [] => Ok 0%Q
      | _ :: _ =>
          let unique_chars := distinct all_chars in
          let max_possible := 36%Q in
          Ok (Qmin (of_nat unique_chars / max_possible) 1)
      end
  end.

Definition calculate_prefix_diversity (names : list str) (prefix_len : nat) : res Q :=
  match names with
  | [] => Ok 0%Q
  | _ :: _ =>
      let prefixes :=
        List.map (firstn prefix_len) (List.filter (fun name => prefix_len <=? length name) names) in
      match prefixes with
      | [] => Ok 0%Q
      | _ :: _ => pydiv (of_nat (distinct prefixes)) (of_nat (length prefixes))
      end
  end.

(** [name[-n:]]: the last [n] characters, and the whole string for [n = 0]
    (where [-0] is [0]). *)
Definition last_chars (n : nat) (name : str) : str :=
  match n with
  | O => name
  | S _ => skipn (length name - n) name
  end.

Definition calculate_suffix_diversity (names : list str) (suffix_len : nat) : res Q :=
  match names with
  | [] => Ok 0%Q
  | _ :: _ =>
      let suffixes :=
        List.map (last_chars suffix_len)
                 (List.filter (fun name => suffix_len <=? length name) names) in
      match suffixes with
      | [] => Ok 0%Q
      | _ :: _ => pydiv (of_nat (distinct suffixes)) (of_nat (length suffixes))
      end
  end.

(** Lines 139-146: the local variables of [check_diversity] when some name
    was found. *)
Definition diversity_locals (names : list str) : res DiversityResult :=
  let* ttr := calculate_ttr names in
  let* dup_rate := calculate_duplicate_rate names in
  let* char_div := calculate_char_diversity names in
  let* prefix_div := calculate_prefix_diversity names 2 in
  let* suffix_div := calculate_suffix_diversity names 2 in
  let overall := ((ttr + (1 - dup_rate) + char_div + prefix_div + suffix_div) / 5)%Q in
  Ok (Build_DiversityResult ttr dup_rate char_div prefix_div suffix_div overall).

Definition round_result (r : DiversityResult) : DiversityResult :=
  Build_DiversityResult (round3 (type_token_ratio r)) (round3 (duplicate_rate r))
    (round3 (char_diversity r)) (round3 (prefix_diversity r)) (round3 (suffix_diversity r))
    (round3 (overall r)).

Definition check_diversity {U : Unicode} (response : str) : res DiversityResult :=
  let names := parse_domain_names response in
  match names with
  | [] => Ok (Build_DiversityResult 0 1 0 0 0 0)
  | _ :: _ =>
      let* locals := diversity_locals names in
      Ok (round_result locals)
  end.

End diversity_metrics.

(* ------------------------------------------------------------------ *)
(** ** eval/pronounceability.py *)

Module pronounceability.

Record PronounceabilityResult := {
  vowel_ratio : Q;
  consonant_cluster_score : Q;
  pattern_score : Q;
  length_score : Q;
  overall : Q
}.

Import constraint_satisfaction(name_chr, dash).

Definition VOWELS : str := lit "aeiouy".
Definition CONSONANTS : str := lit "bcdfghjklmnpqrstvwxz".

Definition cls (s : string) : re := Chr (one_of (lit s)).

Definition GOOD_PATTERNS : list re :=
  [ cls "aeiou";
    Seq [cls "bcdfghjklmnprstvwz"; cls "aeiou"];
    Seq [cls "aeiou"; cls "bcdfghjklmnprstvwz"];
    Seq [Lit (lit "ing"); Eol]; Seq [Lit (lit "ify"); Eol]; Seq [Lit (lit "ly"); Eol];
    Seq [Lit (lit "io"); Eol]; Seq [Lit (lit "ia"); Eol];
    Seq [Bol; cls "bcdfghjklmnprstvw"] ].

Definition BAD_PATTERNS : list re :=
  [ Rep (cls "bcdfghjkmnpqstvwxz") 4 None;
    Rep (cls "aeiou") 3 None;
    Rep (cls "qxz") 2 None;
    Seq [Bol; cls "xz"];
    Rep (Chr d09) 3 None;
    Seq [cls "bcdfghjklmnpqrstvwxz"; Eol] ].

Section WithUnicode.
Context {U : Unicode}.

Definition name_pattern : re :=
  Seq [Grp (Plus (Chr name_chr)); Chr (chr_is 46); Rep (Chr az) 2 (Some 10);
       Star (Chr chr_isspace); Chr dash].

Definition parse_domain_names (response : str) : list str :=
  List.map (group 1) (finditer name_pattern (str_lower response)).

Definition calculate_vowel_ratio (name : str) : res Q :=
  let letters := List.filter chr_isalpha (str_lower name) in
  match letters with
  | [] => Ok 0%Q
  | _ :: _ =>
      let vowel_count := count_if (one_of VOWELS) letters in
      let* ratio := pydiv (of_nat vowel_count) (of_nat (length letters)) in
      if Qle_bool 0.30 ratio && Qle_bool ratio 0.50 then Ok 1%Q
      else if (Qle_bool 0.20 ratio && Qltb ratio 0.30) || (Qltb 0.50 ratio && Qle_bool ratio 0.60)
      then Ok 0.7%Q
      else if (Qle_bool 0.10 ratio && Qltb ratio 0.20) || (Qltb 0.60 ratio && Qle_bool ratio 0.70)
      then Ok 0.4%Q
      else Ok 0.2%Q
  end.

Definition calculate_consonant_cluster_score (name : str) : Q :=
  let name := str_lower name in
  let bad_count :=
    fold_left (fun bad_count pattern => bad_count + length (finditer pattern name)) BAD_PATTERNS 0 in
  match bad_count with
  | 0%nat => 1%Q
  | 1%nat => 0.7%Q
  | 2%nat => 0.4%Q
  | _ => 0.2%Q
  end.

Definition calculate_pattern_score (name : str) : Q :=
  let name := str_lower name in
  let good_count :=
    fold_left (fun good_count pattern =>
                 if bool_decide (is_Some (search pattern name)) then good_count + 1 else good_count)
              GOOD_PATTERNS 0 in
  Qmin (of_nat good_count / 4) 1.

Definition calculate_length_score (name : str) : Q :=
  let length := length name in
  if (5 <=? length)%nat && (length <=? 10)%nat then 1%Q
  else if (4 <=? length)%nat && (length <=? 12)%nat then 0.8%Q
  else if (3 <=? length)%nat && (length <=? 15)%nat then 0.6%Q
  else 0.3%Q.

(** Lines 153-164: the local variables of [check_pronounceability]. *)
Definition pronounceability_locals (name alpha_name : str) : res PronounceabilityResult :=
  let* vowel_ratio := calculate_vowel_ratio alpha_name in
  let cluster_score := calculate_consonant_cluster_score alpha_name in
  let pattern_score := calculate_pattern_score alpha_name in
  let length_score := calculate_length_score name in
  let overall :=
    (vowel_ratio * 0.25 + cluster_score * 0.35 + pattern_score * 0.25 + length_score * 0.15)%Q in
  Ok (Build_PronounceabilityResult vowel_ratio cluster_score pattern_score length_score overall).

End WithUnicode.

Definition round_result (r : PronounceabilityResult) : PronounceabilityResult :=
  Build_PronounceabilityResult (round3 (vowel_ratio r)) (round3 (consonant_cluster_score r))
    (round3 (pattern_score r)) (round3 (length_score r)) (round3 (overall r)).

(** [[f(x) for x in l]] where [f] may raise. *)
Fixpoint mapM {A B} (f : A -> res B) (l : list A) : res (list B) :=
  match l with
  | [] => Ok []
  | x :: l' =>
      let* y := f x in
      let* ys := mapM f l' in
      Ok (y :: ys)
  end.

(** [sum(f(r) for r in results) / n] *)
Definition mean {A} (f : A -> Q) (results : list A) (n : Q) : res Q :=
  pydiv (qsum f results) n.

(** The five means of [check_pronounceability_response], not yet rounded. *)
Definition response_means (results : list PronounceabilityResult) : res PronounceabilityResult :=
  let n := of_nat (length results) in
  let* a := mean vowel_ratio results n in
  let* b := mean consonant_cluster_score results n in
  let* c := mean pattern_score results n in
  let* d := mean length_score results n in
  let* e := mean overall results n in
  Ok (Build_PronounceabilityResult a b c d e).

Section WithUnicode.
Context {U : Unicode}.

Definition check_pronounceability (name : str) : res PronounceabilityResult :=
  let alpha_name := List.filter az (str_lower name) in
  match alpha_name with
  | [] => Ok (Build_PronounceabilityResult 0 0 0 0 0)
  | _ :: _ =>
      let* locals := pronounceability_locals name alpha_name in
      Ok (round_result locals)
  end.

Definition check_pronounceability_response (response : str) : res PronounceabilityResult :=
  let names := parse_domain_names response in
  match names with
  | [] => Ok (Build_PronounceabilityResult 0 0 0 0 0)
  | _ :: _ =>
      let* results := mapM check_pronounceability names in
      let* means := response_means results in
      Ok (round_result means)
  end.

End WithUnicode.

End pronounceability.

(* ------------------------------------------------------------------ *)
(** ** eval/premium_score.py *)

Module premium_score.

Record PremiumResult := {
  length_score : Q;
  word_score : Q;
  tld_score : Q;
  pattern_score : Q;
  memorability_score : Q;
  overall : Q
}.

Import constraint_satisfaction(name_chr, dash).
Import pronounceability(cls, mapM, mean).

Definition VALUABLE_WORDS : list str :=
  List.map lit
    [ "get"; "try"; "go"; "my"; "the"; "app"; "hub"; "lab"; "box"; "kit";
      "pro"; "max"; "top"; "best"; "fast"; "easy"; "smart"; "super"; "mega";
      "cloud"; "data"; "code"; "dev"; "tech"; "web"; "net"; "link"; "sync";
      "flow"; "stream"; "wave"; "spark"; "bolt"; "flash"; "swift"; "quick";
      "zen"; "nova"; "pixel"; "byte"; "bit"; "node"; "mesh"; "grid"; "stack";
      "ai"; "ml"; "api"; "io"; "fx"; "hq"; "os"; "ux"; "ui" ]%string.

Definition VALUABLE_SUFFIXES : list str :=
  List.map lit
    [ "ly"; "ify"; "io"; "fy"; "er"; "fy"; "hub"; "lab"; "box"; "hq";
      "ai"; "app"; "dev"; "pro"; "max"; "ify"; "able"; "ful" ]%string.

Definition TLD_VALUES : list (str * Q) :=
  [ (lit "com", 1.0); (lit "io", 0.9); (lit "co", 0.85); (lit "ai", 0.9);
    (lit "app", 0.8); (lit "dev", 0.8); (lit "net", 0.7); (lit "org", 0.65);
    (lit "xyz", 0.5); (lit "one", 0.6); (lit "tech", 0.7) ]%Q.

(** [s.isalpha()]: non-empty and every character alphabetic. *)
Definition isalpha {U : Unicode} (s : str) : bool :=
  match s with [] => false | _ :: _ => forallb chr_isalpha s end.

(** r'(.)\1{2,}': a character other than a newline, three times in a row. *)
Fixpoint has_triple (s : str) : bool :=
  match s with
  | a :: (b :: c :: _) as t =>
      (negb (a =? 10)%N && (a =? b)%N && (b =? c)%N) || has_triple t
  | _ => false
  end.

Section WithUnicode.
Context {U : Unicode}.

Definition domain_pattern : re :=
  Seq [Grp (Plus (Chr name_chr)); Chr (chr_is 46); Grp (Rep (Chr az) 2 (Some 10));
       Star (Chr chr_isspace); Chr dash].

Definition parse_domains (response : str) : list (str * str) :=
  List.map (fun m => (group 1 m, group 2 m)) (finditer domain_pattern (str_lower response)).

Definition calculate_length_score (name : str) : Q :=
  let length := length name in
  if (length <=? 4)%nat then 1.0%Q
  else if (length <=? 6)%nat then 0.9%Q
  else if (length <=? 8)%nat then 0.7%Q
  else if (length <=? 10)%nat then 0.5%Q
  else if (length <=? 12)%nat then 0.4%Q
  else 0.3%Q.

Definition calculate_word_score (name : str) : Q :=
  let name_lower := str_lower name in
  let score := 0.5%Q in
  let score :=
    if existsb (fun word => contains name_lower word) VALUABLE_WORDS
    then (score + 0.2)%Q else score in
  let score :=
    if existsb (fun suffix => endswith name_lower suffix) VALUABLE_SUFFIXES
    then (score + 0.15)%Q else score in
  let score :=
    if isalpha name_lower && (length name_lower <=? 8)%nat
    then (score + 0.1)%Q else score in
  Qmin score 1.0.

Definition calculate_tld_score (tld : str) : Q :=
  default 0.4%Q ((list_to_map TLD_VALUES : gmap (list N) Q) !! str_lower tld).

Definition calculate_pattern_score (name : str) : res Q :=
  let name_lower := str_lower name in
  let score := 0.5%Q in
  let score := if isalpha name_lower then (score + 0.2)%Q else score in
  let score := if negb (has_triple name_lower) then (score + 0.1)%Q else score in
  let* first :=
    match name_lower with
    | c :: _ => Ok c
    | [] => Raise IndexError
    end in
  let score := if chr_isalpha first then (score + 0.1)%Q else score in
  let score := if negb (contains name_lower (lit "-")) then (score + 0.1)%Q else score in
  Ok (Qmin score 1.0).

Definition calculate_memorability_score (name : str) : res Q :=
  let name_lower := str_lower name in
  let score := 0.5%Q in
  let score := if (length name_lower <=? 7)%nat then (score + 0.2)%Q else score in
  let score :=
    if bool_decide (is_Some (search (cls "aeiou") name_lower))
    then (score + 0.1)%Q else score in
  let score :=
    if negb (bool_decide (is_Some (search (Rep (cls "xzq") 2 None) name_lower)))
    then (score + 0.1)%Q else score in
  let easy_chars := lit "abcdefghijklmnoprstuvwy" in
  let* char_ease :=
    pydiv (of_nat (count_if (one_of easy_chars) name_lower)) (of_nat (length name_lower)) in
  let score := (score + char_ease * 0.1)%Q in
  Ok (Qmin score 1.0).

(** Lines 185-198: the local variables of [check_premium]. *)
Definition premium_locals (name tld : str) : res PremiumResult :=
  let length_score := calculate_length_score name in
  let word_score := calculate_word_score name in
  let tld_score := calculate_tld_score tld in
  let* pattern_score := calculate_pattern_score name in
  let* memorability_score := calculate_memorability_score name in
  let overall :=
    (length_score * 0.25 + word_score * 0.20 + tld_score * 0.20 +
     pattern_score * 0.15 + memorability_score * 0.20)%Q in
  Ok (Build_PremiumResult length_score word_score tld_score pattern_score
        memorability_score overall).

Definition round_result (r : PremiumResult) : PremiumResult :=
  Build_PremiumResult (round3 (length_score r)) (round3 (word_score r)) (round3 (tld_score r))
    (round3 (pattern_score r)) (round3 (memorability_score r)) (round3 (overall r)).

Definition check_premium (name tld : str) : res PremiumResult :=
  let* locals := premium_locals name tld in
  Ok (round_result locals).

(** The six means of [check_premium_response], not yet rounded. *)
Definition response_means (results : list PremiumResult) : res PremiumResult :=
  let n := of_nat (length results) in
  let* a := mean length_score results n in
  let* b := mean word_score results n in
  let* c := mean tld_score results n in
  let* d := mean pattern_score results n in
  let* e := mean memorability_score results n in
  let* f := mean overall results n in
  Ok (Build_PremiumResult a b c d e f).

Definition check_premium_response (response : str) : res PremiumResult :=
  let domains := parse_domains response in
  match domains with
  | [] => Ok (Build_PremiumResult 0 0 0 0 0 0)
  | _ :: _ =>
      let* results := mapM (fun d => check_premium (fst d) (snd d)) domains in
      let* means := response_means results in
      Ok (round_result means)
  end.

End WithUnicode.

End premium_score.

(* ------------------------------------------------------------------ *)
(** ** run_evaluation.py and eval_model.py: delta reports *)

Inductive arrow := Up | Down | Unchanged.

(** The five numbers that a comparison reads from a result file. *)
Record results := {
  constraints_avg_overall : Q;
  diversity_avg_overall : Q;
  pronounceability_avg_overall : Q;
  premium_avg_overall : Q;
  combined_score : Q
}.

Definition metrics : list (string * (results -> Q)) :=
  [ ("Constraint Satisfaction", constraints_avg_overall);
    ("Diversity", diversity_avg_overall);
    ("Pronounceability", pronounceability_avg_overall);
    ("Brandability", premium_avg_overall);
    ("Combined Score", combined_score) ]%string.

(** One printed line: metric, old value, new value, arrow, [abs(diff)]. *)
Definition report_line : Type := string * Q * Q * arrow * Q.

Module run_evaluation.

(** Line 172: [arrow = up if diff > 0 else down if diff < 0 else "="]. *)
Definition classify (diff : Q) : arrow :=
  if Qltb 0 diff then Up else if Qltb diff 0 then Down else Unchanged.

Definition compare_results (r1 r2 : results) : list report_line :=
  List.map (fun '(name, key) =>
              let v1 := key r1 in
              let v2 := key r2 in
              let diff := (v2 - v1)%Q in
              (name, v1, v2, classify diff, Qabs diff))
           metrics.

End run_evaluation.

Module eval_model.

(** [compare_with_baseline]:
    [arrow = up if diff > 0.001 else down if diff < -0.001 else "="]. *)
Definition classify (diff : Q) : arrow :=
  if Qltb 0.001 diff then Up else if Qltb diff (-0.001) then Down else Unchanged.

Definition compare_with_baseline (baseline results : results) : list report_line :=
  List.map (fun '(name, key) =>
              let v1 := key baseline in
              let v2 := key results in
              let diff := (v2 - v1)%Q in
              (name, v1, v2, classify diff, Qabs diff))
           metrics.

End eval_model.

(* ------------------------------------------------------------------ *)
(** ** rlhf/generate_preferences.py *)

Module generate_preferences.

Abbreviation dict := (gmap (list N) Q) (only parsing).

Record judge_config := { model : string; weight : Q; focus : string }.

Definition minimax : judge_config :=
  {| model := "minimax/minimax-m2.1"; weight := 0.5;
     focus := "brandability, memorability, creativity" |}.

Definition deepseek : judge_config :=
  {| model := "deepseek/deepseek-chat-v3-0324"; weight := 0.5;
     focus := "constraint satisfaction, pronounceability, uniqueness" |}.

Definition JUDGES : list (str * judge_config) :=
  [ (lit "minimax", minimax); (lit "deepseek", deepseek) ].

Definition brandability := lit "brandability".
Definition pronounceability := lit "pronounceability".
Definition constraint := lit "constraint".
Definition creativity := lit "creativity".
Definition overall := lit "overall".

(** The verdict that [call_judge] substitutes for a failed call. *)
Definition neutral : dict :=
  list_to_map [ (brandability, 5%Q); (pronounceability, 5%Q); (constraint, 5%Q);
                (creativity, 5%Q); (overall, 5%Q) ].

(** What can happen to one remote call, as [call_judge] distinguishes it. *)
Inductive reply :=
| BadStatus (status_code : Z)       (* response.status_code != 200 *)
| ApiError                          (* "error" in response_data *)
| Parsed (scores : dict)            (* json.loads succeeded *)
| JSONDecodeError
| TimeoutException
| OtherException.

(** An entry of [asyncio.gather(..., return_exceptions=True)]. *)
Inductive gathered :=
| Returned (scores : dict)
| Exception.

(** What happens to one task: either the body of [call_judge] runs into
    [reply] inside its [try], or an exception escapes the coroutine (the
    lookup [JUDGES[judge_name]] before the [try]). *)
Inductive task :=
| Call (r : reply)
| Escapes.

Definition call_judge (r : reply) : dict :=
  match r with
  | BadStatus _ => neutral
  | ApiError => neutral
  | Parsed scores => scores
  | JSONDecodeError => neutral
  | TimeoutException => neutral
  | OtherException => neutral
  end.

Definition gather (tasks : list task) : list gathered :=
  List.map (fun t => match t with Call r => Returned (call_judge r) | Escapes => Exception end) tasks.

Record DomainCandidate := {
  domain : str;
  scores : dict;
  combined_score : Q
}.

(** Lines 187-190: add one judge's verdict into [combined_scores]. *)
Definition add_scores (weight : Q) (result combined_scores : dict) : dict :=
  map_fold (fun key value (acc : dict) =>
              let acc := if bool_decide (is_Some (acc !! key)) then acc else <[key := 0%Q]> acc in
              <[key := (default 0%Q (acc !! key) + value * weight)%Q]> acc)
           combined_scores result.

(** Lines 177-194: the blend and [total_weight]. *)
Definition blend (active_judges : list (str * judge_config)) (results : list gathered)
  : dict * Q :=
  let '(combined_scores, total_weight) :=
    fold_left (fun '(combined_scores, total_weight) '(judge, result) =>
                 match result with
                 | Exception => (combined_scores, total_weight)
                 | Returned result =>
                     let weight := weight (snd judge) in
                     let total_weight := (total_weight + weight)%Q in
                     (add_scores weight result combined_scores, total_weight)
                 end)
              (zip active_judges results) (∅, 0%Q) in
  let combined_scores :=
    if Qltb 0 total_weight
    then (fun value => (value / total_weight)%Q) <$> combined_scores
    else combined_scores in
  (combined_scores, total_weight).

Definition get (d : dict) (key : str) (default : Q) : Q :=
  match d !! key with Some v => v | None => default end.

Definition final_score (combined_scores : dict) : Q :=
  (get combined_scores brandability 5 * 0.25 +
   get combined_scores pronounceability 5 * 0.20 +
   get combined_scores constraint 5 * 0.25 +
   get combined_scores creativity 5 * 0.15 +
   get combined_scores overall 5 * 0.15)%Q.

Definition score_candidate (domain : str) (active_judges : list (str * judge_config))
    (tasks : list task) : DomainCandidate :=
  let results := gather tasks in
  let combined_scores := fst (blend active_judges results) in
  {| domain := domain; scores := combined_scores; combined_score := final_score combined_scores |}.

(** [sorted(candidates, key=lambda x: x.combined_score, reverse=True)].
    The sort is stable, also with [reverse=True]: candidates with equal
    scores keep the order of the input.  A stable sort has exactly one
    result (see [sorted_desc_perm], [sorted_desc_sorted] and
    [sorted_desc_stable]); it is computed here by insertion. *)
Fixpoint insert_desc (x : DomainCandidate) (l : list DomainCandidate) : list DomainCandidate :=
  match l with
  | [] => [x]
  | y :: l' =>
      if Qltb (combined_score x) (combined_score y) then y :: insert_desc x l' else x :: y :: l'
  end.

Definition sorted_desc (candidates : list DomainCandidate) : list DomainCandidate :=
  fold_right insert_desc [] candidates.

Definition create_preference_pairs (candidates : list DomainCandidate)
  : list (DomainCandidate * DomainCandidate) :=
  let pairs := [] in
  let sorted_candidates := sorted_desc candidates in
  if (2 <=? length sorted_candidates)%nat then
    match sorted_candidates with
    | best :: others =>
        fold_left (fun pairs other =>
                     if Qltb 0.5 (combined_score best - combined_score other)
                     then pairs ++ [(best, other)] else pairs)
                  others pairs
    | [] => pairs
    end
  else pairs.

(** String helpers of [extract_domains_from_response]. *)
Fixpoint lstrip (p : char -> bool) (s : str) : str :=
  match s with
  | c :: s' => if p c then lstrip p s' else s
  | [] => []
  end.

Definition strip (p : char -> bool) (s : str) : str := rev (lstrip p (rev (lstrip p s))).

(** [s.split(sep)] for a one-character separator. *)
Fixpoint split_on (sep : char) (s : str) : list str :=
  match s with
  | [] => [[]]
  | c :: s' =>
      if (c =? sep)%N then [] :: split_on sep s'
      else match split_on sep s' with
           | w :: ws => (c :: w) :: ws
           | [] => [[c]]
           end
  end.

(** [s.split(sep)[0]] and [s.split(sep, 1)[1]] when [sep] occurs in [s]. *)
Fixpoint before_first (sep s : str) : str :=
  match s with
  | [] => []
  | c :: s' => if startswith s sep then [] else c :: before_first sep s'
  end.

Fixpoint after_first (sep s : str) : str :=
  match s with
  | [] => []
  | _ :: s' => if startswith s sep then skipn (length sep) s else after_first sep s'
  end.

Definition is_empty (s : str) : bool := match s with [] => true | _ => false end.

Section WithUnicode.
Context {U : Unicode}.

Definition clean_line (line : str) : str :=
  let line :=
    if match line with c :: _ => chr_isdigit c | [] => false end
       && contains (firstn 3 line) (lit ".")
    then strip chr_isspace (after_first (lit ".") line) else line in
  let line :=
    if startswith line (lit "-") then strip chr_isspace (skipn 1 line) else line in
  let line :=
    if contains line (lit " - ") then strip chr_isspace (before_first (lit " - ") line)
    else line in
  let line :=
    if contains line (lit " (") then strip chr_isspace (before_first (lit " (") line)
    else line in
  strip chr_isspace (strip (chr_is 96) (strip (chr_is 42) line)).

Definition extract_domains_from_response (response : str) : list str :=
  let lines := split_on 10 (strip chr_isspace response) in
  let domains :=
    fold_left (fun domains line =>
                 let line := strip chr_isspace line in
                 if is_empty line || startswith line (lit "#") || startswith line (lit "Here")
                 then domains
                 else
                   let domain := clean_line line in
                   if negb (is_empty domain) && contains domain (lit ".")
                      && (length domain <? 50)%nat
                   then domains ++ [domain] else domains)
              lines [] in
  firstn 10 domains.

(** [l[:n]] for a Python integer [n]. *)
Definition slice_to {A} (l : list A) (n : Z) : list A :=
  if (0 <=? n)%Z then firstn (Z.to_nat n) l
  else firstn (length l - Z.to_nat (- n)) l.

(** Lines 376-385 of [main]: the candidates of one prompt that go on to
    the judges, or [None] when the prompt is skipped.  [elements] of the
    [gset] stands for the unspecified order of [list(set(...))]. *)
Definition candidate_pool (candidates_text : list str) (candidates_per_prompt : Z)
  : option (list str) :=
  let all_domains :=
    fold_left (fun all_domains resp => all_domains ++ extract_domains_from_response resp)
              candidates_text [] in
  let all_domains :=
    slice_to (elements (list_to_set all_domains : gset (list N))) (candidates_per_prompt * 2) in
  if (length all_domains <? 2)%nat then None else Some all_domains.

End WithUnicode.

End generate_preferences.

(* ------------------------------------------------------------------ *)
(** ** Vocabulary of the statements *)

(** Two optional results agree: both absent, or both present and related. *)
Definition orel {A B} (R : A -> B -> Prop) (x : option A) (y : option B) : Prop :=
  match x, y with
  | Some a, Some b => R a b
  | None, None => True
  | _, _ => False
  end.

(** A pattern without capture groups. *)
Fixpoint nogrp (r : re) : bool :=
  match r with
  | Eps | Chr _ | Bol | Eol => true
  | Cat a b => nogrp a && nogrp b
  | Rep a _ _ => nogrp a
  | Grp _ => false
  end.

(** [n] successive steps of [D], each of which moves forward. *)
Fixpoint iter (D : mstate -> mstate -> Prop) (n : nat) (st st' : mstate) : Prop :=
  match n with
  | O => st' = st
  | S n' => exists mid, D st mid /\ pos st < pos mid /\ iter D n' mid st'
  end.

(** The states a pattern can lead to, whatever the matcher prefers: an
    upper bound on [rmatch] (the bound [hi] of a repetition is left out). *)
Fixpoint allows (r : re) (st st' : mstate) : Prop :=
  match r with
  | Eps => st' = st
  | Chr p =>
      exists c s', rest st = c :: s' /\ p c = true /\ st' = MState (S (pos st)) s' (caps st)
  | Cat a b => exists mid, allows a st mid /\ allows b mid st'
  | Rep a lo _ => exists n, lo <= n /\ iter (allows a) n st st'
  | Grp a =>
      exists mid, allows a st mid /\
        st' = MState (pos mid) (rest mid) (caps mid ++ [firstn (pos mid - pos st) (rest st)])
  | Bol => st' = st
  | Eol => st' = st
  end.

(** A string that [int] accepts: at most 4300 characters. *)
Definition within_int_limit (s : list N) : Prop :=
  (N.of_nat (length s) <= constraint_satisfaction.int_max_str_digits)%N.

(** Every captured group is at most [L] characters long. *)
Definition caps_within (L : nat) (st : mstate) : Prop :=
  List.Forall (fun c => length c <= L) (caps st).

(** The closed unit interval. *)
Definition unit_interval (q : Q) : Prop := (0 <= q /\ q <= 1)%Q.

Definition constraint_in_unit (r : constraint_satisfaction.ConstraintResult) : Prop :=
  unit_interval (constraint_satisfaction.length_satisfied r) /\
  unit_interval (constraint_satisfaction.tld_satisfied r) /\
  unit_interval (constraint_satisfaction.prefix_suffix_satisfied r) /\
  unit_interval (constraint_satisfaction.count_satisfied r) /\
  unit_interval (constraint_satisfaction.overall r).

Definition diversity_in_unit (r : diversity_metrics.DiversityResult) : Prop :=
  unit_interval (diversity_metrics.type_token_ratio r) /\
  unit_interval (diversity_metrics.duplicate_rate r) /\
  unit_interval (diversity_metrics.char_diversity r) /\
  unit_interval (diversity_metrics.prefix_diversity r) /\
  unit_interval (diversity_metrics.suffix_diversity r) /\
  unit_interval (diversity_metrics.overall r).

Definition pronounceability_in_unit (r : pronounceability.PronounceabilityResult) : Prop :=
  unit_interval (pronounceability.vowel_ratio r) /\
  unit_interval (pronounceability.consonant_cluster_score r) /\
  unit_interval (pronounceability.pattern_score r) /\
  unit_interval (pronounceability.length_score r) /\
  unit_interval (pronounceability.overall r).

Definition premium_in_unit (r : premium_score.PremiumResult) : Prop :=
  unit_interval (premium_score.length_score r) /\
  unit_interval (premium_score.word_score r) /\
  unit_interval (premium_score.tld_score r) /\
  unit_interval (premium_score.pattern_score r) /\
  unit_interval (premium_score.memorability_score r) /\
  unit_interval (premium_score.overall r).

(** A judge's verdict with exactly the five keys of the rubric. *)
Definition rubric (b p c cr o : Q) : gmap (list N) Q :=
  list_to_map [ (generate_preferences.brandability, b);
                (generate_preferences.pronounceability, p);
                (generate_preferences.constraint, c);
                (generate_preferences.creativity, cr);
                (generate_preferences.overall, o) ].

Definition rubric_keys : list (list N) :=
  [ generate_preferences.brandability; generate_preferences.pronounceability;
    generate_preferences.constraint; generate_preferences.creativity;
    generate_preferences.overall ].

(** The rubric dimensions folded into one number (lines 197-203). *)
Definition rubric_score (b p c cr o : Q) : Q :=
  (b * 0.25 + p * 0.20 + c * 0.25 + cr * 0.15 + o * 0.15)%Q.

(** Order, ties and margin of the pairing. *)
Definition ge_score (x y : generate_preferences.DomainCandidate) : Prop :=
  (generate_preferences.combined_score y <= generate_preferences.combined_score x)%Q.

Definition has_score (c : Q) (x : generate_preferences.DomainCandidate) : bool :=
  Qeq_bool (generate_preferences.combined_score x) c.

Definition beats (best other : generate_preferences.DomainCandidate) : bool :=
  Qltb 0.5 (generate_preferences.combined_score best - generate_preferences.combined_score other).

Definition arrow_of (l : report_line) : arrow := snd (fst l).

(** What [extract_domains_from_response] accepts as a domain. *)
Definition looks_like_domain (d : list N) : Prop :=
  contains d (lit ".") = true /\ (length d < 50)%nat.



(** Inputs of the examples. *)
Definition newline : list N := [10%N].
Definition em_dash : list N := [8212%N].

Definition example_prompt : list N :=
  lit "Generate 2 names. Length 4-8. Use TLDs: .com, .io. Must include 'nova'.".

Definition example_response : list N :=
  lit "- abnova.com " ++ em_dash ++ lit " x" ++ newline ++
  lit "- banova.io " ++ em_dash ++ lit " y".


Definition four_candidates : list N :=
  lit "a.com" ++ newline ++ lit "b.com" ++ newline ++ lit "c.com" ++ newline ++ lit "d.com".


Definition candidate (name : string) (score : Q) : generate_preferences.DomainCandidate :=
  {| generate_preferences.domain := lit name;
     generate_preferences.scores := ∅;
     generate_preferences.combined_score := score |}.

Definition old_results : results :=
  {| constraints_avg_overall := 0.9; diversity_avg_overall := 0.6;
     pronounceability_avg_overall := 0.8; premium_avg_overall := 0.7;
     combined_score := 0.5 |}.

Definition new_results : results :=
  {| constraints_avg_overall := 0.9; diversity_avg_overall := 0.6;
     pronounceability_avg_overall := 0.8; premium_avg_overall := 0.7;
     combined_score := 0.5005 |}.

(* ------------------------------------------------------------------ *)
(** ** Batch evaluation: [evaluate_batch] of the four rubrics,
       [evaluate_cross_batch_diversity] and [evaluate_dataset] *)

(** One line of a dataset, with the two keys the evaluators read. *)
Record sample := { prompt : list N; response : list N }.

(** What an [evaluate_batch] returns: the dictionary with the single key
    "error", or [num_samples] with the rounded means (the fields
    [avg_...] of the source are the fields of the rubric's record). *)
Inductive batch (R : Type) : Type :=
| BatchError (error : string)
| BatchReport (num_samples : nat) (avg : R).
Arguments BatchError {R} error.
Arguments BatchReport {R} num_samples avg.

Module run_evaluation_batch.

Import pronounceability(mapM, mean).

(** [round(sum(f(r) for r in results) / n, 3)] *)
Definition avg {A} (f : A -> Q) (results : list A) (n : nat) : res Q :=
  let* m := mean f results (of_nat n) in
  Ok (round3 m).

Section WithUnicode.
Context {U : Unicode}.

(** [evaluate_batch] of [constraint_satisfaction.py]. *)
Definition eval_constraints (samples : list sample)
  : res (batch constraint_satisfaction.ConstraintResult) :=
  let* results :=
    mapM (fun s => constraint_satisfaction.check_constraints (prompt s) (response s)) samples in
  let n := length results in
  match n with
  | O => Ok (BatchError "No samples to evaluate")
  | S _ =>
      let* a := avg constraint_satisfaction.length_satisfied results n in
      let* b := avg constraint_satisfaction.tld_satisfied results n in
      let* c := avg constraint_satisfaction.prefix_suffix_satisfied results n in
      let* d := avg constraint_satisfaction.count_satisfied results n in
      let* e := avg constraint_satisfaction.overall results n in
      Ok (BatchReport n (constraint_satisfaction.Build_ConstraintResult a b c d e))
  end.

(** [evaluate_batch] of [diversity_metrics.py]. *)
Definition eval_diversity (samples : list sample)
  : res (batch diversity_metrics.DiversityResult) :=
  let* results := mapM (fun s => diversity_metrics.check_diversity (response s)) samples in
  let n := length results in
  match n with
  | O => Ok (BatchError "No samples to evaluate")
  | S _ =>
      let* a := avg diversity_metrics.type_token_ratio results n in
      let* b := avg diversity_metrics.duplicate_rate results n in
      let* c := avg diversity_metrics.char_diversity results n in
      let* d := avg diversity_metrics.prefix_diversity results n in
      let* e := avg diversity_metrics.suffix_diversity results n in
      let* f := avg diversity_metrics.overall results n in
      Ok (BatchReport n (diversity_metrics.Build_DiversityResult a b c d e f))
  end.

(** [evaluate_batch] of [pronounceability.py]. *)
Definition eval_pronounceability (samples : list sample)
  : res (batch pronounceability.PronounceabilityResult) :=
  let* results :=
    mapM (fun s => pronounceability.check_pronounceability_response (response s)) samples in
  let n := length results in
  match n with
  | O => Ok (BatchError "No samples to evaluate")
  | S _ =>
      let* a := avg pronounceability.vowel_ratio results n in
      let* b := avg pronounceability.consonant_cluster_score results n in
      let* c := avg pronounceability.pattern_score results n in
      let* d := avg pronounceability.length_score results n in
      let* e := avg pronounceability.overall results n in
      Ok (BatchReport n (pronounceability.Build_PronounceabilityResult a b c d e))
  end.

(** [evaluate_batch] of [premium_score.py]. *)
Definition eval_premium (samples : list sample)
  : res (batch premium_score.PremiumResult) :=
  let* results :=
    mapM (fun s => premium_score.check_premium_response (response s)) samples in
  let n := length results in
  match n with
  | O => Ok (BatchError "No samples to evaluate")
  | S _ =>
      let* a := avg premium_score.length_score results n in
      let* b := avg premium_score.word_score results n in
      let* c := avg premium_score.tld_score results n in
      let* d := avg premium_score.pattern_score results n in
      let* e := avg premium_score.memorability_score results n in
      let* f := avg premium_score.overall results n in
      Ok (BatchReport n (premium_score.Build_PremiumResult a b c d e f))
  end.

End WithUnicode.

(** [collections.Counter]: the counts, in the order the keys are first
    seen. *)
Fixpoint count_add (x : list N) (counts : list (list N * nat)) : list (list N * nat) :=
  match counts with
  | [] => [(x, 1)]
  | (y, n) :: counts' =>
      if bool_decide (x = y) then (y, S n) :: counts' else (y, n) :: count_add x counts'
  end.

Definition Counter (l : list (list N)) : list (list N * nat) :=
  fold_left (fun counts x => count_add x counts) l [].

(** [Counter.most_common(n)] is [heapq.nlargest(n, items, key=count)], that
    is [sorted(items, key=count, reverse=True)[:n]]: a stable sort, so
    equal counts stay in first-seen order. *)
Fixpoint insert_by_count (x : list N * nat) (l : list (list N * nat)) : list (list N * nat) :=
  match l with
  | [] => [x]
  | y :: l' => if snd x <? snd y then y :: insert_by_count x l' else x :: y :: l'
  end.

Definition most_common (n : nat) (counts : list (list N * nat)) : list (list N * nat) :=
  firstn n (fold_right insert_by_count [] counts).

Record CrossBatchDiversity := {
  total_names : nat;
  unique_names : nat;
  unique_ratio : Q;
  most_common_names : list (list N * nat);
  most_common_prefixes : list (list N * nat);
  most_common_suffixes : list (list N * nat)
}.

(** [evaluate_cross_batch_diversity] of [diversity_metrics.py]. *)
Definition evaluate_cross_batch_diversity (all_names : list (list N))
  : res (string + CrossBatchDiversity) :=
  match all_names with
  | [] => Ok (inl "No names to evaluate"%string)
  | _ :: _ =>
      let name_counts := Counter all_names in
      let most_common_names := most_common 10 name_counts in
      let prefixes :=
        List.map (firstn 3) (List.filter (fun n => 3 <=? length n) all_names) in
      let prefix_counts := Counter prefixes in
      let most_common_prefixes := most_common 10 prefix_counts in
      let suffixes :=
        List.map (fun n => skipn (length n - 3) n)
                 (List.filter (fun n => 3 <=? length n) all_names) in
      let suffix_counts := Counter suffixes in
      let most_common_suffixes := most_common 10 suffix_counts in
      let* ratio := pydiv (of_nat (distinct all_names)) (of_nat (length all_names)) in
      Ok (inr {| total_names := length all_names;
                 unique_names := distinct all_names;
                 unique_ratio := round3 ratio;
                 most_common_names := most_common_names;
                 most_common_prefixes := most_common_prefixes;
                 most_common_suffixes := most_common_suffixes |})
  end.





End run_evaluation_batch.

(* ------------------------------------------------------------------ *)
(** ** More of [rlhf/generate_preferences.py], [rlhf/generate_model_responses.py]
       and [split_dataset.py] *)

Module preference_data.

Import generate_preferences.

Record PreferencePair := {
  pair_prompt : list N;
  chosen : list N;
  rejected : list N;
  chosen_score : Q;
  rejected_score : Q
}.

(** The body of the loop of [main] for one prompt (lines 363-407): pool,
    scoring of every domain of the pool, pairing, records.  [outcome] is
    what the judges' calls do for each domain. *)
Definition prompt_pairs {U : Unicode} (prompt : list N) (candidates_text : list (list N))
    (candidates_per_prompt : Z) (active_judges : list (list N * judge_config))
    (outcome : list N -> list task) : list PreferencePair :=
  match candidate_pool candidates_text candidates_per_prompt with
  | None => []
  | Some all_domains =>
      let scored_candidates :=
        fold_left (fun scored_candidates domain =>
                     scored_candidates ++ [score_candidate domain active_judges (outcome domain)])
                  all_domains [] in
      let pairs := create_preference_pairs scored_candidates in
      List.map (fun '(chosen, rejected) =>
                  {| pair_prompt := prompt;
                     chosen := domain chosen;
                     rejected := domain rejected;
                     chosen_score := combined_score chosen;
                     rejected_score := combined_score rejected |})
               pairs
  end.

(** Lines 135-138 of [call_judge]: the text handed to [json.loads] (before
    its [strip()]) when the reply is wrapped in a fenced code block.
    [between sep s] is [s.split(sep)[1]] for a separator that occurs. *)
Definition fence : list N := lit "```".
Definition fence_json : list N := lit "```json".

Definition between (sep s : list N) : list N := before_first sep (after_first sep s).

Definition unfence (content : list N) : list N :=
  if contains content fence_json then before_first fence (between fence_json content)
  else if contains content fence then before_first fence (between fence content)
  else content.

(** A line of a JSONL file after [json.loads], with the keys the loaders
    read. *)
Record message := { role : list N; content : list N }.

Record json_line := {
  line_prompt : option (list N);
  line_response : option (list N);
  line_messages : option (list message)
}.

Record test_prompt := { tp_prompt : list N; expected : list N }.

(** [data["messages"][-1]["content"] if data["messages"][-1]["role"] ==
    "assistant" else ""]. *)
Definition expected_of (messages : list message) : list N :=
  match last messages with
  | Some m => if bool_decide (role m = lit "assistant") then content m else []
  | None => []
  end.

(** The first message of role "user", if there is one. *)
Fixpoint first_user (messages : list message) : option message :=
  match messages with
  | [] => None
  | m :: rest => if bool_decide (role m = lit "user") then Some m else first_user rest
  end.

(** [load_test_prompts] of [generate_preferences.py], on the parsed lines. *)
Fixpoint load_loop (lines : list json_line) (num_prompts : Z) (prompts : list test_prompt)
  : list test_prompt :=
  match lines with
  | [] => prompts
  | data :: lines' =>
      if (num_prompts <=? Z.of_nat (length prompts))%Z then prompts
      else
        match line_prompt data, line_messages data with
        | Some p, _ =>
            load_loop lines' num_prompts
              (prompts ++ [{| tp_prompt := p; expected := default [] (line_response data) |}])
        | None, Some messages =>
            match first_user messages with
            | Some msg =>
                load_loop lines' num_prompts
                  (prompts ++ [{| tp_prompt := content msg; expected := expected_of messages |}])
            | None => load_loop lines' num_prompts prompts
            end
        | None, None => load_loop lines' num_prompts prompts
        end
  end.

Definition load_test_prompts (lines : list json_line) (num_prompts : Z) : list test_prompt :=
  load_loop lines num_prompts [].

End preference_data.

Module generate_model_responses.

Import preference_data.

(** [load_test_prompts] of [generate_model_responses.py]. *)
Fixpoint load_loop (lines : list json_line) (num_prompts : Z) (prompts : list (list N))
  : list (list N) :=
  match lines with
  | [] => prompts
  | data :: lines' =>
      if (num_prompts <=? Z.of_nat (length prompts))%Z then prompts
      else
        match line_prompt data, line_messages data with
        | Some p, _ => load_loop lines' num_prompts (prompts ++ [p])
        | None, Some messages =>
            match first_user messages with
            | Some msg => load_loop lines' num_prompts (prompts ++ [content msg])
            | None => load_loop lines' num_prompts prompts
            end
        | None, None => load_loop lines' num_prompts prompts
        end
  end.

Definition load_test_prompts (lines : list json_line) (num_prompts : Z) : list (list N) :=
  load_loop lines num_prompts [].

End generate_model_responses.

Module split_dataset.

Definition TRAIN_RATIO : Q := 0.8.
Definition VAL_RATIO : Q := 0.1.
Definition TEST_RATIO : Q := 0.1.

(** [int(x)] for a non-negative float. *)
Definition int (x : Q) : nat := Z.to_nat (Qfloor x).

(** [data[a:b]] and [data[a:]] for indices that are not negative. *)
Definition slice {A} (data : list A) (a b : nat) : list A := firstn (b - a) (skipn a data).

(** [split_dataset], on the data as [random.shuffle] left them: the three
    lists that are saved.  The sizes are printed as percentages of [total]
    (lines 67-69) before anything is saved. *)
Definition split_dataset {A} (data : list A) : res (list A * list A * list A) :=
  let total := length data in
  let train_end := int (of_nat total * TRAIN_RATIO) in
  let val_end := train_end + int (of_nat total * VAL_RATIO) in
  let train_data := firstn train_end data in
  let val_data := slice data train_end val_end in
  let test_data := skipn val_end data in
  let* train_share := pydiv (of_nat (length train_data)) (of_nat total) in
  let* val_share := pydiv (of_nat (length val_data)) (of_nat total) in
  let* test_share := pydiv (of_nat (length test_data)) (of_nat total) in
  Ok (train_data, val_data, test_data).

End split_dataset.

(* ------------------------------------------------------------------ *)
(** ** Vocabulary of the further statements *)

(** The arrow of a report read in the other direction. *)
Definition flip_arrow (a : arrow) : arrow :=
  match a with Up => Down | Down => Up | Unchanged => Unchanged end.

(** How often [x] occurs in [l]. *)
Definition occurrences (x : list N) (l : list (list N)) : nat :=
  count_if (fun y => bool_decide (x = y)) l.

(** A verdict that has the five rubric fields, each within [[lo, hi]]. *)
Definition rubric_within (lo hi : Q) (d : gmap (list N) Q) : Prop :=
  forall k, In k rubric_keys -> exists x, d !! k = Some x /\ (lo <= x /\ x <= hi)%Q.

Definition task_within (lo hi : Q) (t : generate_preferences.task) : Prop :=
  match t with
  | generate_preferences.Call (generate_preferences.Parsed scores) => rubric_within lo hi scores
  | _ => True
  end.

Definition task_failed (t : generate_preferences.task) : Prop :=
  match t with
  | generate_preferences.Call (generate_preferences.Parsed _) => False
  | _ => True
  end.

(** No backtick in a text. *)
Definition no_backtick (s : list N) : Prop := List.Forall (fun c => c <> 96%N) s.

(** The count recorded for [y] in a list of counts (0 when [y] is not a key). *)
Fixpoint count_for (y : list N) (counts : list (list N * nat)) : nat :=
  match counts with
  | [] => 0
  | (z, k) :: counts' => if bool_decide (y = z) then k else count_for y counts'
  end.

(** [top] lists the [n] most frequent elements of [l] with their numbers of
    occurrences, the most frequent first; whatever is left out occurs no
    more often than anything listed. *)
Definition top_counts (n : nat) (l : list (list N)) (top : list (list N * nat)) : Prop :=
  length top = Nat.min n (distinct l) /\
  NoDup (List.map fst top) /\
  List.Forall (fun e => snd e = occurrences (fst e) l /\ 1 <= snd e) top /\
  StronglySorted (fun a b => snd b <= snd a) top /\
  (forall x, In x l -> ~ In x (List.map fst top) ->
             List.Forall (fun e => occurrences x l <= snd e) top).

(** [t] occurs in [s] as a contiguous piece. *)
Definition substring (t s : list N) : Prop := exists a b, s = a ++ t ++ b.

(** Neither the first nor the last character of [d] satisfies [p]. *)
Definition trimmed (p : N -> bool) (d : list N) : Prop :=
  match d with c :: _ => p c = false | [] => True end /\
  match rev d with c :: _ => p c = false | [] => True end.

(* ================================================================== *)
(** * Lemmas *)

(** ** The matcher *)

Section ReFacts.

Lemma orel_orelse {A B} (R : A -> B -> Prop) x1 y1 x2 y2 :
  orel R x1 x2 -> orel R y1 y2 -> orel R (orelse x1 y1) (orelse x2 y2).
Proof. destruct x1, x2; simpl; tauto. Qed.

Lemma rep_loop_rel {A B} (R : A -> B -> Prop) step1 step2 lo hi c1 c2 k1 k2 :
  (forall p s k1' k2',
      (forall p' s', orel R (k1' (MState p' s' c1)) (k2' (MState p' s' c2))) ->
      orel R (step1 (MState p s c1) k1') (step2 (MState p s c2) k2')) ->
  (forall p' s', orel R (k1 (MState p' s' c1)) (k2 (MState p' s' c2))) ->
  forall fuel n p s,
    orel R (rep_loop step1 lo hi k1 fuel n (MState p s c1))
           (rep_loop step2 lo hi k2 fuel n (MState p s c2)).
Proof.
  intros Hstep Hk fuel.
  induction fuel as [|fuel IH]; intros n p s; simpl.
  - destruct (lo <=? n); [apply Hk | exact I].
  - apply orel_orelse.
    + destruct (below hi n); [|exact I].
      apply Hstep. intros p' s'. simpl.
      destruct (p <? p'); [apply IH | exact I].
    + destruct (lo <=? n); [apply Hk | exact I].
Qed.

Lemma rmatch_rel {A B} (R : A -> B -> Prop) r :
  nogrp r = true ->
  forall c1 c2 p s k1 k2,
    (forall p' s', orel R (k1 (MState p' s' c1)) (k2 (MState p' s' c2))) ->
    orel R (rmatch r (MState p s c1) k1) (rmatch r (MState p s c2) k2).
Proof.
  induction r as [|q|a IHa b IHb|a IHa lo hi|a IHa| |]; simpl; intros Hg c1 c2 p s k1 k2 Hk.
  - apply Hk.
  - destruct s as [|c s']; [exact I|]. destruct (q c); [apply Hk | exact I].
  - apply andb_true_iff in Hg as [Ha Hb].
    apply IHa; [exact Ha|]. intros p' s'. apply IHb; [exact Hb | exact Hk].
  - apply rep_loop_rel; [|exact Hk].
    intros p0 s0 k1' k2' Hk'. apply IHa; [exact Hg | exact Hk'].
  - discriminate.
  - destruct (p =? 0); [apply Hk | exact I].
  - destruct s as [|c [|d s']]; [apply Hk | | exact I].
    destruct (c =? 10)%N; [apply Hk | exact I].
Qed.

Lemma finditer_from_rel {A} (f1 f2 : mstate -> A) r1 r2 :
  (forall p s, orel (fun a b => pos a = pos b /\ f1 a = f2 b) (match_at r1 p s) (match_at r2 p s)) ->
  forall s p skip,
    List.map f1 (finditer_from r1 p skip s) = List.map f2 (finditer_from r2 p skip s).
Proof.
  intros H s. induction s as [|c s IH]; intros p skip.
  - destruct skip; simpl; [|reflexivity].
    specialize (H p []). destruct (match_at r1 p []), (match_at r2 p []); simpl in *; try tauto.
    destruct H as [_ H]. now rewrite H.
  - destruct skip; simpl; [|apply IH].
    specialize (H p (c :: s)).
    destruct (match_at r1 p (c :: s)), (match_at r2 p (c :: s)); simpl in *; try tauto.
    + destruct H as [Hp Hf]. rewrite Hp, Hf. f_equal. apply IH.
    + apply IH.
Qed.

End ReFacts.

Section SameExtraction.
Context {U : Unicode}.

Lemma fold_left_snoc_map {A B} (f : A -> B) (l : list A) (acc : list B) :
  fold_left (fun acc x => acc ++ [f x]) l acc = acc ++ List.map f l.
Proof.
  revert acc. induction l as [|x l IH]; intros acc; simpl.
  - now rewrite app_nil_r.
  - rewrite IH, <- app_assoc. reflexivity.
Qed.

Lemma name_pattern_agrees p s :
  orel (fun a b => pos a = pos b /\ group 1 a = group 1 b)
       (match_at diversity_metrics.name_pattern p s)
       (match_at constraint_satisfaction.domain_pattern p s).
Proof.
  unfold match_at, diversity_metrics.name_pattern, constraint_satisfaction.domain_pattern.
  unfold Seq, Plus, Star. cbn [fold_right].
  change (rmatch (Cat ?a ?b) ?st ?k) with (rmatch a st (fun st' => rmatch b st' k)).
  change (rmatch (Grp ?a) ?st ?k) with
    (rmatch a st (fun st' =>
       k (MState (pos st') (rest st') (caps st' ++ [firstn (pos st' - pos st) (rest st)])))).
  apply rmatch_rel; [reflexivity|]. intros p1 s1. cbn [pos rest caps app].
  change (rmatch (Cat ?a ?b) ?st ?k) with (rmatch a st (fun st' => rmatch b st' k)).
  apply rmatch_rel; [reflexivity|]. intros p2 s2.
  change (rmatch (Cat ?a ?b) ?st ?k) with (rmatch a st (fun st' => rmatch b st' k)).
  change (rmatch (Grp ?a) ?st ?k) with
    (rmatch a st (fun st' =>
       k (MState (pos st') (rest st') (caps st' ++ [firstn (pos st' - pos st) (rest st)])))).
  apply rmatch_rel; [reflexivity|]. intros p3 s3. cbn [pos rest caps app].
  apply rmatch_rel; [reflexivity|]. intros p4 s4. simpl. split; reflexivity.
Qed.

Lemma pronounceability_pattern_agrees p s :
  orel (fun a b => pos a = pos b /\ group 1 a = group 1 b)
       (match_at pronounceability.name_pattern p s)
       (match_at constraint_satisfaction.domain_pattern p s).
Proof. exact (name_pattern_agrees p s). Qed.

End SameExtraction.

Section Soundness.

Lemma orelse_Some {A} (x y : option A) a :
  orelse x y = Some a -> x = Some a \/ (x = None /\ y = Some a).
Proof. destruct x; simpl; intros H; [left | right]; auto. Qed.

Lemma rep_loop_allows {A} (D : mstate -> mstate -> Prop) step lo hi (k : mstate -> option A) :
  (forall cur k' a, step cur k' = Some a -> exists st', D cur st' /\ k' st' = Some a) ->
  forall fuel n cur a,
    rep_loop step lo hi k fuel n cur = Some a ->
    exists m st', iter D m cur st' /\ lo <= n + m /\ k st' = Some a.
Proof.
  intros Hstep fuel.
  assert (Hstop : forall n cur a,
             (if lo <=? n then k cur else None) = Some a ->
             exists m st', iter D m cur st' /\ lo <= n + m /\ k st' = Some a).
  { intros n cur a H. destruct (lo <=? n) eqn:E; [|discriminate]. apply Nat.leb_le in E.
    exists 0, cur. simpl. repeat split; [lia | exact H]. }
  induction fuel as [|fuel IH]; intros n cur a H; simpl in H.
  - now apply Hstop.
  - apply orelse_Some in H as [H | [_ H]]; [|now apply Hstop].
    destruct (below hi n); [|discriminate].
    apply Hstep in H as (st' & HD & H).
    destruct (pos cur <? pos st') eqn:E; [|discriminate]. apply Nat.ltb_lt in E.
    apply IH in H as (m & st'' & Hit & Hlo & Hk).
    exists (S m), st''. simpl. split; [|split; [lia | exact Hk]].
    exists st'. auto.
Qed.

Lemma rmatch_allows {A} r : forall st (k : mstate -> option A) a,
  rmatch r st k = Some a -> exists st', allows r st st' /\ k st' = Some a.
Proof.
  induction r as [|q|a IHa b IHb|a IHa lo hi|a IHa| |]; simpl; intros st k x H.
  - eauto.
  - destruct (rest st) as [|c s'] eqn:E; [discriminate|].
    destruct (q c) eqn:Eq; [|discriminate].
    eexists. split; [|exact H]. exists c, s'. auto.
  - apply IHa in H as (mid & Ha & H). apply IHb in H as (st' & Hb & H).
    exists st'. split; [exists mid; auto | exact H].
  - apply (rep_loop_allows (allows a)) in H as (m & st' & Hit & Hlo & Hk); [|apply IHa].
    exists st'. split; [exists m; split; [lia | exact Hit] | exact Hk].
  - apply IHa in H as (mid & Ha & H). eexists. split; [|exact H]. exists mid. auto.
  - destruct (pos st =? 0); [eauto | discriminate].
  - destruct (rest st) as [|c [|d s']]; [eauto | | discriminate].
    destruct (c =? 10)%N; [eauto | discriminate].
Qed.

Lemma iter_chr p n : forall st st',
  iter (allows (Chr p)) n st st' ->
  exists w, length w = n /\ forallb p w = true /\ rest st = w ++ rest st' /\
            pos st' = pos st + n /\ caps st' = caps st.
Proof.
  induction n as [|n IH]; simpl; intros st st' H.
  - subst. exists []. repeat split; simpl; lia.
  - destruct H as (mid & (c & s' & Hr & Hp & ->) & _ & Hit).
    apply IH in Hit as (w & Hl & Hw & Hrest & Hpos & Hcaps). simpl in *.
    exists (c :: w). simpl. rewrite Hp, Hw, Hl, Hr, Hrest, Hcaps, Hpos.
    repeat split; lia.
Qed.

Lemma finditer_from_In r st : forall s p skip,
  In st (finditer_from r p skip s) -> exists p' s', match_at r p' s' = Some st.
Proof.
  induction s as [|c s IH]; intros p skip H.
  - destruct skip; simpl in H; [|contradiction].
    destruct (match_at r p []) eqn:E; [|contradiction].
    destruct H as [<- | []]. eauto.
  - destruct skip; simpl in H; [|eauto].
    destruct (match_at r p (c :: s)) eqn:E; [|eauto].
    destruct H as [<- | H]; eauto.
Qed.

End Soundness.

(** ** A group is a piece of the subject *)

Section GroupBounds.

Lemma iter_bounded (D : mstate -> mstate -> Prop) (L : nat) :
  (forall st st', D st st' -> length (rest st) <= L -> caps_within L st ->
                  length (rest st') <= length (rest st) /\ caps_within L st') ->
  forall n st st', iter D n st st' -> length (rest st) <= L -> caps_within L st ->
                   length (rest st') <= length (rest st) /\ caps_within L st'.
Proof.
  intros HD. induction n as [|n IH]; simpl; intros st st' H Hr Hc.
  - subst. split; [lia | exact Hc].
  - destruct H as (mid & Hm & _ & Hit).
    destruct (HD _ _ Hm Hr Hc) as [Hr1 Hc1].
    destruct (IH _ _ Hit) as [Hr2 Hc2]; [lia | exact Hc1|].
    split; [lia | exact Hc2].
Qed.

Lemma allows_bounded (L : nat) (r : re) : forall st st',
  allows r st st' -> length (rest st) <= L -> caps_within L st ->
  length (rest st') <= length (rest st) /\ caps_within L st'.
Proof.
  induction r as [|q|a IHa b IHb|a IHa lo hi|a IHa| |]; simpl; intros st st' H Hr Hc.
  - subst. split; [lia | exact Hc].
  - destruct H as (c & s' & E & _ & ->). cbn [rest caps]. rewrite E. simpl.
    split; [lia | exact Hc].
  - destruct H as (mid & H1 & H2).
    destruct (IHa _ _ H1 Hr Hc) as [Hr1 Hc1].
    destruct (IHb _ _ H2) as [Hr2 Hc2]; [lia | exact Hc1|].
    split; [lia | exact Hc2].
  - destruct H as (n & _ & Hit). eapply iter_bounded; eauto.
  - destruct H as (mid & H1 & ->). destruct (IHa _ _ H1 Hr Hc) as [Hr1 Hc1].
    cbn [rest caps]. split; [exact Hr1|].
    unfold caps_within. cbn [caps]. apply Forall_app. split; [exact Hc1|].
    constructor; [|constructor]. rewrite length_firstn. lia.
  - subst. split; [lia | exact Hc].
  - subst. split; [lia | exact Hc].
Qed.

Lemma match_at_bounded (r : re) (p : nat) (s : list N) (m : mstate) :
  match_at r p s = Some m -> caps_within (length s) m.
Proof.
  unfold match_at. intros H. apply rmatch_allows in H as (st' & H & [= <-]).
  apply (allows_bounded (length s)) in H as [_ H]; [exact H | simpl; lia | constructor].
Qed.

Lemma search_from_bounded (r : re) (m : mstate) : forall (s : list N) (p : nat),
  search_from r p s = Some m -> caps_within (length s) m.
Proof.
  induction s as [|c s IH]; intros p H; simpl in H.
  - destruct (match_at r p []) eqn:E; [|discriminate]. injection H as <-.
    now apply match_at_bounded in E.
  - destruct (match_at r p (c :: s)) eqn:E.
    + injection H as <-. now apply match_at_bounded in E.
    + apply IH in H. unfold caps_within in *.
      eapply List.Forall_impl; [|exact H]. simpl. intros g Hg. lia.
Qed.

Lemma group_bounded (r : re) (s : list N) (m : mstate) (i : nat) :
  search r s = Some m -> length (group i m) <= length s.
Proof.
  unfold search. intros H. apply search_from_bounded in H.
  unfold group. destruct (nth_in_or_default (i - 1) (caps m) []) as [Hin | ->]; [|simpl; lia].
  unfold caps_within in H. rewrite List.Forall_forall in H. now apply H.
Qed.

End GroupBounds.

(** ** Runs over one character class *)

Section CharacterRuns.

(** What a greedy run over one character class consumes. *)
Lemma rep_chr_sound {A} (p : N -> bool) lo hi (k : mstate -> option A) :
  forall fuel n cur a,
    rep_loop (rmatch (Chr p)) lo hi k fuel n cur = Some a ->
    exists w r,
      forallb p w = true /\ lo <= n + length w /\
      (forall h, hi = Some h -> n <= h -> n + length w <= h) /\
      rest cur = w ++ r /\
      k (MState (pos cur + length w) r (caps cur)) = Some a.
Proof.
  assert (Hstop : forall n cur a,
             (if lo <=? n then k cur else None) = Some a ->
             exists w r,
               forallb p w = true /\ lo <= n + length w /\
               (forall h, hi = Some h -> n <= h -> n + length w <= h) /\
               rest cur = w ++ r /\
               k (MState (pos cur + length w) r (caps cur)) = Some a).
  { intros n cur a H. destruct (lo <=? n) eqn:E; [|discriminate]. apply Nat.leb_le in E.
    exists [], (rest cur). simpl. rewrite !Nat.add_0_r.
    split; [reflexivity|]. split; [exact E|]. split; [intros; assumption|].
    split; [reflexivity|]. now destruct cur. }
  induction fuel as [|fuel IH]; intros n cur a H; simpl in H; [now apply Hstop|].
  apply orelse_Some in H as [H | [_ H]]; [|now apply Hstop].
  destruct (below hi n) eqn:Eb; [|discriminate]. simpl in H.
  destruct (rest cur) as [|c s'] eqn:Er; [discriminate|].
  destruct (p c) eqn:Ep; [|discriminate]. cbn [pos] in H.
  assert (Hlt : (pos cur <? S (pos cur)) = true) by (apply Nat.ltb_lt; lia).
  rewrite Hlt in H. apply IH in H as (w & r & Hw & Hlo & Hhi & Hr & Hk).
  cbn [pos rest caps] in *. subst s'.
  exists (c :: w), r. simpl. rewrite Ep, Hw.
  replace (pos cur + S (length w)) with (S (pos cur) + length w) by lia.
  repeat split; [lia | | exact Hk].
  intros h -> Hn. unfold below in Eb. apply Nat.ltb_lt in Eb.
  specialize (Hhi h eq_refl). lia.
Qed.

(** A maximal run is consumed whole when the rest of the pattern matches
    after it. *)
Lemma rep_chr_run {A} (p : N -> bool) lo hi (k : mstate -> option A) r a :
  match r with [] => True | c :: _ => p c = false end ->
  forall w fuel n ps cs,
    forallb p w = true -> length w <= fuel -> lo <= n + length w ->
    (forall h, hi = Some h -> n + length w <= h) ->
    k (MState (ps + length w) r cs) = Some a ->
    rep_loop (rmatch (Chr p)) lo hi k fuel n (MState ps (w ++ r) cs) = Some a.
Proof.
  intros Hr. induction w as [|c w IH]; intros fuel n ps cs Hw Hfuel Hlo Hhi Hk.
  - simpl in *. rewrite Nat.add_0_r in *.
    assert (Hstep : forall k', rmatch (Chr p) (MState ps r cs) k' = (None : option A)).
    { intros k'. simpl. destruct r as [|c r']; [reflexivity | now rewrite Hr]. }
    assert (Elo : (lo <=? n) = true) by (apply Nat.leb_le; lia).
    destruct fuel as [|fuel]; simpl.
    + now rewrite Elo.
    + destruct (below hi n); [|now rewrite Elo].
      destruct r as [|c r']; [now rewrite Elo | rewrite Hr; now rewrite Elo].
  - simpl in Hw. apply andb_true_iff in Hw as [Hc Hw]. simpl in Hfuel, Hlo, Hk.
    destruct fuel as [|fuel]; [lia|]. cbn [rep_loop].
    assert (Eb : below hi n = true).
    { unfold below. destruct hi as [h|]; [|reflexivity].
      apply Nat.ltb_lt. specialize (Hhi h eq_refl). simpl in Hhi. lia. }
    rewrite Eb. cbn [rmatch rest app pos caps]. rewrite Hc.
    assert (Hlt : (ps <? S ps) = true) by (apply Nat.ltb_lt; lia).
    rewrite Hlt.
    assert (E : rep_loop (rmatch (Chr p)) lo hi k fuel (S n) (MState (S ps) (w ++ r) cs)
                = Some a).
    { apply IH.
      - exact Hw.
      - lia.
      - lia.
      - intros h Hh. specialize (Hhi h Hh). simpl in Hhi. lia.
      - replace (S ps + length w) with (ps + S (length w)) by lia. exact Hk. }
    match goal with
    | |- orelse _ ?Y = _ =>
        change (orelse (rep_loop (rmatch (Chr p)) lo hi k fuel (S n)
                          (MState (S ps) (w ++ r) cs)) Y = Some a)
    end.
    rewrite E. reflexivity.
Qed.

Lemma finditer_from_skip r : forall s p,
  finditer_from r p (length s) s = finditer_from r (p + length s) 0 [].
Proof.
  induction s as [|c s IH]; intros p.
  - cbn [length]. now rewrite Nat.add_0_r.
  - cbn [length]. replace (p + S (length s)) with (S p + length s) by lia.
    rewrite <- IH. reflexivity.
Qed.

End CharacterRuns.

(** ** ASCII white space and digits under any Unicode table *)

Section AsciiFacts.
Context {U : Unicode}.

Lemma ascii_space_facts c :
  ascii_space c = true ->
  is_ascii c = true /\ ascii_lower c = c /\ az c = false /\ chr_isspace c = true.
Proof.
  intros H.
  assert (Hc : (9 <= c <= 13 \/ 28 <= c <= 32)%N).
  { unfold ascii_space, in_range in H.
    apply orb_true_iff in H as [H | H]; apply andb_true_iff in H as [H1 H2];
      apply N.leb_le in H1, H2; lia. }
  assert (Ha : is_ascii c = true) by (apply N.ltb_lt; lia).
  split; [exact Ha|]. split; [|split].
  - unfold ascii_lower, AZ, in_range.
    destruct ((65 <=? c)%N && (c <=? 90)%N) eqn:E; [|reflexivity].
    apply andb_true_iff in E as [H1 H2]. apply N.leb_le in H1, H2. lia.
  - unfold az, in_range. apply andb_false_iff.
    destruct (97 <=? c)%N eqn:E; [apply N.leb_le in E; lia | now left].
  - now rewrite chr_isspace_ascii.
Qed.


End AsciiFacts.

Section Names.
Context {U : Unicode}.
Import constraint_satisfaction.

Lemma domain_pattern_groups p s st :
  match_at domain_pattern p s = Some st ->
  exists name tld, caps st = [name; tld] /\ name <> [] /\ forallb name_chr name = true.
Proof.
  unfold match_at. intros H.
  apply rmatch_allows in H as (st' & H & [= <-]).
  unfold domain_pattern, Seq, Plus, Star in H. cbn [fold_right allows] in H.
  destruct H as (m1 & (m0 & (n & Hn & Hname) & ->) & m2 & (c & s' & Hr & _ & ->) & H).
  destruct H as (m4 & (m3 & (n3 & _ & Htld) & ->) & m5 & (n5 & _ & Hsp) & m6 & (c6 & s6 & Hr6 & _ & ->) & ->).
  apply iter_chr in Hname as (w & Hl & Hw & Hrest & Hpos & Hcaps).
  apply iter_chr in Htld as (w3 & Hl3 & Hw3 & Hrest3 & Hpos3 & Hcaps3).
  apply iter_chr in Hsp as (w5 & Hl5 & Hw5 & Hrest5 & Hpos5 & Hcaps5).
  cbn [pos rest caps] in *.
  eexists _, _. split.
  - rewrite Hcaps5. cbn [caps]. rewrite Hcaps3. cbn [caps]. rewrite Hcaps. reflexivity.
  - rewrite Hpos, Hrest. replace (p + n - p) with (length w) by lia.
    rewrite firstn_app, Nat.sub_diag, firstn_all. simpl. rewrite app_nil_r.
    split; [|exact Hw]. destruct w; simpl in *; [lia | discriminate].
Qed.

Lemma parse_domains_names (response : list N) :
  Forall (fun d => fst d <> [] /\ forallb name_chr (fst d) = true)
         (premium_score.parse_domains response).
Proof.
  unfold premium_score.parse_domains. apply List.Forall_forall. intros d Hd.
  apply in_map_iff in Hd as (m & <- & Hm).
  apply finditer_from_In in Hm as (p & s & Hm).
  apply domain_pattern_groups in Hm as (name & tld & Hc & Hne & Hall).
  unfold group. rewrite Hc. simpl. auto.
Qed.

End Names.

(** ** Arithmetic of scores *)

Section Numbers.
Local Open Scope Q_scope.

Lemma Qltb_lt a b : Qltb a b = true <-> a < b.
Proof.
  unfold Qltb. rewrite negb_true_iff. split.
  - intros H. apply Qnot_le_lt. intros Hle. apply Qle_bool_iff in Hle. congruence.
  - intros H. destruct (Qle_bool b a) eqn:E; [|reflexivity].
    apply Qle_bool_iff in E. exfalso. apply (Qlt_not_le _ _ H E).
Qed.

Lemma Qltb_ge a b : Qltb a b = false <-> b <= a.
Proof.
  unfold Qltb. rewrite negb_false_iff. apply Qle_bool_iff.
Qed.

Lemma Qle_bool_false a b : Qle_bool a b = false <-> b < a.
Proof.
  split.
  - intros H. apply Qnot_le_lt. intros Hle. apply Qle_bool_iff in Hle. congruence.
  - intros H. destruct (Qle_bool a b) eqn:E; [|reflexivity].
    apply Qle_bool_iff in E. exfalso. apply (Qlt_not_le _ _ H E).
Qed.

Lemma of_nat_le n m : (n <= m)%nat -> of_nat n <= of_nat m.
Proof. intros H. unfold of_nat. rewrite <- Zle_Qle. lia. Qed.

Lemma of_nat_nonneg n : 0 <= of_nat n.
Proof. apply (of_nat_le 0). lia. Qed.

Lemma of_nat_pos n : (0 < n)%nat -> 0 < of_nat n.
Proof.
  intros H. unfold of_nat. change (inject_Z 0 < inject_Z (Z.of_nat n)).
  rewrite <- Zlt_Qlt. lia.
Qed.

Lemma unit_0 : unit_interval 0.
Proof. unfold unit_interval. lra. Qed.

Lemma unit_1 : unit_interval 1.
Proof. unfold unit_interval. lra. Qed.

Lemma Qmin_unit s : 0 <= s -> unit_interval (Qmin s 1).
Proof.
  intros H. unfold Qmin, unit_interval.
  destruct (Qle_bool s 1) eqn:E.
  - apply Qle_bool_iff in E. split; assumption.
  - lra.
Qed.

Lemma Qmin_unit_cap s cap : 0 <= s -> unit_interval cap -> unit_interval (Qmin s cap).
Proof.
  intros H [Hc0 Hc1]. unfold Qmin, unit_interval.
  destruct (Qle_bool s cap) eqn:E.
  - apply Qle_bool_iff in E. split; lra.
  - split; assumption.
Qed.

Lemma div_unit a b : 0 <= a -> a <= b -> 0 < b -> unit_interval (a / b).
Proof.
  intros Ha Hab Hb. unfold unit_interval. split.
  - apply Qle_shift_div_l; [exact Hb | lra].
  - apply Qle_shift_div_r; [exact Hb | lra].
Qed.

Lemma pydiv_Ok a b : ~ b == 0 -> pydiv a b = Ok (a / b).
Proof.
  intros H. unfold pydiv. destruct (Qeq_bool b 0) eqn:E; [|reflexivity].
  apply Qeq_bool_iff in E. contradiction.
Qed.

Lemma pydiv_unit a b :
  0 <= a -> a <= b -> 0 < b -> pydiv a b = Ok (a / b) /\ unit_interval (a / b).
Proof.
  intros Ha Hab Hb. split; [|now apply div_unit].
  apply pydiv_Ok. lra.
Qed.

Lemma pydiv_nat_unit n m :
  (n <= m)%nat -> (0 < m)%nat ->
  pydiv (of_nat n) (of_nat m) = Ok (of_nat n / of_nat m) /\ unit_interval (of_nat n / of_nat m).
Proof.
  intros Hnm Hm. apply pydiv_unit; [apply of_nat_nonneg | now apply of_nat_le | now apply of_nat_pos].
Qed.

Lemma round_half_even_lower (a : Z) x : inject_Z a <= x -> (a <= round_half_even x)%Z.
Proof.
  intros H. apply Qfloor_resp_le in H. rewrite Qfloor_Z in H.
  unfold round_half_even. destruct (x - inject_Z (Qfloor x) ?= 1 # 2); [destruct (Z.even _)| |]; lia.
Qed.

Lemma round_half_even_upper (b : Z) x : x <= inject_Z b -> (round_half_even x <= b)%Z.
Proof.
  intros H. pose proof (Qfloor_le x) as Hf.
  assert (Hfb : (Qfloor x <= b)%Z) by (rewrite Zle_Qle; lra).
  assert (Hstep : 0 < x - inject_Z (Qfloor x) -> (Qfloor x + 1 <= b)%Z).
  { intros Hpos. assert (Hlt : (Qfloor x < b)%Z) by (rewrite Zlt_Qlt; lra). lia. }
  unfold round_half_even.
  destruct (x - inject_Z (Qfloor x) ?= 1 # 2) eqn:E.
  - apply Qeq_alt in E. destruct (Z.even _); [exact Hfb|]. apply Hstep. lra.
  - exact Hfb.
  - apply Qgt_alt in E. apply Hstep. lra.
Qed.

Lemma round3_unit q : unit_interval q -> unit_interval (round3 q).
Proof.
  intros [H0 H1]. unfold round3.
  assert (Hl : (0 <= round_half_even (q * 1000))%Z).
  { apply round_half_even_lower. change (inject_Z 0) with 0. lra. }
  assert (Hu : (round_half_even (q * 1000) <= 1000)%Z).
  { apply round_half_even_upper. change (inject_Z 1000) with 1000. lra. }
  apply div_unit.
  - change (inject_Z 0 <= inject_Z (round_half_even (q * 1000))). now rewrite <- Zle_Qle.
  - change (inject_Z (round_half_even (q * 1000)) <= inject_Z 1000). now rewrite <- Zle_Qle.
  - lra.
Qed.





Lemma count_if_le {A} (p : A -> bool) l : (count_if p l <= length l)%nat.
Proof. unfold count_if. apply List.filter_length_le. Qed.

Lemma distinct_le {A} `{Countable A} (l : list A) : (distinct l <= length l)%nat.
Proof.
  unfold distinct. induction l as [|x l IH]; cbn [length].
  - rewrite list_to_set_nil, size_empty. lia.
  - rewrite list_to_set_cons, size_union_alt, size_singleton.
    assert (size (list_to_set l ∖ {[x]} : gset A) <= size (list_to_set l : gset A))%nat.
    { apply subseteq_size. intros y Hy. apply elem_of_difference in Hy. tauto. }
    lia.
Qed.

Lemma qsum_acc {A} (f : A -> Q) l : forall a,
  fold_left (fun acc x => acc + f x) l a == a + qsum f l.
Proof.
  unfold qsum. induction l as [|x l IH]; intros a; simpl.
  - lra.
  - rewrite IH, (IH (0 + f x)). lra.
Qed.

Lemma qsum_cons {A} (f : A -> Q) x l : qsum f (x :: l) == f x + qsum f l.
Proof. unfold qsum at 1. simpl. rewrite qsum_acc. lra. Qed.

Lemma qsum_unit {A} (f : A -> Q) l :
  List.Forall (fun x => unit_interval (f x)) l ->
  0 <= qsum f l /\ qsum f l <= of_nat (length l).
Proof.
  induction 1 as [|x l [Hx0 Hx1] _ [IH0 IH1]].
  - unfold qsum, of_nat. simpl. split; apply Qle_refl.
  - rewrite qsum_cons. simpl length. unfold of_nat in *.
    rewrite Nat2Z.inj_succ, <- Z.add_1_r, inject_Z_plus. change (inject_Z 1) with 1.
    split; lra.
Qed.

End Numbers.

(** ** The count score *)

Section Bind.

Lemma bind_Ok {A B} (x : res A) (f : A -> res B) b :
  bind x f = Ok b -> exists a, x = Ok a /\ f a = Ok b.
Proof. destruct x; simpl; [eauto | discriminate]. Qed.

End Bind.

Section CountScore.
Import constraint_satisfaction.
Local Open Scope Q_scope.

Lemma count_score_in_band ratio :
  0.8 <= ratio -> ratio <= 1.2 -> count_score ratio = Ok 1.
Proof.
  intros H1 H2. unfold count_score.
  apply Qle_bool_iff in H1. apply Qle_bool_iff in H2. now rewrite H1, H2.
Qed.

Lemma count_score_below ratio :
  ratio < 0.8 -> count_score ratio = Ok (ratio / 0.8).
Proof.
  intros H. unfold count_score.
  apply Qle_bool_false in H as H'. rewrite H'. simpl.
  apply Qltb_lt in H. rewrite H. apply pydiv_Ok. lra.
Qed.

Lemma count_score_above ratio :
  1.2 < ratio -> count_score ratio = Ok (1.2 / ratio).
Proof.
  intros H. unfold count_score.
  apply Qle_bool_false in H as H'. rewrite H', andb_false_r.
  assert (Hge : Qltb ratio 0.8 = false) by (apply Qltb_ge; lra).
  rewrite Hge. apply pydiv_Ok. lra.
Qed.

Lemma below_lt_1 ratio : ratio < 0.8 -> ratio / 0.8 < 1.
Proof. intros H. apply Qlt_shift_div_r; lra. Qed.

Lemma above_lt_1 ratio : 1.2 < ratio -> 1.2 / ratio < 1.
Proof. intros H. apply Qlt_shift_div_r; lra. Qed.

Lemma above_pos ratio : 1.2 < ratio -> 0 < 1.2 / ratio.
Proof. intros H. apply Qlt_shift_div_l; lra. Qed.

Lemma count_score_cases ratio :
  (0.8 <= ratio /\ ratio <= 1.2 /\ count_score ratio = Ok 1) \/
  (ratio < 0.8 /\ count_score ratio = Ok (ratio / 0.8)) \/
  (1.2 < ratio /\ count_score ratio = Ok (1.2 / ratio)).
Proof.
  destruct (Qlt_le_dec ratio 0.8) as [Hlo | Hlo].
  - right. left. split; [exact Hlo | now apply count_score_below].
  - destruct (Qlt_le_dec 1.2 ratio) as [Hhi | Hhi].
    + right. right. split; [exact Hhi | now apply count_score_above].
    + left. repeat split; try assumption. now apply count_score_in_band.
Qed.

Lemma count_score_spec ratio :
  exists s, count_score ratio = Ok s /\ s <= 1 /\
            (s == 1 <-> 0.8 <= ratio /\ ratio <= 1.2) /\
            (ratio < 0.8 -> s == ratio / 0.8) /\
            (1.2 < ratio -> s == 1.2 / ratio) /\
            (0 < ratio -> 0 < s).
Proof.
  destruct (count_score_cases ratio) as [(H1 & H2 & ->) | [(H & ->) | (H & ->)]];
    eexists; (split; [reflexivity|]).
  - split; [lra|]. split; [|split; [|split]].
    + split; [intros _; split; assumption | intros _; reflexivity].
    + intros ?; lra.
    + intros ?; lra.
    + intros _; lra.
  - pose proof (below_lt_1 _ H). split; [lra|]. split; [|split; [|split]].
    + split; [intros ?; lra | intros [? ?]; lra].
    + intros _. reflexivity.
    + intros ?; lra.
    + intros Hp. apply Qlt_shift_div_l; lra.
  - pose proof (above_lt_1 _ H). pose proof (above_pos _ H).
    split; [lra|]. split; [|split; [|split]].
    + split; [intros ?; lra | intros [? ?]; lra].
    + intros ?; lra.
    + intros _. reflexivity.
    + intros _. assumption.
Qed.


End CountScore.

(** ** Bounds of the constraint scorer *)

Section Constraint.
Import constraint_satisfaction.
Local Open Scope Q_scope.

Lemma ps_credit_le prefix suffix name : (ps_credit prefix suffix name <= 1)%nat.
Proof.
  unfold ps_credit.
  repeat match goal with |- context [if ?b then _ else _] => destruct b end; lia.
Qed.

Lemma ps_ok_acc prefix suffix domains : forall acc,
  fold_left (fun acc d => (acc + ps_credit prefix suffix (fst d))%nat) domains acc
  = (acc + ps_ok prefix suffix domains)%nat.
Proof.
  unfold ps_ok. induction domains as [|d ds IH]; intros acc; simpl.
  - lia.
  - rewrite IH, (IH (ps_credit _ _ _)). lia.
Qed.

Lemma ps_ok_cons prefix suffix d ds :
  ps_ok prefix suffix (d :: ds)
  = (ps_credit prefix suffix (fst d) + ps_ok prefix suffix ds)%nat.
Proof. unfold ps_ok at 1. simpl. apply ps_ok_acc. Qed.

Lemma ps_ok_le prefix suffix domains :
  (ps_ok prefix suffix domains <= length domains)%nat.
Proof.
  induction domains as [|d ds IH]; [unfold ps_ok; simpl; lia|].
  rewrite ps_ok_cons. pose proof (ps_credit_le prefix suffix (fst d)). simpl. lia.
Qed.

Context {U : Unicode}.

Lemma int_cases (s : list N) :
  (within_int_limit s /\ int s = Ok (digits_value s)) \/
  (~ within_int_limit s /\ int s = Raise ValueError).
Proof.
  unfold int, within_int_limit.
  destruct (int_max_str_digits <? N.of_nat (length s))%N eqn:E.
  - apply N.ltb_lt in E. right. split; [lia | reflexivity].
  - apply N.ltb_ge in E. left. split; [exact E | reflexivity].
Qed.

Lemma group_within_limit (r : re) (s : list N) (m : mstate) (i : nat) :
  within_int_limit s -> search r s = Some m -> within_int_limit (group i m).
Proof.
  unfold within_int_limit. intros Hs Hm.
  pose proof (group_bounded r s m i Hm). lia.
Qed.

Lemma extract_length_cases (prompt : list N) :
  (exists lc, extract_length_constraint prompt = Ok lc) \/
  extract_length_constraint prompt = Raise ValueError.
Proof.
  unfold extract_length_constraint.
  destruct (search length_pattern (str_lower prompt)) as [m|]; [|left; eauto].
  destruct (int_cases (group 1 m)) as [[_ ->] | [_ ->]]; [|now right].
  destruct (int_cases (group 2 m)) as [[_ ->] | [_ ->]]; [left; simpl; eauto | now right].
Qed.

Lemma extract_count_cases (prompt : list N) :
  (exists cc, extract_count_constraint prompt = Ok cc) \/
  extract_count_constraint prompt = Raise ValueError.
Proof.
  unfold extract_count_constraint.
  destruct (search count_pattern (str_lower prompt)) as [m|]; [|left; eauto].
  destruct (int_cases (group 1 m)) as [[_ ->] | [_ ->]]; [left; simpl; eauto | now right].
Qed.

(** A prompt of at most 4300 characters (lower-cased) holds no number that
    [int] refuses. *)
Lemma short_prompt_extracts (prompt : list N) :
  within_int_limit (str_lower prompt) ->
  (exists lc, extract_length_constraint prompt = Ok lc) /\
  (exists cc, extract_count_constraint prompt = Ok cc).
Proof.
  intros Hs. split.
  - unfold extract_length_constraint.
    destruct (search length_pattern (str_lower prompt)) as [m|] eqn:E; [|eauto].
    destruct (int_cases (group 1 m)) as [[_ ->] | [Hn _]];
      [|exfalso; apply Hn; now apply (group_within_limit _ _ _ _ Hs E)].
    destruct (int_cases (group 2 m)) as [[_ ->] | [Hn _]];
      [simpl; eauto | exfalso; apply Hn; now apply (group_within_limit _ _ _ _ Hs E)].
  - unfold extract_count_constraint.
    destruct (search count_pattern (str_lower prompt)) as [m|] eqn:E; [|eauto].
    destruct (int_cases (group 1 m)) as [[_ ->] | [Hn _]];
      [simpl; eauto | exfalso; apply Hn; now apply (group_within_limit _ _ _ _ Hs E)].
Qed.

(** The count score of [check_constraints] for a target that was read. *)
Lemma count_satisfied_unit (n : nat) (cc : option N) :
  (0 < n)%nat ->
  exists v, match cc with
            | Some count_constraint =>
                if (count_constraint =? 0)%N then Ok 1
                else bind (pydiv (of_nat n) (inject_Z (Z.of_N count_constraint)))
                          (fun ratio => count_score ratio)
            | None => Ok 1
            end = Ok v /\ unit_interval v.
Proof.
  intros Hn. destruct cc as [c|]; [|exists 1; split; [reflexivity | apply unit_1]].
  destruct (c =? 0)%N eqn:E; [exists 1; split; [reflexivity | apply unit_1]|].
  apply N.eqb_neq in E.
  assert (Hc : 0 < inject_Z (Z.of_N c)).
  { change (inject_Z 0 < inject_Z (Z.of_N c)). rewrite <- Zlt_Qlt. lia. }
  rewrite pydiv_Ok by lra. cbn [bind].
  assert (Hr : 0 < of_nat n / inject_Z (Z.of_N c)).
  { apply Qlt_shift_div_l; [exact Hc|]. pose proof (of_nat_pos _ Hn). lra. }
  destruct (count_score_spec (of_nat n / inject_Z (Z.of_N c)))
    as (s & -> & Hle & _ & _ & _ & Hpos).
  exists s. split; [reflexivity|]. specialize (Hpos Hr). unfold unit_interval. lra.
Qed.

(** The local variables of [check_constraints]: in [[0, 1]] when both
    numbers of the prompt can be read, and [ValueError] otherwise. *)
Lemma constraint_locals_cases (prompt : list N) (d : list N * list N)
    (ds : list (list N * list N)) :
  (exists lc cc raw,
     extract_length_constraint prompt = Ok lc /\
     extract_count_constraint prompt = Ok cc /\
     constraint_locals prompt (d :: ds) = Ok raw /\ constraint_in_unit raw) \/
  ((extract_length_constraint prompt = Raise ValueError \/
    extract_count_constraint prompt = Raise ValueError) /\
   constraint_locals prompt (d :: ds) = Raise ValueError).
Proof.
  unfold constraint_locals.
  set (domains := d :: ds).
  assert (Hn : (0 < length domains)%nat) by (simpl; lia).
  destruct (extract_length_cases prompt) as [(lc & El) | El];
    [|right; rewrite El; split; [now left | reflexivity]].
  rewrite El. cbn [bind].
  assert (H1 : exists v, match lc with
      | Some (min_len, max_len) =>
          pydiv (of_nat (count_if (fun d => (min_len <=? N.of_nat (length (fst d)))%N
                                 && (N.of_nat (length (fst d)) <=? max_len)%N) domains))
                (of_nat (length domains))
      | None => Ok 1 end = Ok v /\ unit_interval v).
  { destruct lc as [[mn mx]|].
    - eexists. apply pydiv_nat_unit; [apply count_if_le | exact Hn].
    - exists 1. split; [reflexivity | apply unit_1]. }
  destruct H1 as (v1 & -> & Hv1). cbn [bind].
  assert (H2 : exists v, match extract_tld_constraint prompt with
      | Some (t :: ts) =>
          pydiv (of_nat (count_if (fun d => bool_decide (snd d ∈ t :: ts)) domains))
                (of_nat (length domains))
      | _ => Ok 1 end = Ok v /\ unit_interval v).
  { destruct (extract_tld_constraint prompt) as [[|t ts]|].
    - exists 1. split; [reflexivity | apply unit_1].
    - eexists. apply pydiv_nat_unit; [apply count_if_le | exact Hn].
    - exists 1. split; [reflexivity | apply unit_1]. }
  destruct H2 as (v2 & -> & Hv2). cbn [bind].
  destruct (extract_prefix_suffix_constraint prompt) as [prefix suffix].
  assert (H3 : exists v,
      (if truthy prefix || truthy suffix
       then if truthy prefix || truthy suffix
            then pydiv (of_nat (ps_ok prefix suffix domains)) (of_nat (length domains))
            else Ok 1
       else Ok 1) = Ok v /\ unit_interval v).
  { destruct (truthy prefix || truthy suffix).
    - eexists. apply pydiv_nat_unit; [apply ps_ok_le | exact Hn].
    - exists 1. split; [reflexivity | apply unit_1]. }
  destruct H3 as (v3 & -> & Hv3). cbn [bind].
  destruct (extract_count_cases prompt) as [(cc & Ec) | Ec];
    [|right; rewrite Ec; split; [now right | reflexivity]].
  rewrite Ec. cbn [bind].
  destruct (count_satisfied_unit (length domains) cc Hn) as (v4 & -> & Hv4). cbn [bind].
  left. exists lc, cc. eexists. split; [reflexivity|]. split; [reflexivity|].
  split; [reflexivity|].
  unfold constraint_in_unit, unit_interval in *. cbn.
  destruct Hv1, Hv2, Hv3, Hv4.
  repeat split; try assumption.
  - apply Qle_shift_div_l; lra.
  - apply Qle_shift_div_r; lra.
Qed.

Lemma constraint_round_unit r : constraint_in_unit r -> constraint_in_unit (round_result r).
Proof.
  unfold constraint_in_unit, round_result. cbn.
  intros (H1 & H2 & H3 & H4 & H5). repeat split; now apply round3_unit.
Qed.

(** [check_constraints] returns a result in [[0, 1]], or raises
    [ValueError]; it raises exactly when a domain was found and one of the
    numbers of the prompt cannot be read. *)
Lemma check_constraints_cases (prompt response : list N) :
  (exists r, check_constraints prompt response = Ok r /\ constraint_in_unit r /\
             (parse_domains_from_response response = [] \/
              ((exists lc, extract_length_constraint prompt = Ok lc) /\
               (exists cc, extract_count_constraint prompt = Ok cc)))) \/
  (check_constraints prompt response = Raise ValueError /\
   parse_domains_from_response response <> [] /\
   (extract_length_constraint prompt = Raise ValueError \/
    extract_count_constraint prompt = Raise ValueError)).
Proof.
  unfold check_constraints.
  destruct (parse_domains_from_response response) as [|d ds].
  - left. eexists. split; [reflexivity|]. split; [|now left].
    unfold constraint_in_unit. cbn. repeat split; apply unit_0.
  - destruct (constraint_locals_cases prompt d ds)
      as [(lc & cc & raw & El & Ec & -> & Hraw) | [Hr ->]].
    + left. cbn [bind]. eexists. split; [reflexivity|].
      split; [now apply constraint_round_unit | right; eauto].
    + right. split; [reflexivity|]. split; [discriminate | exact Hr].
Qed.

Lemma check_constraints_unit (prompt response : list N) r :
  check_constraints prompt response = Ok r -> constraint_in_unit r.
Proof.
  intros H. destruct (check_constraints_cases prompt response)
    as [(r' & E & Hr & _) | (E & _)]; rewrite E in H; [|discriminate].
  now injection H as <-.
Qed.

Lemma check_constraints_short (prompt response : list N) :
  within_int_limit (str_lower prompt) ->
  exists r, check_constraints prompt response = Ok r /\ constraint_in_unit r.
Proof.
  intros Hs. destruct (short_prompt_extracts prompt Hs) as [(lc & El) (cc & Ec)].
  destruct (check_constraints_cases prompt response)
    as [(r & E & Hr & _) | (_ & _ & [H | H])]; [eauto | congruence | congruence].
Qed.

End Constraint.

(** ** Bounds of the diversity scorer, and means *)

Section Diversity.
Import diversity_metrics.
Local Open Scope Q_scope.

Lemma ratio_or_default {A} `{Countable A} (l : list A) (d : Q) :
  unit_interval d ->
  exists v, match l with
            | [] => Ok d
            | _ :: _ => pydiv (of_nat (distinct l)) (of_nat (length l))
            end = Ok v /\ unit_interval v.
Proof.
  intros Hd. destruct l as [|x l]; [eauto|].
  eexists. apply pydiv_nat_unit; [apply distinct_le | simpl; lia].
Qed.

Lemma calculate_ttr_unit names :
  exists v, calculate_ttr names = Ok v /\ unit_interval v.
Proof.
  unfold calculate_ttr. destruct names as [|n ns]; [exists 0; split; [reflexivity | apply unit_0]|].
  apply ratio_or_default, unit_1.
Qed.

Lemma calculate_duplicate_rate_unit names :
  exists v, calculate_duplicate_rate names = Ok v /\ unit_interval v.
Proof.
  unfold calculate_duplicate_rate.
  destruct names as [|n ns]; [exists 0; split; [reflexivity | apply unit_0]|].
  set (names := n :: ns).
  pose proof (distinct_le names) as Hle. apply of_nat_le in Hle.
  pose proof (of_nat_nonneg (distinct names)).
  assert (0 < of_nat (length names)) by (apply of_nat_pos; simpl; lia).
  eexists. apply pydiv_unit; lra.
Qed.

Lemma calculate_char_diversity_unit names :
  exists v, calculate_char_diversity names = Ok v /\ unit_interval v.
Proof.
  unfold calculate_char_diversity.
  destruct names as [|n ns]; [exists 0; split; [reflexivity | apply unit_0]|].
  destruct (concat (n :: ns)) as [|c cs]; [exists 0; split; [reflexivity | apply unit_0]|].
  eexists. split; [reflexivity|]. apply Qmin_unit.
  apply Qle_shift_div_l; [reflexivity|]. pose proof (of_nat_nonneg (distinct (c :: cs))). lra.
Qed.

Lemma calculate_prefix_diversity_unit names k :
  exists v, calculate_prefix_diversity names k = Ok v /\ unit_interval v.
Proof.
  unfold calculate_prefix_diversity.
  destruct names as [|n ns]; [exists 0; split; [reflexivity | apply unit_0]|].
  apply ratio_or_default, unit_0.
Qed.

Lemma calculate_suffix_diversity_unit names k :
  exists v, calculate_suffix_diversity names k = Ok v /\ unit_interval v.
Proof.
  unfold calculate_suffix_diversity.
  destruct names as [|n ns]; [exists 0; split; [reflexivity | apply unit_0]|].
  apply ratio_or_default, unit_0.
Qed.

Lemma diversity_locals_unit names :
  exists raw, diversity_locals names = Ok raw /\ diversity_in_unit raw.
Proof.
  unfold diversity_locals.
  destruct (calculate_ttr_unit names) as (v1 & -> & [? ?]).
  destruct (calculate_duplicate_rate_unit names) as (v2 & -> & [? ?]).
  destruct (calculate_char_diversity_unit names) as (v3 & -> & [? ?]).
  destruct (calculate_prefix_diversity_unit names 2) as (v4 & -> & [? ?]).
  destruct (calculate_suffix_diversity_unit names 2) as (v5 & -> & [? ?]).
  cbn [bind]. eexists. split; [reflexivity|].
  unfold diversity_in_unit, unit_interval. cbn.
  repeat split; try assumption.
  - apply Qle_shift_div_l; lra.
  - apply Qle_shift_div_r; lra.
Qed.

Lemma diversity_round_unit r : diversity_in_unit r -> diversity_in_unit (round_result r).
Proof.
  unfold diversity_in_unit, round_result. cbn.
  intros (H1 & H2 & H3 & H4 & H5 & H6). repeat split; now apply round3_unit.
Qed.

Lemma check_diversity_unit {U : Unicode} response :
  exists r, check_diversity response = Ok r /\ diversity_in_unit r.
Proof.
  unfold check_diversity.
  destruct (parse_domain_names response) as [|n ns].
  - eexists. split; [reflexivity|]. unfold diversity_in_unit. cbn.
    repeat split; first [apply unit_0 | apply unit_1].
  - destruct (diversity_locals_unit (n :: ns)) as (raw & -> & Hraw). cbn [bind].
    eexists. split; [reflexivity|]. now apply diversity_round_unit.
Qed.

End Diversity.

Section Means.
Import pronounceability.
Local Open Scope Q_scope.

Lemma mapM_Ok {A B} (f : A -> res B) (P : B -> Prop) l :
  List.Forall (fun x => exists y, f x = Ok y /\ P y) l ->
  exists ys, mapM f l = Ok ys /\ List.Forall P ys /\ length ys = length l.
Proof.
  induction 1 as [|x l (y & Hy & HP) _ (ys & Hys & HPs & Hlen)]; simpl.
  - exists []. repeat split; constructor.
  - rewrite Hy, Hys. cbn [bind]. exists (y :: ys). repeat split; [now constructor | simpl; lia].
Qed.

Lemma mean_unit {A} (f : A -> Q) results :
  results <> [] ->
  List.Forall (fun r => unit_interval (f r)) results ->
  exists m, mean f results (of_nat (length results)) = Ok m /\ unit_interval m.
Proof.
  intros Hne H. apply qsum_unit in H as [H0 H1].
  unfold mean. eexists. apply pydiv_unit; [exact H0 | exact H1|].
  apply of_nat_pos. destruct results; [contradiction | simpl; lia].
Qed.

End Means.

(** ** Bounds of the pronounceability scorer *)

Ltac unit_const := unfold unit_interval; split; lra.

Section Pronounce.
Import pronounceability.
Local Open Scope Q_scope.
Context {U : Unicode}.

Lemma calculate_vowel_ratio_unit name :
  exists v, calculate_vowel_ratio name = Ok v /\ unit_interval v.
Proof.
  unfold calculate_vowel_ratio.
  destruct (List.filter chr_isalpha (str_lower name)) as [|c cs];
    [exists 0; split; [reflexivity | apply unit_0]|].
  rewrite pydiv_Ok.
  2:{ assert (0 < of_nat (length (c :: cs))) by (apply of_nat_pos; simpl; lia). lra. }
  cbn [bind].
  repeat match goal with |- context [if ?b then _ else _] => destruct b end;
    eexists; (split; [reflexivity | unit_const]).
Qed.

Lemma calculate_consonant_cluster_score_unit name :
  unit_interval (calculate_consonant_cluster_score name).
Proof.
  unfold calculate_consonant_cluster_score.
  destruct (fold_left _ BAD_PATTERNS 0%nat) as [|[|[|n]]]; unit_const.
Qed.

Lemma calculate_pattern_score_unit name : unit_interval (calculate_pattern_score name).
Proof.
  unfold calculate_pattern_score. apply Qmin_unit.
  apply Qle_shift_div_l; [reflexivity|].
  match goal with |- _ <= of_nat ?n => pose proof (of_nat_nonneg n) end. lra.
Qed.

Lemma calculate_length_score_unit name : unit_interval (calculate_length_score name).
Proof.
  unfold calculate_length_score.
  repeat match goal with |- context [if ?b then _ else _] => destruct b end; unit_const.
Qed.

Lemma pronounceability_locals_unit name alpha_name :
  exists raw, pronounceability_locals name alpha_name = Ok raw /\ pronounceability_in_unit raw.
Proof.
  unfold pronounceability_locals.
  destruct (calculate_vowel_ratio_unit alpha_name) as (v & -> & [? ?]). cbn [bind].
  destruct (calculate_consonant_cluster_score_unit alpha_name).
  destruct (calculate_pattern_score_unit alpha_name).
  destruct (calculate_length_score_unit name).
  eexists. split; [reflexivity|].
  unfold pronounceability_in_unit, unit_interval. cbn.
  repeat split; try assumption; lra.
Qed.

Lemma pronounceability_round_unit r :
  pronounceability_in_unit r -> pronounceability_in_unit (round_result r).
Proof.
  unfold pronounceability_in_unit, round_result. cbn.
  intros (H1 & H2 & H3 & H4 & H5). repeat split; now apply round3_unit.
Qed.

Lemma check_pronounceability_unit name :
  exists r, check_pronounceability name = Ok r /\ pronounceability_in_unit r.
Proof.
  unfold check_pronounceability.
  destruct (List.filter az (str_lower name)) as [|c cs].
  - eexists. split; [reflexivity|]. unfold pronounceability_in_unit. cbn.
    repeat split; apply unit_0.
  - destruct (pronounceability_locals_unit name (c :: cs)) as (raw & -> & Hraw). cbn [bind].
    eexists. split; [reflexivity|]. now apply pronounceability_round_unit.
Qed.

Lemma pronounceability_means_unit results :
  results <> [] ->
  List.Forall pronounceability_in_unit results ->
  exists means, response_means results = Ok means /\ pronounceability_in_unit means.
Proof.
  intros Hne H. unfold response_means.
  assert (Hf : forall f : PronounceabilityResult -> Q,
             (forall r, pronounceability_in_unit r -> unit_interval (f r)) ->
             exists m, mean f results (of_nat (length results)) = Ok m /\ unit_interval m).
  { intros f Hfu. apply mean_unit; [exact Hne|].
    eapply List.Forall_impl; [|exact H]. exact Hfu. }
  destruct (Hf vowel_ratio) as (a & -> & Ha); [intros r Hr; apply Hr|].
  destruct (Hf consonant_cluster_score) as (b & -> & Hb); [intros r Hr; apply Hr|].
  destruct (Hf pattern_score) as (c & -> & Hc); [intros r Hr; apply Hr|].
  destruct (Hf length_score) as (d & -> & Hd); [intros r Hr; apply Hr|].
  destruct (Hf overall) as (e & -> & He); [intros r Hr; apply Hr|].
  cbn [bind]. eexists. split; [reflexivity|]. unfold pronounceability_in_unit. cbn. auto.
Qed.

Lemma pronounceability_results names :
  exists results,
    mapM check_pronounceability names = Ok results /\
    List.Forall pronounceability_in_unit results /\ length results = length names.
Proof.
  apply mapM_Ok. apply List.Forall_forall. intros name _. apply check_pronounceability_unit.
Qed.

Lemma check_pronounceability_response_unit response :
  exists r, check_pronounceability_response response = Ok r /\ pronounceability_in_unit r.
Proof.
  unfold check_pronounceability_response.
  destruct (parse_domain_names response) as [|n ns].
  - eexists. split; [reflexivity|]. unfold pronounceability_in_unit. cbn.
    repeat split; apply unit_0.
  - destruct (pronounceability_results (n :: ns)) as (results & -> & Hall & Hlen). cbn [bind].
    destruct (pronounceability_means_unit results) as (means & -> & Hm); [|exact Hall|].
    { destruct results; [discriminate | congruence]. }
    cbn [bind]. eexists. split; [reflexivity|]. now apply pronounceability_round_unit.
Qed.

End Pronounce.

(** ** Bounds of the premium scorer *)

Section Premium.
Import premium_score.
Import constraint_satisfaction(name_chr).
Local Open Scope Q_scope.
Context {U : Unicode}.

Lemma name_chr_ascii c : name_chr c = true -> is_ascii c = true /\ ascii_lower c = c.
Proof.
  unfold name_chr, is_ascii, ascii_lower, az, AZ, d09, chr_is, in_range.
  intros H.
  assert (Hc : (97 <= c <= 122 \/ 48 <= c <= 57 \/ c = 45)%N).
  { apply orb_true_iff in H as [H | H]; [apply orb_true_iff in H as [H | H]|].
    - apply andb_true_iff in H as [H1 H2]. apply N.leb_le in H1, H2. lia.
    - apply andb_true_iff in H as [H1 H2]. apply N.leb_le in H1, H2. lia.
    - apply N.eqb_eq in H. lia. }
  split.
  - apply N.ltb_lt. lia.
  - destruct ((65 <=? c)%N && (c <=? 90)%N) eqn:E; [|reflexivity].
    apply andb_true_iff in E as [H1 H2]. apply N.leb_le in H1, H2. lia.
Qed.

Lemma str_lower_name name : forallb name_chr name = true -> str_lower name = name.
Proof.
  intros H. rewrite str_lower_ascii.
  - induction name as [|c cs IH]; [reflexivity|]. simpl in *.
    apply andb_true_iff in H as [Hc Hcs].
    destruct (name_chr_ascii c Hc) as [_ ->]. now rewrite IH.
  - induction name as [|c cs IH]; [reflexivity|]. simpl in *.
    apply andb_true_iff in H as [Hc Hcs].
    destruct (name_chr_ascii c Hc) as [-> _]. now rewrite IH.
Qed.

Lemma premium_length_score_unit name : unit_interval (calculate_length_score name).
Proof.
  unfold calculate_length_score.
  repeat match goal with |- context [if ?b then _ else _] => destruct b end; unit_const.
Qed.

Lemma calculate_word_score_unit name : unit_interval (calculate_word_score name).
Proof.
  unfold calculate_word_score. apply Qmin_unit_cap; [|unit_const].
  repeat match goal with |- context [if ?b then _ else _] => destruct b end; lra.
Qed.

Lemma TLD_VALUES_unit : List.Forall (fun kv => unit_interval (snd kv)) TLD_VALUES.
Proof. unfold TLD_VALUES. repeat constructor; simpl; lra. Qed.

Lemma calculate_tld_score_unit tld : unit_interval (calculate_tld_score tld).
Proof.
  unfold calculate_tld_score.
  destruct (list_to_map TLD_VALUES !! str_lower tld) as [v|] eqn:E; simpl.
  - apply elem_of_list_to_map_2 in E. apply list_elem_of_In in E.
    pose proof TLD_VALUES_unit as H. rewrite List.Forall_forall in H.
    exact (H _ E).
  - unit_const.
Qed.

Lemma premium_pattern_score_unit name :
  str_lower name <> [] ->
  exists v, calculate_pattern_score name = Ok v /\ unit_interval v.
Proof.
  intros Hne. unfold calculate_pattern_score.
  destruct (str_lower name) as [|c cs] eqn:E; [contradiction|]. cbn [bind].
  eexists. split; [reflexivity|]. apply Qmin_unit_cap; [|unit_const].
  repeat match goal with |- context [if ?b then _ else _] => destruct b end; lra.
Qed.

Lemma calculate_memorability_score_unit name :
  str_lower name <> [] ->
  exists v, calculate_memorability_score name = Ok v /\ unit_interval v.
Proof.
  intros Hne. unfold calculate_memorability_score.
  edestruct (pydiv_nat_unit (count_if (one_of (lit "abcdefghijklmnoprstuvwy")) (str_lower name))
               (length (str_lower name))) as [-> [He0 He1]];
    [apply count_if_le | destruct (str_lower name); [contradiction | simpl; lia] |].
  cbn [bind]. eexists. split; [reflexivity|]. apply Qmin_unit_cap; [|unit_const].
  repeat match goal with |- context [if ?b then _ else _] => destruct b end; lra.
Qed.

Lemma premium_locals_unit name tld :
  str_lower name <> [] ->
  exists raw, premium_locals name tld = Ok raw /\ premium_in_unit raw.
Proof.
  intros Hne. unfold premium_locals.
  destruct (premium_pattern_score_unit name Hne) as (p & -> & [? ?]).
  destruct (calculate_memorability_score_unit name Hne) as (m & -> & [? ?]).
  cbn [bind].
  destruct (premium_length_score_unit name).
  destruct (calculate_word_score_unit name).
  destruct (calculate_tld_score_unit tld).
  eexists. split; [reflexivity|].
  unfold premium_in_unit, unit_interval. cbn.
  repeat split; try assumption; lra.
Qed.

Lemma premium_round_unit r : premium_in_unit r -> premium_in_unit (round_result r).
Proof.
  unfold premium_in_unit, round_result. cbn.
  intros (H1 & H2 & H3 & H4 & H5 & H6). repeat split; now apply round3_unit.
Qed.

Lemma check_premium_unit name tld :
  str_lower name <> [] ->
  exists r, check_premium name tld = Ok r /\ premium_in_unit r.
Proof.
  intros Hne. unfold check_premium.
  destruct (premium_locals_unit name tld Hne) as (raw & -> & Hraw). cbn [bind].
  eexists. split; [reflexivity|]. now apply premium_round_unit.
Qed.

Lemma premium_means_unit results :
  results <> [] ->
  List.Forall premium_in_unit results ->
  exists means, response_means results = Ok means /\ premium_in_unit means.
Proof.
  intros Hne H. unfold response_means.
  assert (Hf : forall f : PremiumResult -> Q,
             (forall r, premium_in_unit r -> unit_interval (f r)) ->
             exists m, pronounceability.mean f results (of_nat (length results)) = Ok m
                       /\ unit_interval m).
  { intros f Hfu. apply mean_unit; [exact Hne|].
    eapply List.Forall_impl; [|exact H]. exact Hfu. }
  destruct (Hf length_score) as (a & -> & Ha); [intros r Hr; apply Hr|].
  destruct (Hf word_score) as (b & -> & Hb); [intros r Hr; apply Hr|].
  destruct (Hf tld_score) as (c & -> & Hc); [intros r Hr; apply Hr|].
  destruct (Hf pattern_score) as (d & -> & Hd); [intros r Hr; apply Hr|].
  destruct (Hf memorability_score) as (e & -> & He); [intros r Hr; apply Hr|].
  destruct (Hf overall) as (f & -> & Hf'); [intros r Hr; apply Hr|].
  cbn [bind]. eexists. split; [reflexivity|]. unfold premium_in_unit. cbn. auto 10.
Qed.

Lemma parsed_name_lower (response : list N) d :
  In d (parse_domains response) -> str_lower (fst d) <> [].
Proof.
  intros Hd. pose proof (parse_domains_names response) as H.
  rewrite List.Forall_forall in H. destruct (H d Hd) as [Hne Hall].
  now rewrite str_lower_name.
Qed.

Lemma premium_results (response : list N) :
  exists results,
    pronounceability.mapM (fun d => check_premium (fst d) (snd d)) (parse_domains response)
      = Ok results /\
    List.Forall premium_in_unit results /\ length results = length (parse_domains response).
Proof.
  apply mapM_Ok. apply List.Forall_forall. intros d Hd.
  apply check_premium_unit. now apply (parsed_name_lower response).
Qed.

Lemma check_premium_response_unit response :
  exists r, check_premium_response response = Ok r /\ premium_in_unit r.
Proof.
  unfold check_premium_response.
  destruct (premium_results response) as (results & Hres & Hall & Hlen).
  destruct (parse_domains response) as [|d ds].
  - eexists. split; [reflexivity|]. unfold premium_in_unit. cbn. repeat split; apply unit_0.
  - rewrite Hres. cbn [bind].
    destruct (premium_means_unit results) as (means & -> & Hm); [|exact Hall|].
    { destruct results; [discriminate | congruence]. }
    cbn [bind]. eexists. split; [reflexivity|]. now apply premium_round_unit.
Qed.

End Premium.

(** ** Blending of judge verdicts *)

Section Judge.
Import generate_preferences.
Local Open Scope Q_scope.

Lemma lookup_add_scores (w : Q) (result acc : gmap (list N) Q) (k : list N) :
  add_scores w result acc !! k
  = match result !! k with
    | Some v => Some (default 0 (acc !! k) + v * w)
    | None => acc !! k
    end.
Proof.
  unfold add_scores. revert k.
  apply (map_fold_weak_ind (fun r (m : gmap (list N) Q) =>
           forall k, r !! k = match m !! k with
                              | Some v => Some (default 0 (acc !! k) + v * w)
                              | None => acc !! k
                              end)).
  - intros k. now rewrite lookup_empty.
  - intros i x m r Hi IH k.
    destruct (decide (i = k)) as [<- | Hne].
    + rewrite !lookup_insert_eq. f_equal. f_equal.
      specialize (IH i). rewrite Hi in IH.
      destruct (bool_decide (is_Some (r !! i))) eqn:E.
      * now rewrite IH.
      * rewrite lookup_insert_eq. apply bool_decide_eq_false in E.
        rewrite IH in E. destruct (acc !! i); [exfalso; apply E; eauto | reflexivity].
    + rewrite !lookup_insert_ne by exact Hne. rewrite <- IH.
      destruct (bool_decide (is_Some (r !! i))); [reflexivity|].
      now rewrite lookup_insert_ne.
Qed.

Lemma blend_two (j1 j2 : list N * judge_config) (r1 r2 : gmap (list N) Q) :
  0 < weight (snd j1) -> 0 < weight (snd j2) ->
  blend [j1; j2] [Returned r1; Returned r2]
  = ((fun value => value / (0 + weight (snd j1) + weight (snd j2)))
       <$> add_scores (weight (snd j2)) r2 (add_scores (weight (snd j1)) r1 ∅),
     0 + weight (snd j1) + weight (snd j2)).
Proof.
  intros H1 H2. unfold blend. simpl.
  assert (E : Qltb 0 (0 + weight (snd j1) + weight (snd j2)) = true) by (apply Qltb_lt; lra).
  now rewrite E.
Qed.

Lemma blend_one (j1 j2 : list N * judge_config) (r1 : gmap (list N) Q) :
  0 < weight (snd j1) ->
  blend [j1; j2] [Returned r1; Exception]
  = ((fun value => value / (0 + weight (snd j1))) <$> add_scores (weight (snd j1)) r1 ∅,
     0 + weight (snd j1)).
Proof.
  intros H1. unfold blend. simpl.
  assert (E : Qltb 0 (0 + weight (snd j1)) = true) by (apply Qltb_lt; lra).
  now rewrite E.
Qed.

Lemma neutral_lookup (k : list N) : In k rubric_keys -> neutral !! k = Some 5.
Proof.
  intros H. simpl in H.
  destruct H as [<- | [<- | [<- | [<- | [<- | []]]]]]; reflexivity.
Qed.

Lemma blend_second (j1 j2 : list N * judge_config) (r2 : gmap (list N) Q) :
  0 < weight (snd j2) ->
  blend [j1; j2] [Exception; Returned r2]
  = ((fun value => value / (0 + weight (snd j2))) <$> add_scores (weight (snd j2)) r2 ∅,
     0 + weight (snd j2)).
Proof.
  intros H2. unfold blend. simpl.
  assert (E : Qltb 0 (0 + weight (snd j2)) = true) by (apply Qltb_lt; lra).
  now rewrite E.
Qed.

Lemma blend_two_field (j1 j2 : list N * judge_config) (r1 r2 : gmap (list N) Q)
    (k : list N) (x1 x2 : Q) :
  0 < weight (snd j1) -> 0 < weight (snd j2) ->
  r1 !! k = Some x1 -> r2 !! k = Some x2 ->
  exists y,
    fst (blend [j1; j2] [Returned r1; Returned r2]) !! k = Some y /\
    y == (x1 * weight (snd j1) + x2 * weight (snd j2)) / (weight (snd j1) + weight (snd j2)).
Proof.
  intros H1 H2 Hr1 Hr2. rewrite blend_two by assumption. cbn [fst].
  rewrite lookup_fmap, !lookup_add_scores, Hr1, Hr2, lookup_empty.
  eexists. split; [reflexivity|]. simpl. field. lra.
Qed.

Lemma blend_one_field (j1 j2 : list N * judge_config) (r1 : gmap (list N) Q)
    (k : list N) (x : Q) :
  0 < weight (snd j1) -> r1 !! k = Some x ->
  exists y, fst (blend [j1; j2] [Returned r1; Exception]) !! k = Some y /\ y == x.
Proof.
  intros H1 Hr1. rewrite blend_one by assumption. cbn [fst].
  rewrite lookup_fmap, !lookup_add_scores, Hr1, lookup_empty.
  eexists. split; [reflexivity|]. simpl. field. lra.
Qed.

Lemma blend_second_field (j1 j2 : list N * judge_config) (r2 : gmap (list N) Q)
    (k : list N) (x : Q) :
  0 < weight (snd j2) -> r2 !! k = Some x ->
  exists y, fst (blend [j1; j2] [Exception; Returned r2]) !! k = Some y /\ y == x.
Proof.
  intros H2 Hr2. rewrite blend_second by assumption. cbn [fst].
  rewrite lookup_fmap, !lookup_add_scores, Hr2, lookup_empty.
  eexists. split; [reflexivity|]. simpl. field. lra.
Qed.

Lemma get_Some (d : gmap (list N) Q) (k : list N) (y dflt : Q) : d !! k = Some y -> get d k dflt = y.
Proof. unfold get. now intros ->. Qed.

Lemma rubric_lookup (b p c cr o : Q) :
  rubric b p c cr o !! brandability = Some b /\
  rubric b p c cr o !! pronounceability = Some p /\
  rubric b p c cr o !! constraint = Some c /\
  rubric b p c cr o !! creativity = Some cr /\
  rubric b p c cr o !! overall = Some o.
Proof. repeat split; reflexivity. Qed.

(** The final score of a blend whose five rubric fields are known. *)
Lemma final_score_fields (d : gmap (list N) Q) (f : Q -> Q) (b p c cr o : Q) :
  (forall k x, rubric b p c cr o !! k = Some x -> exists y, d !! k = Some y /\ y == f x) ->
  final_score d == rubric_score (f b) (f p) (f c) (f cr) (f o).
Proof.
  intros H. destruct (rubric_lookup b p c cr o) as (Hb & Hp & Hc & Hcr & Ho).
  destruct (H _ _ Hb) as (yb & Eb & Qb). destruct (H _ _ Hp) as (yp & Ep & Qp).
  destruct (H _ _ Hc) as (yc & Ec & Qc). destruct (H _ _ Hcr) as (ycr & Ecr & Qcr).
  destruct (H _ _ Ho) as (yo & Eo & Qo).
  unfold final_score, rubric_score.
  rewrite (get_Some _ _ _ _ Eb), (get_Some _ _ _ _ Ep), (get_Some _ _ _ _ Ec),
          (get_Some _ _ _ _ Ecr), (get_Some _ _ _ _ Eo).
  rewrite Qb, Qp, Qc, Qcr, Qo. reflexivity.
Qed.

Lemma rubric_key_in (b p c cr o : Q) (k : list N) (x : Q) :
  rubric b p c cr o !! k = Some x -> In k rubric_keys.
Proof.
  intros H. unfold rubric in H. apply elem_of_list_to_map_2 in H.
  apply list_elem_of_In in H. simpl in H. simpl.
  destruct H as [H | [H | [H | [H | [H | []]]]]]; injection H as <- _; tauto.
Qed.

End Judge.

(** ** The stable descending sort *)

Section Pairs.
Import generate_preferences.
Local Open Scope Q_scope.

Lemma insert_desc_perm x l : Permutation (insert_desc x l) (x :: l).
Proof.
  induction l as [|y l IH]; simpl; [reflexivity|].
  destruct (Qltb (combined_score x) (combined_score y)); [|reflexivity].
  rewrite IH. apply perm_swap.
Qed.

Lemma sorted_desc_perm l : Permutation (sorted_desc l) l.
Proof.
  induction l as [|x l IH]; simpl; [reflexivity|].
  rewrite insert_desc_perm. now apply perm_skip.
Qed.

Lemma insert_desc_Forall (P : DomainCandidate -> Prop) x l :
  P x -> List.Forall P l -> List.Forall P (insert_desc x l).
Proof.
  intros Hx Hl. eapply Permutation_Forall; [symmetry; apply insert_desc_perm|].
  now constructor.
Qed.

Lemma insert_desc_sorted x l :
  StronglySorted ge_score l -> StronglySorted ge_score (insert_desc x l).
Proof.
  induction 1 as [|y l Hs IH Hy]; simpl; [repeat constructor|].
  destruct (Qltb (combined_score x) (combined_score y)) eqn:E.
  - apply Qltb_lt in E. constructor; [exact IH|].
    apply insert_desc_Forall; [unfold ge_score; lra | exact Hy].
  - apply Qltb_ge in E. constructor; [now constructor|].
    constructor; [exact E|].
    eapply List.Forall_impl; [|exact Hy]. unfold ge_score. intros z Hz. lra.
Qed.

Lemma sorted_desc_sorted l : StronglySorted ge_score (sorted_desc l).
Proof.
  induction l as [|x l IH]; simpl; [constructor | now apply insert_desc_sorted].
Qed.

Lemma insert_desc_stable c x l :
  List.filter (has_score c) (insert_desc x l) = List.filter (has_score c) (x :: l).
Proof.
  induction l as [|y l IH]; [reflexivity|].
  cbn [insert_desc].
  destruct (Qltb (combined_score x) (combined_score y)) eqn:E; [|reflexivity].
  apply Qltb_lt in E.
  cbn [List.filter] in *. rewrite IH.
  destruct (has_score c x) eqn:Ex, (has_score c y) eqn:Ey; try reflexivity.
  unfold has_score in *. apply Qeq_bool_iff in Ex, Ey. lra.
Qed.

Lemma sorted_desc_stable c l :
  List.filter (has_score c) (sorted_desc l) = List.filter (has_score c) l.
Proof.
  induction l as [|x l IH]; [reflexivity|].
  cbn [sorted_desc fold_right]. fold (sorted_desc l).
  rewrite insert_desc_stable. cbn [List.filter]. now rewrite IH.
Qed.

(** The head of the sorted list is the first candidate of maximal score. *)
Lemma sorted_desc_head l best others :
  sorted_desc l = best :: others ->
  exists pre post, l = pre ++ best :: post /\
    List.Forall (fun x => combined_score x < combined_score best) pre /\
    List.Forall (fun x => combined_score x <= combined_score best) post.
Proof.
  revert best others. induction l as [|x l IH]; intros best others H; [discriminate|].
  cbn [sorted_desc fold_right] in H. fold (sorted_desc l) in H.
  destruct (sorted_desc l) as [|y ys] eqn:Es.
  - assert (l = []) as ->.
    { apply Permutation_nil. rewrite <- Es. apply sorted_desc_perm. }
    simpl in H. injection H as <- <-. exists [], []. repeat split; constructor.
  - simpl in H. destruct (Qltb (combined_score x) (combined_score y)) eqn:E.
    + apply Qltb_lt in E. injection H as <- <-.
      destruct (IH y ys eq_refl) as (pre & post & -> & Hpre & Hpost).
      exists (x :: pre), post. repeat split; [now constructor | exact Hpost].
    + apply Qltb_ge in E. injection H as <- <-.
      exists [], l. repeat split; [constructor|].
      pose proof (sorted_desc_sorted l) as Hs. rewrite Es in Hs.
      apply StronglySorted_inv in Hs as [_ Hy].
      assert (Hall : List.Forall (fun z => combined_score z <= combined_score x) (y :: ys)).
      { constructor; [exact E|]. eapply List.Forall_impl; [|exact Hy].
        unfold ge_score. intros z Hz. lra. }
      eapply Permutation_Forall; [|exact Hall]. rewrite <- Es. apply sorted_desc_perm.
Qed.

Lemma pairs_fold best others : forall acc,
  fold_left (fun pairs other =>
               if Qltb 0.5 (combined_score best - combined_score other)
               then pairs ++ [(best, other)] else pairs) others acc
  = acc ++ List.map (pair best) (List.filter (beats best) others).
Proof.
  induction others as [|o os IH]; intros acc; simpl.
  - now rewrite app_nil_r.
  - rewrite IH. unfold beats at 2.
    destruct (Qltb 0.5 (combined_score best - combined_score o)); [|reflexivity].
    simpl. now rewrite <- app_assoc.
Qed.

Lemma create_preference_pairs_short l :
  (length l < 2)%nat -> create_preference_pairs l = [].
Proof.
  intros H. unfold create_preference_pairs.
  rewrite (Permutation_length (sorted_desc_perm l)).
  destruct (2 <=? length l)%nat eqn:E; [|reflexivity]. apply Nat.leb_le in E. lia.
Qed.

Lemma create_preference_pairs_best l :
  (2 <= length l)%nat ->
  exists best others,
    sorted_desc l = best :: others /\
    create_preference_pairs l = List.map (pair best) (List.filter (beats best) others).
Proof.
  intros H. unfold create_preference_pairs.
  pose proof (Permutation_length (sorted_desc_perm l)) as Hlen.
  destruct (sorted_desc l) as [|best others]; [simpl in Hlen; lia|].
  exists best, others. split; [reflexivity|].
  rewrite Hlen. destruct (2 <=? length l)%nat eqn:E; [|apply Nat.leb_nle in E; lia].
  now rewrite pairs_fold.
Qed.

End Pairs.

(* ================================================================== *)
(** * The claims *)

Section ClaimJudge.
Import generate_preferences.
Local Open Scope Q_scope.

(** C1, as the code has it.  With two configured judges of positive weight
    and a surviving judge that returned the five rubric fields, a judge that
    times out is replaced inside [call_judge] by the neutral verdict (every
    field 5) and still counts with its full weight: [total_weight] is the
    sum of both weights, each blended field is the weighted mean of the
    surviving value and 5, and [combined_score] is the rubric combination of
    those means.  Only a judge whose coroutine raised (an [Exception] entry
    of [gather]) is left out of the blend: then [total_weight] is the
    surviving judge's weight, the blended verdict is the surviving verdict
    unchanged, and [combined_score] is its rubric combination.  In every
    case [combined_score] is a number. *)
Theorem judge_timeout_blend (domain : list N) (j1 j2 : list N * judge_config)
    (b p c cr o : Q) :
  0 < weight (snd j1) -> 0 < weight (snd j2) ->
  let w1 := weight (snd j1) in
  let w2 := weight (snd j2) in
  let v := rubric b p c cr o in
  let with1 x := (x * w1 + 5 * w2) / (w1 + w2) in
  let with2 x := (5 * w1 + x * w2) / (w1 + w2) in
  let second_times_out :=
    score_candidate domain [j1; j2] [Call (Parsed v); Call TimeoutException] in
  let first_times_out :=
    score_candidate domain [j1; j2] [Call TimeoutException; Call (Parsed v)] in
  let second_raises := score_candidate domain [j1; j2] [Call (Parsed v); Escapes] in
  let first_raises := score_candidate domain [j1; j2] [Escapes; Call (Parsed v)] in
  (snd (blend [j1; j2] (gather [Call (Parsed v); Call TimeoutException])) == w1 + w2 /\
   snd (blend [j1; j2] (gather [Call TimeoutException; Call (Parsed v)])) == w1 + w2 /\
   (forall k x, v !! k = Some x ->
      exists y, scores second_times_out !! k = Some y /\ y == with1 x) /\
   (forall k x, v !! k = Some x ->
      exists y, scores first_times_out !! k = Some y /\ y == with2 x) /\
   combined_score second_times_out
     == rubric_score (with1 b) (with1 p) (with1 c) (with1 cr) (with1 o) /\
   combined_score first_times_out
     == rubric_score (with2 b) (with2 p) (with2 c) (with2 cr) (with2 o)) /\
  (snd (blend [j1; j2] (gather [Call (Parsed v); Escapes])) == w1 /\
   snd (blend [j1; j2] (gather [Escapes; Call (Parsed v)])) == w2 /\
   (forall k x, v !! k = Some x -> exists y, scores second_raises !! k = Some y /\ y == x) /\
   (forall k x, v !! k = Some x -> exists y, scores first_raises !! k = Some y /\ y == x) /\
   combined_score second_raises == rubric_score b p c cr o /\
   combined_score first_raises == rubric_score b p c cr o).
Proof.
  intros H1 H2 w1 w2 v with1 with2 second_times_out first_times_out second_raises first_raises.
  assert (F1 : forall k x, v !! k = Some x ->
             exists y, scores second_times_out !! k = Some y /\ y == with1 x).
  { intros k x Hv. apply blend_two_field; try assumption.
    apply neutral_lookup. eapply rubric_key_in, Hv. }
  assert (F2 : forall k x, v !! k = Some x ->
             exists y, scores first_times_out !! k = Some y /\ y == with2 x).
  { intros k x Hv. apply blend_two_field; try assumption.
    apply neutral_lookup. eapply rubric_key_in, Hv. }
  assert (F3 : forall k x, v !! k = Some x ->
             exists y, scores second_raises !! k = Some y /\ y == x).
  { intros k x Hv. now apply blend_one_field. }
  assert (F4 : forall k x, v !! k = Some x ->
             exists y, scores first_raises !! k = Some y /\ y == x).
  { intros k x Hv. now apply blend_second_field. }
  split; [split; [|split; [|split; [|split; [|split]]]] | split; [|split; [|split; [|split; [|split]]]]].
  - cbn [gather List.map call_judge]. rewrite blend_two by assumption. simpl. unfold w1, w2. lra.
  - cbn [gather List.map call_judge]. rewrite blend_two by assumption. simpl. unfold w1, w2. lra.
  - exact F1.
  - exact F2.
  - apply (final_score_fields _ with1). exact F1.
  - apply (final_score_fields _ with2). exact F2.
  - cbn [gather List.map call_judge]. rewrite blend_one by assumption. simpl. unfold w1. lra.
  - cbn [gather List.map call_judge]. rewrite blend_second by assumption. simpl. unfold w2. lra.
  - exact F3.
  - exact F4.
  - apply (final_score_fields _ (fun x => x)). exact F3.
  - apply (final_score_fields _ (fun x => x)). exact F4.
Qed.

(** C1, witness: the two judges of [JUDGES], the verdict 9/8/7/6/9 and a
    timeout of the second judge give the fields 7/6.5/6/5.5/7. *)
Lemma judge_timeout_blend_witness :
  0 < weight minimax /\ 0 < weight deepseek /\
  combined_score
    (score_candidate (lit "nova.com") JUDGES
       [Call (Parsed (rubric 9 8 7 6 9)); Call TimeoutException])
  == rubric_score 7 6.5 6 5.5 7.
Proof.
  assert (H1 : 0 < weight (snd (lit "minimax", minimax))) by reflexivity.
  assert (H2 : 0 < weight (snd (lit "deepseek", deepseek))) by reflexivity.
  split; [exact H1 | split; [exact H2|]].
  destruct (judge_timeout_blend (lit "nova.com") (lit "minimax", minimax)
              (lit "deepseek", deepseek) 9 8 7 6 9 H1 H2)
    as [(_ & _ & _ & _ & H & _) _].
  unfold JUDGES. rewrite H. reflexivity.
Defined.

(** C1, counterexample to the claim as stated: with the judges of [JUDGES],
    the blend of the verdict 9/8/7/6/9 with a timed-out judge is not that
    verdict (brandability is 7, not 9). *)
Lemma timed_out_judge_still_counts :
  ~ (forall k x, rubric 9 8 7 6 9 !! k = Some x ->
       exists y,
         scores (score_candidate (lit "nova.com") JUDGES
                   [Call (Parsed (rubric 9 8 7 6 9)); Call TimeoutException]) !! k = Some y /\
         y == x).
Proof.
  intros H. destruct (H brandability 9 eq_refl) as (y & Hy & Heq).
  vm_compute in Hy. injection Hy as <-. vm_compute in Heq. discriminate.
Qed.

End ClaimJudge.

Section ClaimCompare.
Local Open Scope Q_scope.

Lemma run_evaluation_classify_unchanged diff :
  run_evaluation.classify diff = Unchanged <-> diff == 0.
Proof.
  unfold run_evaluation.classify.
  destruct (Qltb 0 diff) eqn:E1; [apply Qltb_lt in E1 | apply Qltb_ge in E1].
  - split; [discriminate | intros H; lra].
  - destruct (Qltb diff 0) eqn:E2; [apply Qltb_lt in E2 | apply Qltb_ge in E2].
    + split; [discriminate | intros H; lra].
    + split; [intros _; lra | reflexivity].
Qed.

Lemma eval_model_classify_unchanged diff :
  eval_model.classify diff = Unchanged <-> Qabs diff <= 0.001.
Proof.
  rewrite Qabs_Qle_condition. unfold eval_model.classify.
  destruct (Qltb 0.001 diff) eqn:E1; [apply Qltb_lt in E1 | apply Qltb_ge in E1].
  - split; [discriminate | intros [_ H]; lra].
  - destruct (Qltb diff (-0.001)) eqn:E2; [apply Qltb_lt in E2 | apply Qltb_ge in E2].
    + split; [discriminate | intros [H _]; lra].
    + split; [intros _; split; lra | reflexivity].
Qed.

(** C2.  [compare_results] classifies by the sign of the difference alone:
    the combined scores 0.5 and 0.5005 differ by no more than 0.001 and are
    reported as "up", where [compare_with_baseline] of [eval_model.py], the
    sibling report, says "unchanged".  In general [compare_results] reports
    "unchanged" exactly for a difference of zero, and [compare_with_baseline]
    exactly for an absolute difference of at most 0.001. *)
Theorem compare_results_has_no_epsilon :
  Qabs (combined_score new_results - combined_score old_results) <= 0.001 /\
  List.map arrow_of (run_evaluation.compare_results old_results new_results)
    = [Unchanged; Unchanged; Unchanged; Unchanged; Up] /\
  List.map arrow_of (eval_model.compare_with_baseline old_results new_results)
    = [Unchanged; Unchanged; Unchanged; Unchanged; Unchanged] /\
  (forall diff, 0 < diff -> run_evaluation.classify diff = Up) /\
  (forall diff, run_evaluation.classify diff = Unchanged <-> diff == 0) /\
  (forall diff, eval_model.classify diff = Unchanged <-> Qabs diff <= 0.001).
Proof.
  split; [apply Qle_bool_iff; reflexivity|].
  split; [reflexivity|]. split; [reflexivity|].
  split; [|split].
  - intros diff H. unfold run_evaluation.classify. apply Qltb_lt in H. now rewrite H.
  - apply run_evaluation_classify_unchanged.
  - apply eval_model_classify_unchanged.
Qed.

End ClaimCompare.

Section ClaimPairs.
Import generate_preferences.
Local Open Scope Q_scope.

(** C3.  Fewer than two candidates give no pair.  For two or more, the
    candidates are sorted by [combined_score], descending and stably (the
    result is a permutation, is sorted, and keeps the input order among
    candidates of equal score); [best] is its head, which is the first
    candidate of maximal score in the input; and the pairs are [(best,
    other)] for exactly the other candidates with
    [best.combined_score - other.combined_score > 0.5], in sorted order.
    The scores 8.0, 7.4, 6.0, 9.0 give the three pairs of 9.0 against 8.0,
    7.4 and 6.0. *)
Theorem preference_pairs_best_vs_rest :
  (forall candidates : list DomainCandidate,
     ((length candidates < 2)%nat -> create_preference_pairs candidates = []) /\
     ((2 <= length candidates)%nat ->
      exists best others,
        sorted_desc candidates = best :: others /\
        Permutation (best :: others) candidates /\
        StronglySorted ge_score (best :: others) /\
        (forall c, List.filter (has_score c) (best :: others)
                   = List.filter (has_score c) candidates) /\
        (exists pre post,
            candidates = pre ++ best :: post /\
            List.Forall (fun x => combined_score x < combined_score best) pre /\
            List.Forall (fun x => combined_score x <= combined_score best) post) /\
        create_preference_pairs candidates
          = List.map (pair best) (List.filter (beats best) others) /\
        (forall x y, In (x, y) (create_preference_pairs candidates) <->
                     x = best /\ In y others /\
                     0.5 < combined_score best - combined_score y))) /\
  List.map (fun pr => (combined_score (fst pr), combined_score (snd pr)))
    (create_preference_pairs
       [candidate "a.com" 8.0; candidate "b.com" 7.4; candidate "c.com" 6.0;
        candidate "d.com" 9.0])
  = [(9.0, 8.0); (9.0, 7.4); (9.0, 6.0)].
Proof.
  split; [|reflexivity].
  intros candidates. split; [apply create_preference_pairs_short|].
  intros Hlen.
  destruct (create_preference_pairs_best candidates Hlen) as (best & others & Hs & Hp).
  exists best, others.
  split; [exact Hs|].
  split; [rewrite <- Hs; apply sorted_desc_perm|].
  split; [rewrite <- Hs; apply sorted_desc_sorted|].
  split; [intros c; rewrite <- Hs; apply sorted_desc_stable|].
  split; [eapply sorted_desc_head; exact Hs|].
  split; [exact Hp|].
  intros x y. rewrite Hp, in_map_iff. split.
  - intros (o & [= <- <-] & Ho). apply filter_In in Ho as [Ho Hb].
    unfold beats in Hb. apply Qltb_lt in Hb. auto.
  - intros (-> & Hy & Hgap). exists y. split; [reflexivity|].
    apply filter_In. split; [exact Hy|]. unfold beats. now apply Qltb_lt.
Qed.

End ClaimPairs.

Section ClaimBounds.
Local Open Scope Q_scope.

(** C4.  For every prompt and every response, every rubric result that is
    returned has all its fields in [[0, 1]], and so have the values before
    rounding: the local variables of [check_constraints] and
    [check_diversity], the per-name and per-domain scores of the
    pronounceability and premium rubrics, and the means over a response.
    The diversity, pronounceability and premium rubrics always return.
    The constraint rubric returns, or raises [ValueError]; it raises exactly
    when the response holds a domain and [int] refuses a number of the
    prompt (more than 4300 digits in its length or count constraint), and
    it returns for every prompt of at most 4300 characters. *)
Theorem scores_in_unit_interval {U : Unicode} (prompt response : list N) :
  ((forall r, constraint_satisfaction.check_constraints prompt response = Ok r ->
              constraint_in_unit r) /\
   (exists r, diversity_metrics.check_diversity response = Ok r /\ diversity_in_unit r) /\
   (exists r, pronounceability.check_pronounceability_response response = Ok r /\
              pronounceability_in_unit r) /\
   (exists r, premium_score.check_premium_response response = Ok r /\ premium_in_unit r)) /\
  (((exists r, constraint_satisfaction.check_constraints prompt response = Ok r) \/
    constraint_satisfaction.check_constraints prompt response = Raise ValueError) /\
   (constraint_satisfaction.check_constraints prompt response = Raise ValueError <->
    constraint_satisfaction.parse_domains_from_response response <> [] /\
    (constraint_satisfaction.extract_length_constraint prompt = Raise ValueError \/
     constraint_satisfaction.extract_count_constraint prompt = Raise ValueError)) /\
   (within_int_limit (str_lower prompt) ->
    exists r, constraint_satisfaction.check_constraints prompt response = Ok r /\
              constraint_in_unit r)) /\
  ((forall d ds raw,
      constraint_satisfaction.parse_domains_from_response response = d :: ds ->
      constraint_satisfaction.constraint_locals prompt (d :: ds) = Ok raw ->
      constraint_in_unit raw) /\
   (forall d ds,
      constraint_satisfaction.parse_domains_from_response response = d :: ds ->
      within_int_limit (str_lower prompt) ->
      exists raw, constraint_satisfaction.constraint_locals prompt (d :: ds) = Ok raw) /\
   (forall n ns, diversity_metrics.parse_domain_names response = n :: ns ->
      exists raw, diversity_metrics.diversity_locals (n :: ns) = Ok raw /\
                  diversity_in_unit raw) /\
   (forall name alpha_name,
      exists raw, pronounceability.pronounceability_locals name alpha_name = Ok raw /\
                  pronounceability_in_unit raw) /\
   (exists results,
      pronounceability.mapM pronounceability.check_pronounceability
        (pronounceability.parse_domain_names response) = Ok results /\
      List.Forall pronounceability_in_unit results /\
      (results <> [] ->
       exists means, pronounceability.response_means results = Ok means /\
                     pronounceability_in_unit means)) /\
   (forall d, In d (premium_score.parse_domains response) ->
      exists raw, premium_score.premium_locals (fst d) (snd d) = Ok raw /\
                  premium_in_unit raw) /\
   (exists results,
      pronounceability.mapM (fun d => premium_score.check_premium (fst d) (snd d))
        (premium_score.parse_domains response) = Ok results /\
      List.Forall premium_in_unit results /\
      (results <> [] ->
       exists means, premium_score.response_means results = Ok means /\
                     premium_in_unit means))).
Proof.
  split; [|split].
  - split; [intros r; apply check_constraints_unit|].
    split; [apply check_diversity_unit|].
    split; [apply check_pronounceability_response_unit | apply check_premium_response_unit].
  - split; [|split].
    + destruct (check_constraints_cases prompt response) as [(r & E & _) | (E & _)];
        [left; eauto | now right].
    + split.
      * intros E. destruct (check_constraints_cases prompt response)
          as [(r & E' & _) | (_ & Hd & Hr)]; [congruence | split; assumption].
      * intros [Hd Hr]. destruct (check_constraints_cases prompt response)
          as [(r & _ & _ & [Hn | [(lc & El) (cc & Ec)]]) | (E & _)];
          [contradiction | destruct Hr; congruence | exact E].
    + apply check_constraints_short.
  - split.
    { intros d ds raw _ Hraw.
      destruct (constraint_locals_cases prompt d ds)
        as [(lc & cc & raw' & _ & _ & E & Hu) | (_ & E)]; rewrite E in Hraw;
        [now injection Hraw as <- | discriminate]. }
    split.
    { intros d ds _ Hs. destruct (short_prompt_extracts prompt Hs) as [(lc & El) (cc & Ec)].
      destruct (constraint_locals_cases prompt d ds)
        as [(lc' & cc' & raw & _ & _ & E & _) | ([H | H] & _)];
        [eauto | congruence | congruence]. }
    split; [intros n ns _; apply diversity_locals_unit|].
    split; [intros name alpha_name; apply pronounceability_locals_unit|].
    split.
    { destruct (pronounceability_results (pronounceability.parse_domain_names response))
        as (results & Hr & Hall & _).
      exists results. split; [exact Hr|]. split; [exact Hall|].
      intros Hne. now apply pronounceability_means_unit. }
    split.
    { intros d Hd. apply premium_locals_unit. now apply (parsed_name_lower response). }
    destruct (premium_results response) as (results & Hr & Hall & _).
    exists results. split; [exact Hr|]. split; [exact Hall|].
    intros Hne. now apply premium_means_unit.
Qed.

End ClaimBounds.

Section CountConstraint.
Import constraint_satisfaction.



End CountConstraint.

Section ClaimCount.
Import constraint_satisfaction.
Local Open Scope Q_scope.



End ClaimCount.



Section ClaimZero.
Local Open Scope Q_scope.

(** C6.  Whatever the prompt, a response from which no domain is extracted
    gets the constraint result with all five fields 0, and no exception. *)
Theorem no_domains_zero_constraints {U : Unicode} (prompt response : list N) :
  constraint_satisfaction.parse_domains_from_response response = [] ->
  constraint_satisfaction.check_constraints prompt response
  = Ok (constraint_satisfaction.Build_ConstraintResult 0 0 0 0 0).
Proof.
  intros H. unfold constraint_satisfaction.check_constraints. now rewrite H.
Qed.

(** C6, witness: a response without any domain, against the example prompt. *)
Lemma no_domains_zero_constraints_witness :
  constraint_satisfaction.parse_domains_from_response (U := ascii_table)
    (lit "I cannot think of any names.") = [] /\
  constraint_satisfaction.check_constraints (U := ascii_table) example_prompt
    (lit "I cannot think of any names.")
  = Ok (constraint_satisfaction.Build_ConstraintResult 0 0 0 0 0).
Proof.
  split; [reflexivity|].
  apply (no_domains_zero_constraints (U := ascii_table)). reflexivity.
Defined.

Lemma ngrams_short name : (length name <= 2)%nat -> diversity_metrics.ngrams name = [].
Proof.
  intros H. unfold diversity_metrics.ngrams.
  replace (length name - 2)%nat with 0%nat by lia. reflexivity.
Qed.

Lemma concat_ngrams_short names :
  List.Forall (fun name => (length name <= 2)%nat) names ->
  concat (List.map diversity_metrics.ngrams names) = [].
Proof.
  induction 1 as [|n ns Hn _ IH]; [reflexivity|].
  simpl. now rewrite (ngrams_short n Hn), IH.
Qed.

(** C7.  A response from which no name is extracted gets duplicate rate 1
    and 0 in every other field of the diversity result; and for a non-empty
    list of names of at most two characters each, the type-token ratio is 1
    (no division by zero). *)
Theorem no_names_diversity_floor {U : Unicode} (response : list N) (names : list (list N)) :
  (diversity_metrics.parse_domain_names response = [] ->
   diversity_metrics.check_diversity response
   = Ok (diversity_metrics.Build_DiversityResult 0 1 0 0 0 0)) /\
  (names <> [] -> List.Forall (fun name => (length name <= 2)%nat) names ->
   diversity_metrics.calculate_ttr names = Ok 1).
Proof.
  split.
  - intros H. unfold diversity_metrics.check_diversity. now rewrite H.
  - intros Hne Hshort. unfold diversity_metrics.calculate_ttr.
    destruct names as [|n ns]; [contradiction|].
    now rewrite (concat_ngrams_short (n :: ns) Hshort).
Qed.

(** C7, witness: a response without names, and the names "ab", "c", "". *)
Lemma no_names_diversity_floor_witness :
  diversity_metrics.check_diversity (U := ascii_table) (lit "I cannot think of any names.")
  = Ok (diversity_metrics.Build_DiversityResult 0 1 0 0 0 0) /\
  diversity_metrics.calculate_ttr [lit "ab"; lit "c"; lit ""] = Ok 1.
Proof.
  destruct (no_names_diversity_floor (U := ascii_table) (lit "I cannot think of any names.")
              [lit "ab"; lit "c"; lit ""]) as [H1 H2].
  split.
  - apply H1. reflexivity.
  - apply H2; [discriminate|]. repeat constructor.
Defined.

End ClaimZero.

Section ClaimPrefixSuffix.
Import constraint_satisfaction.
Local Open Scope Q_scope.










End ClaimPrefixSuffix.

Section ClaimSameExtraction.
Context {U : Unicode}.

(** C9.  The extractor of the constraint scorer and the extractor of the
    premium scorer return the same list of (name, tld) pairs; the name-only
    extractors of the diversity and pronounceability scorers return the
    first components of that list, in the same order; and extracting from
    the same response again gives the same lists. *)
Theorem extractors_agree (response : list N) :
  constraint_satisfaction.parse_domains_from_response response
    = premium_score.parse_domains response /\
  diversity_metrics.parse_domain_names response
    = List.map fst (constraint_satisfaction.parse_domains_from_response response) /\
  pronounceability.parse_domain_names response
    = List.map fst (constraint_satisfaction.parse_domains_from_response response) /\
  (forall again : list N, again = response ->
     constraint_satisfaction.parse_domains_from_response again
       = constraint_satisfaction.parse_domains_from_response response /\
     diversity_metrics.parse_domain_names again = diversity_metrics.parse_domain_names response).
Proof.
  assert (Hfold : constraint_satisfaction.parse_domains_from_response response
                  = premium_score.parse_domains response).
  { unfold constraint_satisfaction.parse_domains_from_response, premium_score.parse_domains.
    rewrite fold_left_snoc_map. reflexivity. }
  assert (Hnames : diversity_metrics.parse_domain_names response
                   = List.map fst (constraint_satisfaction.parse_domains_from_response response)).
  { rewrite Hfold. unfold premium_score.parse_domains, diversity_metrics.parse_domain_names.
    rewrite List.map_map. cbn [fst]. unfold finditer.
    apply finditer_from_rel. intros p s. apply name_pattern_agrees. }
  repeat split.
  - exact Hfold.
  - exact Hnames.
  - exact Hnames.
  - now subst.
  - now subst.
Qed.

End ClaimSameExtraction.

Section ClaimSameExtractionExample.

(** C9, witness: the four extractors on the example response. *)
Lemma extractors_agree_witness :
  constraint_satisfaction.parse_domains_from_response (U := ascii_table) example_response
    = [(lit "abnova", lit "com"); (lit "banova", lit "io")] /\
  premium_score.parse_domains (U := ascii_table) example_response
    = [(lit "abnova", lit "com"); (lit "banova", lit "io")] /\
  diversity_metrics.parse_domain_names (U := ascii_table) example_response
    = [lit "abnova"; lit "banova"] /\
  pronounceability.parse_domain_names (U := ascii_table) example_response
    = [lit "abnova"; lit "banova"].
Proof.
  destruct (extractors_agree (U := ascii_table) example_response) as (H1 & H2 & H3 & _).
  assert (E : constraint_satisfaction.parse_domains_from_response (U := ascii_table)
                example_response
              = [(lit "abnova", lit "com"); (lit "banova", lit "io")]) by reflexivity.
  split; [exact E|]. split; [rewrite <- H1; exact E|].
  split; [rewrite H2, E | rewrite H3, E]; reflexivity.
Defined.

End ClaimSameExtractionExample.

Section ClaimCaps.
Import generate_preferences.

Lemma extract_fold_Forall {U : Unicode} lines : forall acc,
  List.Forall looks_like_domain acc ->
  List.Forall looks_like_domain
    (fold_left (fun domains line =>
                  let line := strip chr_isspace line in
                  if is_empty line || startswith line (lit "#") || startswith line (lit "Here")
                  then domains
                  else
                    let domain := clean_line line in
                    if negb (is_empty domain) && contains domain (lit ".")
                       && (length domain <? 50)%nat
                    then domains ++ [domain] else domains)
               lines acc).
Proof.
  induction lines as [|line lines IH]; intros acc Hacc; [exact Hacc|].
  cbn [fold_left]. apply IH. cbv zeta.
  destruct (_ || _ || _); [exact Hacc|].
  destruct (negb _ && _ && _) eqn:E; [|exact Hacc].
  apply andb_true_iff in E as [E Hlen]. apply andb_true_iff in E as [_ Hdot].
  apply Nat.ltb_lt in Hlen.
  apply Forall_app. split; [exact Hacc|]. constructor; [split; assumption | constructor].
Qed.

Lemma extract_domains_ok {U : Unicode} response :
  (length (extract_domains_from_response response) <= 10)%nat /\
  List.Forall looks_like_domain (extract_domains_from_response response).
Proof.
  unfold extract_domains_from_response. split.
  - apply firstn_le_length.
  - apply Forall_take. apply extract_fold_Forall. constructor.
Qed.

Lemma slice_to_nonneg {A} (l : list A) n :
  (0 <= n)%Z -> (Z.of_nat (length (slice_to l n)) <= n)%Z.
Proof.
  intros H. unfold slice_to. apply Z.leb_le in H as E. rewrite E.
  pose proof (firstn_le_length (Z.to_nat n) l). lia.
Qed.

Lemma slice_to_NoDup {A} (l : list A) n : NoDup l -> NoDup (slice_to l n).
Proof.
  intros H. unfold slice_to.
  assert (T : forall k, NoDup (take k l)).
  { intros k. rewrite <- (take_drop k l) in H. now apply NoDup_app in H as [H _]. }
  destruct (0 <=? n)%Z; apply T.
Qed.

(** C10, as the code has it.  [extract_domains_from_response] returns at
    most 10 strings, each with a dot and shorter than 50 characters.  For a
    non-negative [candidates_per_prompt], the pool that goes on to the
    judges has at most [2 * candidates_per_prompt] entries (and at least
    two, without repetition). *)
Theorem candidate_caps {U : Unicode} (response : list N) (candidates_text : list (list N))
    (candidates_per_prompt : Z) :
  (0 <= candidates_per_prompt)%Z ->
  ((length (extract_domains_from_response response) <= 10)%nat /\
   List.Forall (fun d => contains d (lit ".") = true /\ (length d < 50)%nat)
               (extract_domains_from_response response)) /\
  (forall pool,
     candidate_pool candidates_text candidates_per_prompt = Some pool ->
     (Z.of_nat (length pool) <= 2 * candidates_per_prompt)%Z /\
     (2 <= length pool)%nat /\ NoDup pool).
Proof.
  intros Hcpp. split; [apply extract_domains_ok|].
  intros pool H. unfold candidate_pool in H.
  match type of H with
  | (if (length ?all <? 2)%nat then _ else _) = _ =>
      destruct (length all <? 2)%nat eqn:E; [discriminate|]
  end.
  injection H as <-. apply Nat.ltb_ge in E.
  split; [|split; [exact E|]].
  - etransitivity; [apply slice_to_nonneg; lia | lia].
  - apply slice_to_NoDup, NoDup_elements.
Qed.

(** C10, witness: four one-line candidates and [candidates_per_prompt = 1]. *)
Lemma candidate_caps_witness :
  (0 <= 1)%Z /\
  candidate_pool (U := ascii_table) [four_candidates] 1
    = Some (slice_to (elements (list_to_set (extract_domains_from_response (U := ascii_table)
                                               four_candidates) : gset (list N))) 2) /\
  (length (extract_domains_from_response (U := ascii_table) four_candidates) <= 10)%nat /\
  (Z.of_nat (length (slice_to (elements (list_to_set
       (extract_domains_from_response (U := ascii_table) four_candidates) : gset (list N))) 2))
   <= 2 * 1)%Z.
Proof.
  assert (H0 : (0 <= 1)%Z) by lia.
  assert (E : candidate_pool (U := ascii_table) [four_candidates] 1
              = Some (slice_to (elements (list_to_set
                   (extract_domains_from_response (U := ascii_table) four_candidates)
                   : gset (list N))) 2)) by (vm_compute; reflexivity).
  destruct (candidate_caps (U := ascii_table) four_candidates [four_candidates] 1 H0)
    as [[Hlen _] Hpool].
  split; [exact H0|]. split; [exact E|]. split; [exact Hlen|].
  exact (proj1 (Hpool _ E)).
Defined.

(** C10, counterexample to the claim as stated: with
    [candidates_per_prompt = -1] the slice [[:-2]] of four distinct domains
    keeps two of them, more than [2 * candidates_per_prompt]. *)
Lemma candidate_pool_negative :
  ~ (forall (candidates_text : list (list N)) (candidates_per_prompt : Z) pool,
       candidate_pool (U := ascii_table) candidates_text candidates_per_prompt = Some pool ->
       (Z.of_nat (length pool) <= 2 * candidates_per_prompt)%Z).
Proof.
  intros H.
  assert (E : exists pool,
             candidate_pool (U := ascii_table) [four_candidates] (-1) = Some pool /\
             length pool = 2%nat).
  { eexists. split; [vm_compute; reflexivity | reflexivity]. }
  destruct E as (pool & E & Hlen).
  specialize (H _ _ _ E). rewrite Hlen in H. lia.
Qed.

End ClaimCaps.

(* ================================================================== *)
(** * Further properties of the code *)

(** ** Shape of the extracted domains *)

Section ExtractedShape.
Context {U : Unicode}.
Import constraint_satisfaction.

Lemma domain_pattern_shape p s st :
  match_at domain_pattern p s = Some st ->
  exists name tld,
    caps st = [name; tld] /\ name <> [] /\ forallb name_chr name = true /\
    forallb az tld = true /\ 2 <= length tld <= 10.
Proof.
  unfold match_at, domain_pattern, Seq, Plus, Star. cbn [fold_right].
  change (rmatch (Cat ?a ?b) ?st ?k) with (rmatch a st (fun st' => rmatch b st' k)).
  change (rmatch (Grp ?a) ?st ?k) with
    (rmatch a st (fun st' =>
       k (MState (pos st') (rest st') (caps st' ++ [firstn (pos st' - pos st) (rest st)])))).
  cbn [rmatch]. intros H.
  apply rep_chr_sound in H as (w1 & r1 & Hw1 & Hlo1 & _ & Hr1 & H).
  cbn [pos rest caps] in H, Hr1. subst s.
  replace (p + length w1 - p) with (length w1) in H by lia.
  rewrite firstn_app, Nat.sub_diag, firstn_all in H.
  cbn [firstn app] in H. rewrite app_nil_r in H.
  destruct r1 as [|c r2]; [discriminate|].
  destruct (chr_is 46 c); [|discriminate].
  apply rep_chr_sound in H as (w2 & r3 & Hw2 & Hlo2 & Hhi2 & Hr2 & H).
  cbn [pos rest caps] in H, Hr2. subst r2.
  replace (S (p + length w1) + length w2 - S (p + length w1)) with (length w2) in H by lia.
  rewrite firstn_app, Nat.sub_diag, firstn_all in H.
  cbn [firstn app] in H. rewrite app_nil_r in H.
  apply rep_chr_sound in H as (w3 & r4 & _ & _ & _ & _ & H).
  cbn [pos rest caps] in H.
  destruct r4 as [|c4 r5]; [discriminate|].
  destruct (dash c4); [|discriminate]. injection H as <-.
  exists w1, w2. cbn [caps].
  specialize (Hhi2 10 eq_refl). simpl in Hlo1, Hlo2.
  repeat split; try assumption; try lia.
  destruct w1; [simpl in Hlo1; lia | discriminate].
Qed.

Lemma names_are_first_components (response : list N) :
  diversity_metrics.parse_domain_names response
  = List.map fst (parse_domains_from_response response).
Proof.
  unfold parse_domains_from_response, diversity_metrics.parse_domain_names.
  rewrite fold_left_snoc_map, app_nil_l, List.map_map. cbn [fst]. unfold finditer.
  apply finditer_from_rel. intros p s. apply name_pattern_agrees.
Qed.

(** X1.  Whatever the response, every pair that [parse_domains_from_response]
    extracts has a non-empty name made of the characters [a-z0-9-] only and a
    TLD of 2 to 10 letters [a-z]; every name that
    [diversity_metrics.parse_domain_names] extracts is non-empty and made of
    [a-z0-9-] only.  So no scorer downstream is handed an empty name. *)
Theorem extracted_domains_shape (response : list N) :
  List.Forall (fun d => fst d <> [] /\ forallb name_chr (fst d) = true /\
                        forallb az (snd d) = true /\ 2 <= length (snd d) <= 10)
              (parse_domains_from_response response) /\
  List.Forall (fun name => name <> [] /\ forallb name_chr name = true)
              (diversity_metrics.parse_domain_names response).
Proof.
  assert (H : List.Forall (fun d => fst d <> [] /\ forallb name_chr (fst d) = true /\
                        forallb az (snd d) = true /\ 2 <= length (snd d) <= 10)
              (parse_domains_from_response response)).
  { unfold parse_domains_from_response. rewrite fold_left_snoc_map. simpl.
    apply List.Forall_forall. intros d Hd.
    apply in_map_iff in Hd as (m & <- & Hm).
    apply finditer_from_In in Hm as (p & s & Hm).
    apply domain_pattern_shape in Hm as (name & tld & Hc & Hne & Hn & Ht & Hl).
    unfold group. rewrite Hc. simpl. auto. }
  split; [exact H|].
  rewrite names_are_first_components.
  apply List.Forall_forall. intros name Hn. apply in_map_iff in Hn as (d & <- & Hd).
  rewrite List.Forall_forall in H. destruct (H d Hd) as (H1 & H2 & _). auto.
Qed.

End ExtractedShape.

(** ** A well-formed suggestion is extracted as it is written *)

Section SuggestionRoundTrip.
Context {U : Unicode}.
Import constraint_satisfaction.

Lemma str_lower_stable (s : list N) :
  List.Forall (fun c => is_ascii c = true /\ ascii_lower c = c) s -> str_lower s = s.
Proof.
  intros H. rewrite str_lower_ascii.
  - induction H as [|c s [_ Hc] _ IH]; [reflexivity|]. simpl. now rewrite Hc, IH.
  - induction H as [|c s [Hc _] _ IH]; [reflexivity|]. simpl. now rewrite Hc, IH.
Qed.

Lemma az_stable c : az c = true -> is_ascii c = true /\ ascii_lower c = c.
Proof.
  intros H. apply name_chr_ascii. unfold name_chr. now rewrite H.
Qed.

Lemma hyphen_not_space : chr_isspace 45 = false.
Proof. now rewrite chr_isspace_ascii. Qed.

Lemma domain_pattern_at_end p : match_at domain_pattern p [] = None.
Proof. reflexivity. Qed.

Lemma suggestion_matches (name tld ws : list N) p :
  name <> [] -> forallb name_chr name = true ->
  forallb az tld = true -> 2 <= length tld <= 10 ->
  forallb ascii_space ws = true ->
  match_at domain_pattern p (name ++ [46%N] ++ tld ++ ws ++ [45%N])
  = Some (MState (p + length (name ++ [46%N] ++ tld ++ ws ++ [45%N])) [] [name; tld]).
Proof.
  intros Hne Hname Htld Hlen Hws.
  unfold match_at, domain_pattern, Seq, Plus, Star. cbn [fold_right].
  change (rmatch (Cat ?a ?b) ?st ?k) with (rmatch a st (fun st' => rmatch b st' k)).
  change (rmatch (Grp ?a) ?st ?k) with
    (rmatch a st (fun st' =>
       k (MState (pos st') (rest st') (caps st' ++ [firstn (pos st' - pos st) (rest st)])))).
  cbn [rmatch rest pos caps app].
  apply rep_chr_run.
  - reflexivity.
  - exact Hname.
  - rewrite length_app. lia.
  - destruct name; [contradiction | simpl; lia].
  - discriminate.
  - cbn [pos rest caps app].
    replace (p + length name - p) with (length name) by lia.
    rewrite firstn_app, Nat.sub_diag, firstn_all. cbn [firstn app]. rewrite app_nil_r.
    change (chr_is 46 46) with true. cbv iota.
    apply rep_chr_run.
    + destruct ws as [|c ws']; [reflexivity|]. simpl in Hws.
      apply andb_true_iff in Hws as [Hc _]. cbn [app].
      now destruct (ascii_space_facts c Hc) as (_ & _ & Hc' & _).
    + exact Htld.
    + rewrite length_app. lia.
    + simpl. lia.
    + intros h [= <-]. simpl. lia.
    + cbn [pos rest caps app].
      replace (S (p + length name) + length tld - S (p + length name)) with (length tld) by lia.
      rewrite firstn_app, Nat.sub_diag, firstn_all. cbn [firstn app]. rewrite app_nil_r.
      apply rep_chr_run.
      * apply hyphen_not_space.
      * clear -Hws. induction ws as [|c ws IH]; [reflexivity|]. simpl in *.
        apply andb_true_iff in Hws as [Hc Hws].
        destruct (ascii_space_facts c Hc) as (_ & _ & _ & ->). now apply IH.
      * rewrite length_app. lia.
      * lia.
      * discriminate.
      * cbn [pos rest caps]. change (dash 45) with true. cbv iota.
        do 2 f_equal. rewrite length_app. cbn [length]. rewrite !length_app. cbn [length]. lia.
Qed.

Lemma suggestion_lower (name tld ws : list N) :
  forallb name_chr name = true -> forallb az tld = true -> forallb ascii_space ws = true ->
  str_lower (name ++ [46%N] ++ tld ++ ws ++ [45%N]) = name ++ [46%N] ++ tld ++ ws ++ [45%N].
Proof.
  intros Hname Htld Hws. apply str_lower_stable.
  rewrite !List.Forall_app. repeat split.
  - apply List.Forall_forall. intros c Hc. apply name_chr_ascii.
    rewrite forallb_forall in Hname. now apply Hname.
  - repeat constructor.
  - apply List.Forall_forall. intros c Hc. apply az_stable.
    rewrite forallb_forall in Htld. now apply Htld.
  - apply List.Forall_forall. intros c Hc.
    rewrite forallb_forall in Hws. destruct (ascii_space_facts c (Hws c Hc)) as (? & ? & _). auto.
  - repeat constructor.
Qed.

(** X2.  Round trip of one suggestion.  A text made of a non-empty name over
    [a-z0-9-], a dot, a TLD of 2 to 10 letters [a-z], any run of ASCII white
    space and a hyphen is parsed back to exactly that one (name, TLD) pair by
    [parse_domains_from_response] and by [premium_score.parse_domains], and
    to exactly that name by [diversity_metrics.parse_domain_names]. *)
Theorem suggestion_round_trip (name tld ws : list N) :
  name <> [] -> forallb name_chr name = true ->
  forallb az tld = true -> 2 <= length tld <= 10 ->
  forallb ascii_space ws = true ->
  parse_domains_from_response (name ++ [46%N] ++ tld ++ ws ++ [45%N]) = [(name, tld)] /\
  premium_score.parse_domains (name ++ [46%N] ++ tld ++ ws ++ [45%N]) = [(name, tld)] /\
  diversity_metrics.parse_domain_names (name ++ [46%N] ++ tld ++ ws ++ [45%N]) = [name].
Proof.
  intros Hne Hname Htld Hlen Hws.
  assert (E : parse_domains_from_response (name ++ [46%N] ++ tld ++ ws ++ [45%N])
              = [(name, tld)]).
  { unfold parse_domains_from_response.
    rewrite fold_left_snoc_map, app_nil_l, suggestion_lower by assumption.
    unfold finditer.
    pose proof (suggestion_matches name tld ws 0 Hne Hname Htld Hlen Hws) as Hm.
    destruct (name ++ [46%N] ++ tld ++ ws ++ [45%N]) as [|c s] eqn:Es.
    { destruct name; [contradiction | discriminate]. }
    cbn [finditer_from]. rewrite Hm. cbn [pos length].
    replace (0 + S (length s) - 0 - 1) with (length s) by lia.
    rewrite finditer_from_skip. cbn [finditer_from]. rewrite domain_pattern_at_end.
    reflexivity. }
  split; [exact E|]. split.
  - rewrite <- E. unfold parse_domains_from_response, premium_score.parse_domains.
    now rewrite fold_left_snoc_map.
  - now rewrite names_are_first_components, E.
Qed.

End SuggestionRoundTrip.

(** X2, witness: the suggestion [brewly.io] followed by two spaces and a
    hyphen, beside a line as a model writes it. *)
Lemma suggestion_round_trip_witness :
  constraint_satisfaction.parse_domains_from_response (U := ascii_table) (lit "brewly.io - a cosy name")
    = [(lit "brewly", lit "io")] /\
  constraint_satisfaction.parse_domains_from_response (U := ascii_table) (lit "brewly" ++ [46%N] ++ lit "io" ++ lit "  " ++ [45%N])
    = [(lit "brewly", lit "io")].
Proof.
  split; [reflexivity|].
  apply (suggestion_round_trip (U := ascii_table) (lit "brewly") (lit "io") (lit "  "));
    try reflexivity; [discriminate | simpl; lia].
Defined.

(** ** The premium rubric: errors, order and floors *)

Section PremiumFacts.
Context {U : Unicode}.
Import premium_score.
Local Open Scope Q_scope.

Ltac leb_cases :=
  repeat match goal with
         | |- context [if (?a <=? ?b)%nat then _ else _] =>
             let E := fresh "E" in
             destruct (a <=? b)%nat eqn:E;
             [apply Nat.leb_le in E | apply Nat.leb_gt in E]
         end.

(** X3.  [check_premium] raises [IndexError] exactly when the lower-cased
    name is empty (the test [name_lower[0].isalpha()] of
    [calculate_pattern_score]); in particular it raises on the empty name.
    For every other name it returns a result whose six fields lie in
    [[0, 1]]. *)
Theorem check_premium_needs_a_name (name tld : list N) :
  (str_lower name = [] -> check_premium name tld = Raise IndexError) /\
  (str_lower name <> [] -> exists r, check_premium name tld = Ok r /\ premium_in_unit r) /\
  check_premium [] tld = Raise IndexError.
Proof.
  assert (H : forall n, str_lower n = [] -> check_premium n tld = Raise IndexError).
  { intros n Hn. unfold check_premium, premium_locals, calculate_pattern_score.
    rewrite Hn. reflexivity. }
  split; [apply H|]. split; [apply check_premium_unit|].
  apply H. now rewrite str_lower_ascii.
Qed.

(** X4.  The length score of [premium_score.py] never rewards a longer
    name: if [name1] is at most as long as [name2], its score is at least
    the score of [name2]. *)
Theorem shorter_names_score_higher (name1 name2 : list N) :
  (length name1 <= length name2)%nat ->
  calculate_length_score name2 <= calculate_length_score name1.
Proof.
  intros H. unfold calculate_length_score. cbv zeta.
  leb_cases; try lia; lra.
Qed.

Lemma TLD_VALUES_keys : NoDup (TLD_VALUES.*1).
Proof. apply (bool_decide_unpack _). vm_compute. exact I. Qed.

Lemma TLD_VALUES_floor : List.Forall (fun kv => 0.5 <= snd kv /\ snd kv <= 1) TLD_VALUES.
Proof. unfold TLD_VALUES. repeat constructor; simpl; lra. Qed.

(** X5.  [calculate_tld_score] looks the lower-cased TLD up in [TLD_VALUES]:
    a listed TLD gets its listed value, which is between 0.5 and 1; any
    other TLD gets 0.4; so the score always lies between 0.4 and 1. *)
Theorem tld_score_table (tld : list N) :
  (forall v, In (str_lower tld, v) TLD_VALUES ->
             calculate_tld_score tld = v /\ 0.5 <= v /\ v <= 1) /\
  (~ In (str_lower tld) (List.map fst TLD_VALUES) -> calculate_tld_score tld = 0.4) /\
  (0.4 <= calculate_tld_score tld /\ calculate_tld_score tld <= 1).
Proof.
  assert (H1 : forall v, In (str_lower tld, v) TLD_VALUES ->
             calculate_tld_score tld = v /\ 0.5 <= v /\ v <= 1).
  { intros v Hv. split.
    - unfold calculate_tld_score.
      rewrite (elem_of_list_to_map_1 TLD_VALUES (str_lower tld) v); [reflexivity | |].
      + apply TLD_VALUES_keys.
      + now apply list_elem_of_In.
    - pose proof TLD_VALUES_floor as Hf. rewrite List.Forall_forall in Hf.
      exact (Hf _ Hv). }
  assert (H2 : ~ In (str_lower tld) (List.map fst TLD_VALUES) -> calculate_tld_score tld = 0.4).
  { intros Hn. unfold calculate_tld_score.
    rewrite not_elem_of_list_to_map_1; [reflexivity|].
    intros Hin. apply Hn. now apply list_elem_of_In in Hin. }
  split; [exact H1|]. split; [exact H2|].
  unfold calculate_tld_score.
  destruct (list_to_map TLD_VALUES !! str_lower tld) as [v|] eqn:E; simpl; [|lra].
  apply elem_of_list_to_map_2, list_elem_of_In in E.
  pose proof TLD_VALUES_floor as Hf. rewrite List.Forall_forall in Hf.
  destruct (Hf _ E) as [Ha Hb]. simpl in Ha, Hb. lra.
Qed.

Lemma Qmin_floor s cap c : c <= s -> c <= cap -> c <= Qmin s cap.
Proof. intros H1 H2. unfold Qmin. now destruct (Qle_bool s cap). Qed.

Lemma round3_floor (k : Z) q : inject_Z k / 1000 <= q -> inject_Z k / 1000 <= round3 q.
Proof.
  intros H. unfold round3.
  assert (Hk : inject_Z k <= q * 1000).
  { assert (E : inject_Z k == inject_Z k / 1000 * 1000) by field.
    rewrite E. apply Qmult_le_compat_r; [exact H | discriminate]. }
  apply round_half_even_lower in Hk. rewrite Zle_Qle in Hk.
  unfold Qdiv. apply Qmult_le_compat_r; [exact Hk | discriminate].
Qed.

Lemma premium_floors (name tld : list N) raw :
  premium_locals name tld = Ok raw ->
  0.3 <= length_score raw /\ 0.5 <= word_score raw /\ 0.4 <= tld_score raw /\
  0.5 <= pattern_score raw /\ 0.5 <= memorability_score raw /\ 0.43 <= overall raw.
Proof.
  unfold premium_locals. intros H.
  apply bind_Ok in H as (p & Hp & H). apply bind_Ok in H as (m & Hm & H).
  injection H as <-. cbn [length_score word_score tld_score pattern_score memorability_score overall].
  assert (Hl : 0.3 <= calculate_length_score name).
  { unfold calculate_length_score. cbv zeta. leb_cases; lra. }
  assert (Hw : 0.5 <= calculate_word_score name).
  { unfold calculate_word_score. apply Qmin_floor; [|lra].
    repeat match goal with |- context [if ?b then _ else _] => destruct b end; lra. }
  assert (Ht : 0.4 <= calculate_tld_score tld) by apply tld_score_table.
  assert (Hpp : 0.5 <= p).
  { unfold calculate_pattern_score in Hp. apply bind_Ok in Hp as (c & _ & Hp).
    injection Hp as <-. apply Qmin_floor; [|lra].
    repeat match goal with |- context [if ?b then _ else _] => destruct b end; lra. }
  assert (Hmm : 0.5 <= m).
  { unfold calculate_memorability_score in Hm. apply bind_Ok in Hm as (e & He & Hm).
    injection Hm as <-. apply Qmin_floor; [|lra].
    assert (0 <= e).
    { unfold pydiv in He. destruct (Qeq_bool _ 0); [discriminate|]. injection He as <-.
      destruct (Qeq_dec (of_nat (length (str_lower name))) 0) as [Ez | Ez].
      - rewrite Ez. unfold Qdiv, Qinv. simpl. lra.
      - apply Qle_shift_div_l.
        + pose proof (of_nat_nonneg (length (str_lower name))). lra.
        + rewrite Qmult_0_l. apply of_nat_nonneg. }
    repeat match goal with |- context [if ?b then _ else _] => destruct b end; lra. }
  repeat split; try assumption. lra.
Qed.

Ltac floor_by k :=
  apply Qle_trans with (inject_Z k / 1000);
  [ vm_compute; discriminate
  | apply round3_floor;
    match goal with
    | H : ?c <= ?x |- _ <= ?x => apply Qle_trans with c; [vm_compute; discriminate | exact H]
    end ].

(** X6.  Whenever [check_premium] returns, the rounded scores have a floor:
    length at least 0.3, word at least 0.5, TLD at least 0.4, pattern at
    least 0.5, memorability at least 0.5 and overall at least 0.43.  No
    domain, however poor, is scored below 0.43. *)
Theorem premium_score_floor (name tld : list N) r :
  check_premium name tld = Ok r ->
  0.3 <= length_score r /\ 0.5 <= word_score r /\ 0.4 <= tld_score r /\
  0.5 <= pattern_score r /\ 0.5 <= memorability_score r /\ 0.43 <= overall r.
Proof.
  unfold check_premium. intros H. apply bind_Ok in H as (raw & Hraw & H).
  injection H as <-. apply premium_floors in Hraw as (H1 & H2 & H3 & H4 & H5 & H6).
  unfold round_result. cbn [length_score word_score tld_score pattern_score memorability_score overall].
  repeat split.
  - floor_by 300%Z.
  - floor_by 500%Z.
  - floor_by 400%Z.
  - floor_by 500%Z.
  - floor_by 500%Z.
  - floor_by 430%Z.
Qed.

End PremiumFacts.

(** X6, witness: the name [x9-qq] under the unlisted TLD [zz]. *)
Lemma premium_score_floor_witness :
  exists r, premium_score.check_premium (U := ascii_table) (lit "x9-qq") (lit "zz") = Ok r /\
            (0.43 <= premium_score.overall r)%Q.
Proof.
  eexists. split; [reflexivity|].
  eapply (premium_score_floor (U := ascii_table) (lit "x9-qq") (lit "zz")). reflexivity.
Defined.

(** X4, witness: a name of 2 characters against one of 19. *)
Lemma shorter_names_score_higher_witness :
  (premium_score.calculate_length_score (lit "superlongdomainname")
   <= premium_score.calculate_length_score (lit "ai"))%Q.
Proof.
  apply (shorter_names_score_higher (lit "ai") (lit "superlongdomainname")). simpl. lia.
Defined.

(** ** Delta reports read in both directions *)

Section CompareFacts.
Local Open Scope Q_scope.

Lemma run_evaluation_classify_flip d :
  run_evaluation.classify (- d) = flip_arrow (run_evaluation.classify d).
Proof.
  unfold run_evaluation.classify.
  destruct (Qltb 0 d) eqn:E1; [apply Qltb_lt in E1 | apply Qltb_ge in E1];
  destruct (Qltb d 0) eqn:E2; [apply Qltb_lt in E2 | apply Qltb_ge in E2 | apply Qltb_lt in E2 | apply Qltb_ge in E2];
  destruct (Qltb 0 (- d)) eqn:E3; [apply Qltb_lt in E3 | apply Qltb_ge in E3 | apply Qltb_lt in E3 | apply Qltb_ge in E3 | apply Qltb_lt in E3 | apply Qltb_ge in E3 | apply Qltb_lt in E3 | apply Qltb_ge in E3];
  destruct (Qltb (- d) 0) eqn:E4; try (apply Qltb_lt in E4); try (apply Qltb_ge in E4);
  simpl; try reflexivity; lra.
Qed.

Lemma eval_model_classify_flip d :
  eval_model.classify (- d) = flip_arrow (eval_model.classify d).
Proof.
  unfold eval_model.classify.
  destruct (Qltb 0.001 d) eqn:E1; [apply Qltb_lt in E1 | apply Qltb_ge in E1];
  destruct (Qltb d (-0.001)) eqn:E2; [apply Qltb_lt in E2 | apply Qltb_ge in E2 | apply Qltb_lt in E2 | apply Qltb_ge in E2];
  destruct (Qltb 0.001 (- d)) eqn:E3; [apply Qltb_lt in E3 | apply Qltb_ge in E3 | apply Qltb_lt in E3 | apply Qltb_ge in E3 | apply Qltb_lt in E3 | apply Qltb_ge in E3 | apply Qltb_lt in E3 | apply Qltb_ge in E3];
  destruct (Qltb (- d) (-0.001)) eqn:E4; try (apply Qltb_lt in E4); try (apply Qltb_ge in E4);
  simpl; try reflexivity; lra.
Qed.

Lemma Qltb_proper a b c d : a == b -> c == d -> Qltb a c = Qltb b d.
Proof.
  intros E1 E2.
  destruct (Qltb a c) eqn:H1; [apply Qltb_lt in H1 | apply Qltb_ge in H1];
    symmetry; [apply Qltb_lt | apply Qltb_ge]; lra.
Qed.

Lemma classify_proper (f : Q -> arrow) :
  (f = run_evaluation.classify \/ f = eval_model.classify) ->
  forall a b, a == b -> f a = f b.
Proof.
  intros [-> | ->] a b E; unfold run_evaluation.classify, eval_model.classify.
  - now rewrite (Qltb_proper 0 0 a b), (Qltb_proper a b 0 0).
  - now rewrite (Qltb_proper 0.001 0.001 a b), (Qltb_proper a b (-0.001) (-0.001)).
Qed.

(** X7.  Exchanging the two result files flips every arrow, for
    [run_evaluation.compare_results] and for
    [eval_model.compare_with_baseline] alike: up becomes down, down becomes
    up, unchanged stays.  Comparing a file with itself reports all five
    metrics unchanged. *)
Theorem swapped_reports_flip (r1 r2 : results) :
  List.map arrow_of (run_evaluation.compare_results r2 r1)
    = List.map flip_arrow (List.map arrow_of (run_evaluation.compare_results r1 r2)) /\
  List.map arrow_of (eval_model.compare_with_baseline r2 r1)
    = List.map flip_arrow (List.map arrow_of (eval_model.compare_with_baseline r1 r2)) /\
  List.map arrow_of (run_evaluation.compare_results r1 r1)
    = [Unchanged; Unchanged; Unchanged; Unchanged; Unchanged].
Proof.
  assert (F1 : forall a b, run_evaluation.classify (a - b)
                           = flip_arrow (run_evaluation.classify (b - a))).
  { intros a b. rewrite <- run_evaluation_classify_flip.
    apply classify_proper; [now left | lra]. }
  assert (F2 : forall a b, eval_model.classify (a - b)
                           = flip_arrow (eval_model.classify (b - a))).
  { intros a b. rewrite <- eval_model_classify_flip.
    apply classify_proper; [now right | lra]. }
  assert (F3 : forall a, run_evaluation.classify (a - a) = Unchanged).
  { intros a. apply run_evaluation_classify_unchanged. lra. }
  unfold run_evaluation.compare_results, eval_model.compare_with_baseline, metrics, arrow_of.
  cbn [List.map fst snd]. rewrite !F3.
  rewrite (F1 (constraints_avg_overall r1)), (F1 (diversity_avg_overall r1)),
    (F1 (pronounceability_avg_overall r1)), (F1 (premium_avg_overall r1)),
    (F1 (combined_score r1)).
  rewrite (F2 (constraints_avg_overall r1)), (F2 (diversity_avg_overall r1)),
    (F2 (pronounceability_avg_overall r1)), (F2 (premium_avg_overall r1)),
    (F2 (combined_score r1)).
  repeat split.
Qed.

End CompareFacts.

(** ** The diversity rubric: order of the names, and repeats *)

Section DiversityFacts.
Import diversity_metrics.
Local Open Scope Q_scope.

Lemma distinct_perm {A} `{Countable A} (l l' : list A) :
  Permutation l l' -> distinct l = distinct l'.
Proof. intros Hp. unfold distinct. now rewrite (list_to_set_perm_L l l' Hp). Qed.

Lemma filter_perm {A} (f : A -> bool) (l l' : list A) :
  Permutation l l' -> Permutation (List.filter f l) (List.filter f l').
Proof.
  induction 1 as [|x l l' _ IH|x y l|l l' l'' _ IH1 _ IH2]; simpl.
  - reflexivity.
  - destruct (f x); [now apply perm_skip | exact IH].
  - destruct (f x), (f y); try reflexivity. apply perm_swap.
  - now transitivity (List.filter f l').
Qed.

Lemma concat_perm {A} (l l' : list (list A)) :
  Permutation l l' -> Permutation (concat l) (concat l').
Proof.
  induction 1 as [|x l l' _ IH|x y l|l l' l'' _ IH1 _ IH2]; simpl.
  - reflexivity.
  - now apply Permutation_app_head.
  - rewrite !app_assoc. apply Permutation_app_tail, Permutation_app_comm.
  - now transitivity (concat l').
Qed.

Lemma ratio_perm {A} `{Countable A} (l l' : list A) (d : res Q) :
  Permutation l l' ->
  match l with [] => d | _ :: _ => pydiv (of_nat (distinct l)) (of_nat (length l)) end
  = match l' with [] => d | _ :: _ => pydiv (of_nat (distinct l')) (of_nat (length l')) end.
Proof.
  intros Hp. pose proof (Permutation_length Hp) as Hl.
  rewrite <- (distinct_perm l l' Hp).
  destruct l, l'; try discriminate; [reflexivity|]. now rewrite Hl.
Qed.

Lemma perm_nonempty {A} (x : A) l l' : Permutation (x :: l) l' -> exists y k, l' = y :: k.
Proof.
  intros Hp. destruct l' as [|y k]; [|eauto].
  apply Permutation_sym, Permutation_nil in Hp. discriminate.
Qed.

(** X8.  The diversity scores do not depend on the order of the names: for
    two name lists that are permutations of each other, the local variables
    of [check_diversity] (TTR, duplicate rate, character, prefix and suffix
    diversity and the overall score) are the same, exceptions included. *)
Theorem diversity_ignores_order (names names' : list (list N)) :
  Permutation names names' ->
  diversity_locals names = diversity_locals names'.
Proof.
  intros Hp. destruct names as [|n ns].
  { apply Permutation_nil in Hp. now subst. }
  destruct (perm_nonempty _ _ _ Hp) as (n' & ns' & ->).
  unfold diversity_locals.
  assert (E1 : calculate_ttr (n :: ns) = calculate_ttr (n' :: ns')).
  { unfold calculate_ttr. apply ratio_perm, concat_perm, Permutation_map, Hp. }
  assert (E2 : calculate_duplicate_rate (n :: ns) = calculate_duplicate_rate (n' :: ns')).
  { unfold calculate_duplicate_rate.
    now rewrite (distinct_perm _ _ Hp), (Permutation_length Hp). }
  assert (E3 : calculate_char_diversity (n :: ns) = calculate_char_diversity (n' :: ns')).
  { unfold calculate_char_diversity.
    pose proof (concat_perm _ _ Hp) as Hc.
    destruct (concat (n :: ns)) as [|c cs] eqn:Ec.
    - apply Permutation_nil in Hc. now rewrite Hc.
    - destruct (perm_nonempty _ _ _ Hc) as (c' & cs' & Ec'). rewrite Ec'.
      rewrite Ec' in Hc. now rewrite (distinct_perm _ _ Hc). }
  assert (E4 : forall k, calculate_prefix_diversity (n :: ns) k
                         = calculate_prefix_diversity (n' :: ns') k).
  { intros k. unfold calculate_prefix_diversity.
    apply ratio_perm, Permutation_map, filter_perm, Hp. }
  assert (E5 : forall k, calculate_suffix_diversity (n :: ns) k
                         = calculate_suffix_diversity (n' :: ns') k).
  { intros k. unfold calculate_suffix_diversity.
    apply ratio_perm, Permutation_map, filter_perm, Hp. }
  now rewrite E1, E2, E3, E4, E5.
Qed.

Lemma distinct_cons {A} `{Countable A} (x : A) (l : list A) :
  distinct (x :: l) = if bool_decide (x ∈ l) then distinct l else S (distinct l).
Proof.
  unfold distinct. rewrite list_to_set_cons.
  destruct (bool_decide (x ∈ l)) eqn:E.
  - apply bool_decide_eq_true in E. f_equal.
    apply set_eq. intros y. rewrite elem_of_union, elem_of_singleton, !elem_of_list_to_set.
    split; [intros [-> | Hy]; assumption | auto].
  - apply bool_decide_eq_false in E.
    rewrite size_union, size_singleton; [reflexivity|].
    intros y Hy1 Hy2. apply elem_of_singleton in Hy1 as ->.
    apply elem_of_list_to_set in Hy2. contradiction.
Qed.

Lemma distinct_all {A} `{Countable A} (l : list A) :
  distinct l = length l <-> NoDup l.
Proof.
  induction l as [|x l IH].
  - split; [constructor | reflexivity].
  - rewrite distinct_cons. pose proof (distinct_le l) as Hle. cbn [length].
    destruct (bool_decide (x ∈ l)) eqn:E.
    + apply bool_decide_eq_true in E. split; [lia|].
      intros Hn. apply NoDup_cons in Hn as [Hx _]. contradiction.
    + apply bool_decide_eq_false in E. rewrite NoDup_cons. split.
      * intros Hd. split; [exact E | apply IH; lia].
      * intros [_ Hn]. apply IH in Hn. lia.
Qed.

Lemma distinct_pos {A} `{Countable A} (x : A) (l : list A) : (1 <= distinct (x :: l))%nat.
Proof.
  rewrite distinct_cons. destruct (bool_decide (x ∈ l)) eqn:E; [|lia].
  apply bool_decide_eq_true in E. destruct l as [|y l]; [inversion E|].
  clear E. revert y. induction l as [|z l IH]; intros y.
  - rewrite distinct_cons. simpl. lia.
  - rewrite distinct_cons. destruct (bool_decide _); [apply IH | lia].
Qed.

(** X9.  For a non-empty list of names [calculate_duplicate_rate] returns
    without exception 1 - unique / total, a number in [[0, 1)] (never 1,
    since one name at least is unique), and it is 0 exactly when no name
    occurs twice. *)
Theorem duplicate_rate_of_repeats (names : list (list N)) :
  names <> [] ->
  exists r,
    calculate_duplicate_rate names = Ok r /\
    r == 1 - of_nat (distinct names) / of_nat (length names) /\
    0 <= r /\ r < 1 /\ (r == 0 <-> NoDup names).
Proof.
  intros Hne. destruct names as [|n ns]; [contradiction|].
  set (names := n :: ns).
  assert (Hlen : 0 < of_nat (length names)) by (apply of_nat_pos; simpl; lia).
  assert (Hd : 0 < of_nat (distinct names)) by (apply of_nat_pos, distinct_pos).
  pose proof (of_nat_le _ _ (distinct_le names)) as Hle.
  unfold calculate_duplicate_rate. fold names.
  rewrite pydiv_Ok by lra. eexists. split; [reflexivity|].
  assert (E : (of_nat (length names) - of_nat (distinct names)) / of_nat (length names)
              == 1 - of_nat (distinct names) / of_nat (length names)) by (field; lra).
  split; [exact E|]. rewrite E.
  assert (Hr : 0 < of_nat (distinct names) / of_nat (length names)).
  { apply Qlt_shift_div_l; lra. }
  assert (Hr1 : of_nat (distinct names) / of_nat (length names) <= 1).
  { apply Qle_shift_div_r; lra. }
  split; [lra|]. split; [lra|].
  rewrite <- distinct_all. split.
  - intros H0.
    assert (Heq : of_nat (distinct names) == of_nat (length names)).
    { assert (Hq : of_nat (distinct names) / of_nat (length names) == 1) by lra.
      rewrite <- (Qmult_1_l (of_nat (length names))), <- Hq. field. lra. }
    unfold of_nat in Heq. rewrite inject_Z_injective in Heq. now apply Nat2Z.inj.
  - intros ->. field. lra.
Qed.

(** X9, witness: one name of three repeated once gives the rate 1/3. *)
Lemma duplicate_rate_of_repeats_witness :
  exists r,
    calculate_duplicate_rate [lit "nova"; lit "nova"; lit "zen"] = Ok r /\ r == 1 # 3.
Proof.
  destruct (duplicate_rate_of_repeats [lit "nova"; lit "nova"; lit "zen"])
    as (r & Hr & Hv & _); [discriminate|].
  exists r. split; [exact Hr|]. rewrite Hv. reflexivity.
Defined.

(** X8, witness: three names and a rotation of them. *)
Lemma diversity_ignores_order_witness :
  diversity_locals [lit "nova"; lit "zen"; lit "brewly"]
  = diversity_locals [lit "brewly"; lit "nova"; lit "zen"].
Proof.
  apply diversity_ignores_order.
  change (Permutation ([lit "nova"; lit "zen"] ++ [lit "brewly"])
                      ([lit "brewly"] ++ [lit "nova"; lit "zen"])).
  apply Permutation_app_comm.
Defined.

End DiversityFacts.

(** ** Batch evaluation and the dataset report *)

Section BatchFacts.
Import pronounceability(mapM, mean).
Import run_evaluation_batch.
Local Open Scope Q_scope.
Context {U : Unicode}.

Lemma avg_unit {A} (f : A -> Q) (results : list A) :
  results <> [] ->
  List.Forall (fun r => unit_interval (f r)) results ->
  exists a, avg f results (length results) = Ok a /\ unit_interval a.
Proof.
  intros Hne H. unfold avg.
  destruct (mean_unit f results Hne H) as (m & -> & Hm). cbn [bind].
  eexists. split; [reflexivity | now apply round3_unit].
Qed.

Lemma avg_of {A} (P : A -> Prop) (f : A -> Q) (results : list A) :
  results <> [] -> List.Forall P results ->
  (forall r, P r -> unit_interval (f r)) ->
  exists a, avg f results (length results) = Ok a /\ unit_interval a.
Proof.
  intros Hne H Hf. apply avg_unit; [exact Hne|].
  eapply List.Forall_impl; [|exact H]. exact Hf.
Qed.

Lemma scored_samples {R} (check : sample -> res R) (P : R -> Prop) (samples : list sample) :
  (forall s, exists r, check s = Ok r /\ P r) ->
  samples <> [] ->
  exists results,
    mapM check samples = Ok results /\ List.Forall P results /\
    length results = length samples /\ results <> [].
Proof.
  intros Hcheck Hne.
  destruct (mapM_Ok check P samples) as (results & E & Hall & Hlen).
  { apply List.Forall_forall. intros s _. apply Hcheck. }
  exists results. repeat split; try assumption.
  intros ->. destruct samples; [contradiction | discriminate].
Qed.

Ltac batch_mean Hne Hall :=
  match goal with
  | |- context [avg ?f ?results (length ?results)] =>
      let a := fresh "a" in
      let Ha := fresh "Ha" in
      destruct (avg_of _ f results Hne Hall) as (a & -> & Ha);
      [intros ? Hr; apply Hr | cbn [bind]]
  end.

Ltac batch_finish results Hall Hlen Hres :=
  let En := fresh "En" in
  cbn [bind]; cbv zeta;
  destruct (length results) eqn:En;
  [destruct results; [contradiction | discriminate]|];
  rewrite <- En in Hlen |- *; repeat batch_mean Hres Hall;
  eexists; split; [rewrite <- Hlen; reflexivity|].

Ltac batch_report check_unit :=
  let results := fresh "results" in
  let Hall := fresh "Hall" in
  let Hlen := fresh "Hlen" in
  let Hres := fresh "Hres" in
  match goal with
  | Hne : _ <> [] |- context [mapM ?check ?samples] =>
      destruct (scored_samples check _ samples check_unit Hne)
        as (results & -> & Hall & Hlen & Hres);
      batch_finish results Hall Hlen Hres
  end.

(** A scorer that may raise [e]: the list of results, or [e] from the
    first sample that raises. *)
Lemma mapM_cases {A B} (f : A -> res B) (P : B -> Prop) (e : pyerr) (l : list A) :
  List.Forall (fun x => (exists y, f x = Ok y /\ P y) \/ f x = Raise e) l ->
  (exists ys, mapM f l = Ok ys /\ List.Forall P ys /\ length ys = length l /\
              List.Forall (fun x => exists y, f x = Ok y) l) \/
  (mapM f l = Raise e /\ List.Exists (fun x => f x = Raise e) l).
Proof.
  induction 1 as [|x l Hx _ IH]; simpl.
  - left. exists []. repeat split; constructor.
  - destruct Hx as [(y & Hy & HP) | Hx].
    + rewrite Hy. cbn [bind].
      destruct IH as [(ys & -> & Hall & Hlen & Hok) | (-> & Hex)].
      * left. exists (y :: ys). cbn [bind]. split; [reflexivity|].
        split; [now constructor|]. split; [simpl; lia|]. constructor; [eauto | exact Hok].
      * right. split; [reflexivity | now apply List.Exists_cons_tl].
    + rewrite Hx. right. split; [reflexivity | now apply List.Exists_cons_hd].
Qed.

Lemma eval_constraints_cases (samples : list sample) :
  samples <> [] ->
  (List.Forall (fun s => exists r,
                  constraint_satisfaction.check_constraints (prompt s) (response s) = Ok r)
               samples /\
   exists r, eval_constraints samples = Ok (BatchReport (length samples) r) /\
             constraint_in_unit r) \/
  (List.Exists (fun s => constraint_satisfaction.check_constraints (prompt s) (response s)
                         = Raise ValueError) samples /\
   eval_constraints samples = Raise ValueError).
Proof.
  intros Hne. unfold eval_constraints.
  destruct (mapM_cases
              (fun s => constraint_satisfaction.check_constraints (prompt s) (response s))
              constraint_in_unit ValueError samples)
    as [(results & -> & Hall & Hlen & Hok) | (-> & Hex)].
  { apply List.Forall_forall. intros s _.
    destruct (check_constraints_cases (prompt s) (response s))
      as [(r & Er & Hr & _) | (Er & _)]; [left; eauto | now right]. }
  - left. split; [exact Hok|].
    assert (Hres : results <> []).
    { intros ->. destruct samples; [contradiction | discriminate]. }
    batch_finish results Hall Hlen Hres.
    unfold constraint_in_unit. cbn. auto.
  - right. split; [exact Hex | reflexivity].
Qed.

Lemma short_prompts_checked (samples : list sample) :
  List.Forall (fun s => within_int_limit (str_lower (prompt s))) samples ->
  ~ List.Exists (fun s => constraint_satisfaction.check_constraints (prompt s) (response s)
                          = Raise ValueError) samples.
Proof.
  intros Hs Hex. apply List.Exists_exists in Hex as (s & Hin & Hr).
  rewrite List.Forall_forall in Hs.
  destruct (check_constraints_short (prompt s) (response s) (Hs s Hin)) as (r & E & _).
  congruence.
Qed.

Lemma eval_diversity_report (samples : list sample) :
  samples <> [] ->
  exists r, eval_diversity samples = Ok (BatchReport (length samples) r) /\
            diversity_in_unit r.
Proof.
  intros Hne. unfold eval_diversity.
  batch_report (fun s => check_diversity_unit (response s)).
  unfold diversity_in_unit. cbn. auto 10.
Qed.

Lemma eval_pronounceability_report (samples : list sample) :
  samples <> [] ->
  exists r, eval_pronounceability samples = Ok (BatchReport (length samples) r) /\
            pronounceability_in_unit r.
Proof.
  intros Hne. unfold eval_pronounceability.
  batch_report (fun s => check_pronounceability_response_unit (response s)).
  unfold pronounceability_in_unit. cbn. auto.
Qed.

Lemma eval_premium_report (samples : list sample) :
  samples <> [] ->
  exists r, eval_premium samples = Ok (BatchReport (length samples) r) /\
            premium_in_unit r.
Proof.
  intros Hne. unfold eval_premium.
  batch_report (fun s => check_premium_response_unit (response s)).
  unfold premium_in_unit. cbn. auto 10.
Qed.

(** X10.  The four [evaluate_batch] functions.  On an empty list of samples
    each returns the dictionary with the single key [error] (No samples to
    evaluate).  On a non-empty list the diversity, pronounceability and
    premium batches return, without exception, a report whose [num_samples]
    is the number of samples and whose rounded means all lie in [[0, 1]].
    The constraint batch returns such a report when [check_constraints]
    returns for every sample, which it does when every prompt has at most
    4300 characters; it raises [ValueError] when [check_constraints] raises
    it for some sample. *)
Theorem evaluate_batch_reports (samples : list sample) :
  (samples = [] ->
   eval_constraints samples = Ok (BatchError "No samples to evaluate") /\
   eval_diversity samples = Ok (BatchError "No samples to evaluate") /\
   eval_pronounceability samples = Ok (BatchError "No samples to evaluate") /\
   eval_premium samples = Ok (BatchError "No samples to evaluate")) /\
  (samples <> [] ->
   (exists d p m,
      eval_diversity samples = Ok (BatchReport (length samples) d) /\
      eval_pronounceability samples = Ok (BatchReport (length samples) p) /\
      eval_premium samples = Ok (BatchReport (length samples) m) /\
      diversity_in_unit d /\ pronounceability_in_unit p /\ premium_in_unit m) /\
   ((List.Forall (fun s => exists r,
                    constraint_satisfaction.check_constraints (prompt s) (response s) = Ok r)
                 samples /\
     exists c, eval_constraints samples = Ok (BatchReport (length samples) c) /\
               constraint_in_unit c) \/
    (List.Exists (fun s => constraint_satisfaction.check_constraints (prompt s) (response s)
                           = Raise ValueError) samples /\
     eval_constraints samples = Raise ValueError)) /\
   (List.Forall (fun s => within_int_limit (str_lower (prompt s))) samples ->
    exists c, eval_constraints samples = Ok (BatchReport (length samples) c) /\
              constraint_in_unit c)).
Proof.
  split.
  - intros ->. repeat split; reflexivity.
  - intros Hne.
    destruct (eval_diversity_report samples Hne) as (d & Ed & Hd).
    destruct (eval_pronounceability_report samples Hne) as (p & Ep & Hp).
    destruct (eval_premium_report samples Hne) as (m & Em & Hm).
    split; [exists d, p, m; repeat (split; [assumption|]); assumption|].
    split; [now apply eval_constraints_cases|].
    intros Hs. destruct (eval_constraints_cases samples Hne) as [[_ H] | [Hex _]];
      [exact H | now apply short_prompts_checked in Hex].
Qed.





End BatchFacts.

(** ** [Counter], [most_common] and the cross-batch report *)

Section CounterFacts.
Import run_evaluation_batch.

Lemma count_for_add (x y : list N) (counts : list (list N * nat)) :
  count_for y (count_add x counts)
  = count_for y counts + (if bool_decide (y = x) then 1 else 0).
Proof.
  induction counts as [|[z k] counts IH]; simpl.
  - destruct (bool_decide (y = x)); reflexivity.
  - destruct (bool_decide (x = z)) eqn:Exz; simpl.
    + apply bool_decide_eq_true in Exz. subst z.
      destruct (bool_decide (y = x)); lia.
    + apply bool_decide_eq_false in Exz.
      destruct (bool_decide (y = z)) eqn:Eyz; [|exact IH].
      apply bool_decide_eq_true in Eyz. subst z.
      rewrite bool_decide_eq_false_2 by congruence. lia.
Qed.

Lemma keys_add (x : list N) (counts : list (list N * nat)) :
  (In x (List.map fst counts) /\
   List.map fst (count_add x counts) = List.map fst counts) \/
  (~ In x (List.map fst counts) /\
   List.map fst (count_add x counts) = List.map fst counts ++ [x]).
Proof.
  induction counts as [|[z k] counts IH]; simpl.
  - right. tauto.
  - destruct (bool_decide (x = z)) eqn:Exz; simpl.
    + apply bool_decide_eq_true in Exz. subst z. left. tauto.
    + apply bool_decide_eq_false in Exz.
      destruct IH as [[Hin ->] | [Hnot ->]]; [left; tauto|].
      right. split; [|reflexivity]. intros [E | E]; [congruence | contradiction].
Qed.

Lemma positive_add (x : list N) (counts : list (list N * nat)) :
  List.Forall (fun e => 1 <= snd e) counts ->
  List.Forall (fun e => 1 <= snd e) (count_add x counts).
Proof.
  induction 1 as [|[z k] counts Hz Hrest IH]; simpl.
  - repeat constructor.
  - destruct (bool_decide (x = z)); constructor; simpl in *; try assumption; lia.
Qed.

Lemma occurrences_snoc (y x : list N) (l : list (list N)) :
  occurrences y (l ++ [x]) = occurrences y l + (if bool_decide (y = x) then 1 else 0).
Proof.
  unfold occurrences, count_if. rewrite List.filter_app, length_app. simpl.
  destruct (bool_decide (y = x)); reflexivity.
Qed.

Lemma occurrences_pos (x : list N) (l : list (list N)) : In x l -> 1 <= occurrences x l.
Proof.
  intros H. unfold occurrences, count_if.
  assert (Hin : In x (List.filter (fun y => bool_decide (x = y)) l)).
  { apply List.filter_In. split; [exact H | now apply bool_decide_eq_true_2]. }
  destruct (List.filter _ l); [contradiction | simpl; lia].
Qed.

(** What the counter holds after the elements of [l], in the order read. *)
Lemma Counter_spec (l : list (list N)) :
  NoDup (List.map fst (Counter l)) /\
  List.Forall (fun e => 1 <= snd e) (Counter l) /\
  (forall y, count_for y (Counter l) = occurrences y l) /\
  (forall y, In y (List.map fst (Counter l)) <-> In y l).
Proof.
  unfold Counter. induction l as [|x l IH] using rev_ind.
  - simpl. repeat split; try constructor; tauto.
  - rewrite fold_left_app. cbn [fold_left].
    destruct IH as (Hnd & Hpos & Hcount & Hkeys).
    split; [|split; [|split]].
    + destruct (keys_add x (fold_left (fun counts x => count_add x counts) l []))
        as [[_ ->] | [E ->]]; [exact Hnd|].
      apply NoDup_app. split; [exact Hnd|]. split.
      * intros y Hy Hy'. apply list_elem_of_In in Hy, Hy'.
        destruct Hy' as [<- | []]. contradiction.
      * apply NoDup_singleton.
    + now apply positive_add.
    + intros y. rewrite count_for_add, occurrences_snoc. now rewrite Hcount.
    + intros y. rewrite in_app_iff. simpl.
      destruct (keys_add x (fold_left (fun counts x => count_add x counts) l []))
        as [[E ->] | [E ->]].
      * rewrite Hkeys. split; [tauto|].
        intros [Hy | [<- | []]]; [exact Hy | now apply Hkeys].
      * rewrite in_app_iff, Hkeys. simpl. tauto.
Qed.

Lemma count_for_In (y : list N) (k : nat) (counts : list (list N * nat)) :
  NoDup (List.map fst counts) -> In (y, k) counts -> count_for y counts = k.
Proof.
  induction counts as [|[z j] counts IH]; simpl; [tauto|].
  intros Hnd [E | Hin].
  - injection E as -> ->. now rewrite bool_decide_eq_true_2.
  - apply NoDup_cons in Hnd as [Hz Hnd].
    rewrite bool_decide_eq_false_2; [now apply IH|].
    intros ->. apply Hz. apply list_elem_of_In.
    change z with (fst (z, k)). now apply in_map.
Qed.

Lemma Counter_length (l : list (list N)) : length (Counter l) = distinct l.
Proof.
  destruct (Counter_spec l) as (Hnd & _ & _ & Hkeys).
  unfold distinct.
  assert (E : (list_to_set l : gset (list N)) = list_to_set (List.map fst (Counter l))).
  { apply set_eq. intros y. rewrite !elem_of_list_to_set, !list_elem_of_In.
    symmetry. apply Hkeys. }
  rewrite E, size_list_to_set by exact Hnd. now rewrite length_map.
Qed.

Lemma insert_by_count_perm x l : Permutation (insert_by_count x l) (x :: l).
Proof.
  induction l as [|y l IH]; simpl; [reflexivity|].
  destruct (snd x <? snd y); [|reflexivity].
  rewrite IH. apply perm_swap.
Qed.

Lemma by_count_perm (counts : list (list N * nat)) :
  Permutation (fold_right insert_by_count [] counts) counts.
Proof.
  induction counts as [|x l IH]; simpl; [reflexivity|].
  rewrite insert_by_count_perm. now apply perm_skip.
Qed.

Lemma insert_by_count_sorted x l :
  StronglySorted (fun a b : list N * nat => snd b <= snd a) l ->
  StronglySorted (fun a b : list N * nat => snd b <= snd a) (insert_by_count x l).
Proof.
  induction 1 as [|y l Hs IH Hy]; simpl; [repeat constructor|].
  destruct (snd x <? snd y) eqn:E.
  - apply Nat.ltb_lt in E. constructor; [exact IH|].
    eapply Permutation_Forall; [symmetry; apply insert_by_count_perm|].
    constructor; [lia | exact Hy].
  - apply Nat.ltb_ge in E. constructor; [now constructor|].
    constructor; [exact E|].
    eapply List.Forall_impl; [|exact Hy]. simpl. intros z Hz. lia.
Qed.

Lemma by_count_sorted (counts : list (list N * nat)) :
  StronglySorted (fun a b => snd b <= snd a) (fold_right insert_by_count [] counts).
Proof.
  induction counts as [|x l IH]; simpl; [constructor | now apply insert_by_count_sorted].
Qed.

Lemma sorted_app {A} (R : A -> A -> Prop) (a b : list A) :
  StronglySorted R (a ++ b) ->
  StronglySorted R a /\ List.Forall (fun x => List.Forall (R x) b) a.
Proof.
  induction a as [|x a IH]; simpl; intros H.
  - split; constructor.
  - apply StronglySorted_inv in H as [Hs Hx]. destruct (IH Hs) as [Ha Hb].
    apply Forall_app in Hx as [Hxa Hxb].
    split; constructor; assumption.
Qed.

Lemma most_common_Counter (n : nat) (l : list (list N)) :
  top_counts n l (most_common n (Counter l)).
Proof.
  destruct (Counter_spec l) as (Hnd & Hpos & Hcount & Hkeys).
  unfold most_common.
  set (sorted := fold_right insert_by_count [] (Counter l)).
  assert (Hperm : Permutation sorted (Counter l)) by apply by_count_perm.
  assert (Hsorted : StronglySorted (fun a b => snd b <= snd a) sorted) by apply by_count_sorted.
  assert (Hnd' : NoDup (List.map fst sorted)).
  { assert (Hp : Permutation (List.map fst sorted) (List.map fst (Counter l)))
      by apply Permutation_map, Hperm.
    now rewrite Hp. }
  assert (Hentry : forall e, In e sorted -> snd e = occurrences (fst e) l /\ 1 <= snd e).
  { intros [y k] He. simpl.
    assert (Hin : In (y, k) (Counter l)) by (eapply Permutation_in; eassumption).
    split.
    - rewrite <- Hcount. symmetry. now apply count_for_In.
    - apply (proj1 (List.Forall_forall _ _) Hpos (y, k) Hin). }
  rewrite <- (firstn_skipn n sorted) in Hsorted, Hnd'.
  apply sorted_app in Hsorted as [Htop Hrest].
  rewrite map_app in Hnd'. apply NoDup_app in Hnd' as (Hnd1 & _ & _).
  unfold top_counts. split; [|split; [|split; [|split]]].
  - rewrite length_firstn. unfold sorted.
    rewrite (Permutation_length (by_count_perm (Counter l))), Counter_length. reflexivity.
  - exact Hnd1.
  - apply List.Forall_forall. intros e He. apply Hentry.
    rewrite <- (firstn_skipn n sorted). apply in_or_app. now left.
  - exact Htop.
  - intros x Hx Hnot.
    apply Hkeys in Hx. apply in_map_iff in Hx as ([y k] & Ey & Hin). simpl in Ey. subst y.
    assert (Hs : In (x, k) sorted).
    { eapply Permutation_in; [symmetry; exact Hperm | exact Hin]. }
    destruct (Hentry _ Hs) as [Hk _]. simpl in Hk.
    rewrite <- (firstn_skipn n sorted) in Hs. apply in_app_or in Hs as [Hs | Hs].
    + exfalso. apply Hnot. change x with (fst (x, k)). now apply in_map.
    + eapply List.Forall_impl; [|exact Hrest].
      intros e He. rewrite <- Hk.
      apply (proj1 (List.Forall_forall _ _) He (x, k) Hs).
Qed.

(** X12.  [evaluate_cross_batch_diversity] returns the [error] dictionary
    on an empty list.  On a non-empty list it returns the number of names,
    the number of distinct names (at least 1, at most the total), their
    rounded ratio in [[0, 1]], and three rankings (names, 3-character
    prefixes and suffixes of the names of length 3 or more).  Each ranking
    lists min(10, number of distinct entries) different entries, each with
    its exact number of occurrences, in descending order of that number,
    and nothing left out occurs more often than anything listed. *)
Theorem cross_batch_report (all_names : list (list N)) :
  (all_names = [] ->
   evaluate_cross_batch_diversity all_names = Ok (inl "No names to evaluate"%string)) /\
  (all_names <> [] ->
   exists r,
     evaluate_cross_batch_diversity all_names = Ok (inr r) /\
     total_names r = length all_names /\
     unique_names r = distinct all_names /\
     (1 <= unique_names r <= total_names r) /\
     unit_interval (unique_ratio r) /\
     top_counts 10 all_names (most_common_names r) /\
     top_counts 10 (List.map (firstn 3) (List.filter (fun n => 3 <=? length n) all_names))
                (most_common_prefixes r) /\
     top_counts 10 (List.map (fun n => skipn (length n - 3) n)
                             (List.filter (fun n => 3 <=? length n) all_names))
                (most_common_suffixes r)).
Proof.
  split; [intros ->; reflexivity|].
  intros Hne. destruct all_names as [|n ns]; [contradiction|].
  set (all_names := n :: ns).
  assert (Hd : 1 <= distinct all_names) by apply (distinct_pos n ns).
  assert (Hle : distinct all_names <= length all_names) by apply distinct_le.
  unfold evaluate_cross_batch_diversity. fold all_names.
  destruct (pydiv_nat_unit (distinct all_names) (length all_names)) as [-> [Hu0 Hu1]];
    [exact Hle | lia |].
  cbn [bind]. eexists. split; [reflexivity|]. cbn -[all_names].
  split; [reflexivity|]. split; [reflexivity|]. split; [lia|].
  split; [apply round3_unit; split; assumption|].
  split; [|split]; apply most_common_Counter.
Qed.

End CounterFacts.

(** ** The blend of any number of judges *)

Section JudgeRange.
Import generate_preferences.
Local Open Scope Q_scope.

Lemma call_judge_within (lo hi : Q) (r : reply) :
  lo <= 5 -> 5 <= hi -> task_within lo hi (Call r) -> rubric_within lo hi (call_judge r).
Proof.
  intros Hlo Hhi H.
  assert (Hn : rubric_within lo hi neutral).
  { intros k Hk. exists 5. split; [now apply neutral_lookup | split; assumption]. }
  destruct r; simpl in *; assumption.
Qed.

(** The state of the loop of lines 180-190: nothing blended yet, or every
    rubric field holds a sum that lies between [lo] and [hi] times the
    weight collected so far. *)
Lemma blend_loop_within (lo hi : Q)
    (f : gmap (list N) Q * Q -> (list N * judge_config) * gathered -> gmap (list N) Q * Q)
    (zs : list ((list N * judge_config) * gathered)) :
  (forall cs tw j, f (cs, tw) (j, Exception) = (cs, tw)) ->
  (forall cs tw j r,
     f (cs, tw) (j, Returned r) = (add_scores (weight (snd j)) r cs, tw + weight (snd j))) ->
  List.Forall (fun z => 0 < weight (snd (fst z)) /\
                        match snd z with
                        | Returned r => rubric_within lo hi r
                        | Exception => True
                        end) zs ->
  forall st : gmap (list N) Q * Q,
    ((fst st = ∅ /\ snd st == 0) \/
     (0 < snd st /\
      forall k, In k rubric_keys ->
                exists x, fst st !! k = Some x /\ lo * snd st <= x /\ x <= hi * snd st)) ->
    let st' := fold_left f zs st in
    (fst st' = ∅ /\ snd st' == 0) \/
    (0 < snd st' /\
     forall k, In k rubric_keys ->
               exists x, fst st' !! k = Some x /\ lo * snd st' <= x /\ x <= hi * snd st').
Proof.
  intros Hexc Hret. induction 1 as [|[j g] zs [Hw Hg] _ IH]; intros [cs tw] Hst; [exact Hst|].
  cbn [fold_left]. apply IH. cbn [fst snd] in *.
  destruct g as [r|]; [|rewrite Hexc; exact Hst].
  rewrite Hret. cbn [fst snd]. right.
  destruct Hst as [[-> Htw] | [Htw Hcs]].
  - split; [lra|]. intros k Hk. destruct (Hg k Hk) as (v & Hv & Hv1 & Hv2).
    rewrite lookup_add_scores, Hv, lookup_empty. eexists. split; [reflexivity|].
    cbn [from_option id].
    assert (E1 : lo * tw == 0) by (rewrite Htw; ring).
    assert (E2 : hi * tw == 0) by (rewrite Htw; ring).
    assert (L1 : lo * weight (snd j) <= v * weight (snd j))
      by (apply Qmult_le_compat_r; lra).
    assert (L2 : v * weight (snd j) <= hi * weight (snd j))
      by (apply Qmult_le_compat_r; lra).
    split; lra.
  - split; [lra|]. intros k Hk. destruct (Hg k Hk) as (v & Hv & Hv1 & Hv2).
    destruct (Hcs k Hk) as (x & Hx & Hx1 & Hx2).
    rewrite lookup_add_scores, Hv, Hx. eexists. split; [reflexivity|].
    cbn [from_option id].
    assert (L1 : lo * weight (snd j) <= v * weight (snd j))
      by (apply Qmult_le_compat_r; lra).
    assert (L2 : v * weight (snd j) <= hi * weight (snd j))
      by (apply Qmult_le_compat_r; lra).
    split; lra.
Qed.

Lemma zip_Forall {A B} (P : A -> Prop) (R : B -> Prop) (l : list A) (k : list B) :
  List.Forall P l -> List.Forall R k ->
  List.Forall (fun z => P (fst z) /\ R (snd z)) (zip l k).
Proof.
  intros Hl. revert k. induction Hl as [|x l Hx _ IH]; intros k Hk; [constructor|].
  destruct Hk as [|y k Hy Hk]; [constructor|].
  simpl. constructor; [split; assumption | now apply IH].
Qed.

Lemma final_score_within (lo hi : Q) (d : gmap (list N) Q) :
  (forall k, In k rubric_keys -> exists x, d !! k = Some x /\ lo <= x /\ x <= hi) ->
  lo <= final_score d /\ final_score d <= hi.
Proof.
  intros H. unfold final_score.
  destruct (H brandability) as (b & Eb & ? & ?); [simpl; tauto|].
  destruct (H pronounceability) as (p & Ep & ? & ?); [simpl; tauto|].
  destruct (H constraint) as (c & Ec & ? & ?); [simpl; tauto|].
  destruct (H creativity) as (cr & Ecr & ? & ?); [simpl; tauto|].
  destruct (H overall) as (o & Eo & ? & ?); [simpl; tauto|].
  rewrite (get_Some _ _ _ _ Eb), (get_Some _ _ _ _ Ep), (get_Some _ _ _ _ Ec),
          (get_Some _ _ _ _ Ecr), (get_Some _ _ _ _ Eo).
  split; lra.
Qed.

(** The blended dictionary of [score_candidate]: empty when nothing was
    blended, otherwise every rubric field within the range. *)
Lemma blend_within (lo hi : Q)
    (active_judges : list (list N * judge_config)) (tasks : list task) :
  lo <= 5 -> 5 <= hi ->
  List.Forall (fun j => 0 < weight (snd j)) active_judges ->
  List.Forall (task_within lo hi) tasks ->
  fst (blend active_judges (gather tasks)) = ∅ \/
  (forall k, In k rubric_keys ->
             exists x, fst (blend active_judges (gather tasks)) !! k = Some x /\
                       lo <= x /\ x <= hi).
Proof.
  intros Hlo Hhi Hw Ht.
  assert (Hg : List.Forall (fun g => match g with
                                     | Returned r => rubric_within lo hi r
                                     | Exception => True
                                     end) (gather tasks)).
  { unfold gather. apply Forall_map. eapply List.Forall_impl; [|exact Ht].
    intros [r|] Hr; [now apply call_judge_within | exact I]. }
  pose proof (zip_Forall _ _ _ _ Hw Hg) as Hz.
  unfold blend.
  match goal with
  | |- context [fold_left ?f ?zs ?st] =>
      pose proof (blend_loop_within lo hi f zs (fun _ _ _ => eq_refl) (fun _ _ _ _ => eq_refl)
                    Hz st) as Hinv;
      destruct (fold_left f zs st) as [cs tw]
  end.
  cbn [fst snd] in Hinv. cbn [fst].
  destruct Hinv as [[-> Htw] | [Htw Hcs]]; [left; split; [reflexivity | reflexivity]| |].
  - assert (E : Qltb 0 tw = false) by (apply Qltb_ge; lra). rewrite E. now left.
  - assert (E : Qltb 0 tw = true) by (apply Qltb_lt; exact Htw). rewrite E.
    right. intros k Hk. destruct (Hcs k Hk) as (x & Hx & Hx1 & Hx2).
    rewrite lookup_fmap, Hx. eexists. split; [reflexivity|]. split.
    + apply Qle_shift_div_l; [exact Htw | exact Hx1].
    + apply Qle_shift_div_r; [exact Htw | exact Hx2].
Qed.

Lemma final_score_empty : final_score ∅ == 5.
Proof. unfold final_score, get. rewrite !lookup_empty. reflexivity. Qed.

(** X13.  The blend of any number of judges stays within the range of
    their verdicts.  If every judge weight is positive and every parsed
    verdict has the five rubric fields within [[lo, hi]], where
    [lo <= 5 <= hi] (5 is the value substituted for a failed call), then
    the final score of [score_candidate] lies within [[lo, hi]], and so
    does every rubric field of the blended scores it returns, however many
    calls fail or raise. *)
Theorem judged_score_range (lo hi : Q) (domain : list N)
    (active_judges : list (list N * judge_config)) (tasks : list task) :
  lo <= 5 -> 5 <= hi ->
  List.Forall (fun j => 0 < weight (snd j)) active_judges ->
  List.Forall (task_within lo hi) tasks ->
  let c := score_candidate domain active_judges tasks in
  (lo <= combined_score c /\ combined_score c <= hi) /\
  (forall k x, In k rubric_keys -> scores c !! k = Some x -> lo <= x /\ x <= hi).
Proof.
  intros Hlo Hhi Hw Ht. cbv zeta. unfold score_candidate. cbn [combined_score scores].
  destruct (blend_within lo hi active_judges tasks Hlo Hhi Hw Ht) as [-> | Hin].
  - split.
    + rewrite final_score_empty. split; assumption.
    + intros k x _ Hx. rewrite lookup_empty in Hx. discriminate.
  - split; [now apply final_score_within|].
    intros k x Hk Hx. destruct (Hin k Hk) as (y & Hy & Hy1 & Hy2).
    rewrite Hy in Hx. injection Hx as <-. split; assumption.
Qed.

(** X13, witness: the two configured judges, one verdict and one timeout,
    on the scale from 1 to 10. *)
Lemma judged_score_range_witness :
  1 <= combined_score (score_candidate (lit "nova.io") JUDGES
                         [Call (Parsed (rubric 8 7 9 6 8)); Call TimeoutException]) /\
  combined_score (score_candidate (lit "nova.io") JUDGES
                    [Call (Parsed (rubric 8 7 9 6 8)); Call TimeoutException]) <= 10.
Proof.
  apply (judged_score_range 1 10 (lit "nova.io") JUDGES
           [Call (Parsed (rubric 8 7 9 6 8)); Call TimeoutException]).
  - vm_compute. discriminate.
  - vm_compute. discriminate.
  - repeat constructor.
  - constructor; [|repeat constructor].
    intros k Hk. simpl in Hk.
    destruct Hk as [<- | [<- | [<- | [<- | [<- | []]]]]];
      (eexists; split; [reflexivity | split; vm_compute; discriminate]).
Defined.

(** X14.  If no judge returns a parsed verdict (every call fails inside
    [call_judge] or raises), the final score of [score_candidate] is the
    neutral 5, for any positive weights. *)
Theorem all_judges_failed_neutral (domain : list N)
    (active_judges : list (list N * judge_config)) (tasks : list task) :
  List.Forall (fun j => 0 < weight (snd j)) active_judges ->
  List.Forall task_failed tasks ->
  combined_score (score_candidate domain active_judges tasks) == 5.
Proof.
  intros Hw Hf.
  assert (Ht : List.Forall (task_within 5 5) tasks).
  { eapply List.Forall_impl; [|exact Hf].
    intros [[]|] H; simpl in *; try exact I. contradiction. }
  unfold score_candidate. cbn [combined_score].
  destruct (blend_within 5 5 active_judges tasks) as [-> | Hin];
    [lra | lra | exact Hw | exact Ht | apply final_score_empty |].
  destruct (final_score_within 5 5 _ Hin) as [H1 H2]. lra.
Qed.

(** X14, witness: one judge answers with status 429, the other call raises. *)
Lemma all_judges_failed_neutral_witness :
  combined_score (score_candidate (lit "nova.io") JUDGES
                    [Call (BadStatus 429); Escapes]) == 5.
Proof.
  apply all_judges_failed_neutral.
  - repeat constructor.
  - repeat constructor.
Defined.

End JudgeRange.

(** ** The preference records of one prompt *)

Section PromptPairs.
Import generate_preferences preference_data.
Local Open Scope Q_scope.
Context {U : Unicode}.

Lemma slice_to_In {A} (l : list A) (n : Z) (x : A) : In x (slice_to l n) -> In x l.
Proof.
  assert (T : forall k, In x (firstn k l) -> In x l).
  { intros k H. rewrite <- (firstn_skipn k l). apply in_or_app. now left. }
  unfold slice_to. destruct (0 <=? n)%Z; apply T.
Qed.

Lemma all_domains_In (candidates_text : list (list N)) (x : list N) : forall acc,
  In x (fold_left (fun all_domains resp => all_domains ++ extract_domains_from_response resp)
                  candidates_text acc) ->
  In x acc \/ exists resp, In resp candidates_text /\ In x (extract_domains_from_response resp).
Proof.
  induction candidates_text as [|resp rest IH]; intros acc H; [now left|].
  cbn [fold_left] in H. apply IH in H as [H | (r & Hr & Hx)].
  - apply in_app_or in H as [H | H]; [now left|].
    right. exists resp. split; [now left | exact H].
  - right. exists r. split; [now right | exact Hx].
Qed.

Lemma candidate_pool_In (candidates_text : list (list N)) (candidates_per_prompt : Z)
    (pool : list (list N)) (x : list N) :
  candidate_pool candidates_text candidates_per_prompt = Some pool ->
  In x pool ->
  exists resp, In resp candidates_text /\ In x (extract_domains_from_response resp).
Proof.
  unfold candidate_pool. intros H Hx.
  match type of H with
  | (if ?b then _ else _) = _ => destruct b; [discriminate|]
  end.
  injection H as <-. apply slice_to_In in Hx.
  apply list_elem_of_In, elem_of_elements, elem_of_list_to_set, list_elem_of_In in Hx.
  apply all_domains_In in Hx as [[] | Hx]. exact Hx.
Qed.

Lemma candidate_pool_NoDup (candidates_text : list (list N)) (candidates_per_prompt : Z)
    (pool : list (list N)) :
  candidate_pool candidates_text candidates_per_prompt = Some pool -> NoDup pool.
Proof.
  unfold candidate_pool. intros H.
  match type of H with
  | (if ?b then _ else _) = _ => destruct b; [discriminate|]
  end.
  injection H as <-. apply slice_to_NoDup, NoDup_elements.
Qed.

Lemma NoDup_map_filter {A B} (f : A -> B) (p : A -> bool) (l : list A) :
  NoDup (List.map f l) -> NoDup (List.map f (List.filter p l)).
Proof.
  induction l as [|x l IH]; simpl; [trivial|].
  intros H. apply NoDup_cons in H as [Hx Hl].
  destruct (p x); [|now apply IH]. simpl. apply NoDup_cons. split; [|now apply IH].
  intros Hin. apply Hx. apply list_elem_of_In in Hin. apply list_elem_of_In.
  apply in_map_iff in Hin as (y & <- & Hy). apply in_map. apply List.filter_In in Hy. tauto.
Qed.

(** X15.  The preference records that the loop of [main] writes for one
    prompt.  Every record carries the prompt; its chosen and rejected domains
    are different strings, both extracted from some response of that prompt
    by [extract_domains_from_response]; the scores are the final scores of
    [score_candidate] for these two domains and the chosen one is more than
    0.5 higher.  All records of the prompt have the same chosen domain, and
    no domain is rejected twice. *)
Theorem prompt_pairs_sound (prompt : list N) (candidates_text : list (list N))
    (candidates_per_prompt : Z) (active_judges : list (list N * judge_config))
    (outcome : list N -> list task) :
  let pairs := prompt_pairs prompt candidates_text candidates_per_prompt active_judges outcome in
  List.Forall
    (fun p =>
       pair_prompt p = prompt /\
       chosen p <> rejected p /\
       0.5 < chosen_score p - rejected_score p /\
       (exists resp, In resp candidates_text /\
                     In (chosen p) (extract_domains_from_response resp)) /\
       (exists resp, In resp candidates_text /\
                     In (rejected p) (extract_domains_from_response resp)) /\
       chosen_score p
       = combined_score (score_candidate (chosen p) active_judges (outcome (chosen p))) /\
       rejected_score p
       = combined_score (score_candidate (rejected p) active_judges (outcome (rejected p))))
    pairs /\
  (forall p q, In p pairs -> In q pairs -> chosen p = chosen q) /\
  NoDup (List.map rejected pairs).
Proof.
  cbv zeta. unfold prompt_pairs.
  destruct (candidate_pool candidates_text candidates_per_prompt) as [pool|] eqn:Epool.
  2:{ repeat split; [constructor | intros p q [] | constructor]. }
  rewrite fold_left_snoc_map, app_nil_l.
  set (score := fun d => score_candidate d active_judges (outcome d)).
  set (scored := List.map score pool).
  set (record := fun '(chosen, rejected) =>
                   {| pair_prompt := prompt; chosen := domain chosen;
                      rejected := domain rejected;
                      chosen_score := combined_score chosen;
                      rejected_score := combined_score rejected |}).
  destruct (Nat.lt_ge_cases (length scored) 2) as [Hshort | Hlong].
  { rewrite (create_preference_pairs_short scored Hshort).
    repeat split; [constructor | intros p q [] | constructor]. }
  destruct (create_preference_pairs_best scored Hlong) as (best & others & Es & ->).
  pose proof (sorted_desc_perm scored) as Hperm. rewrite Es in Hperm.
  assert (Hscored : forall c, In c scored -> In (domain c) pool /\ c = score (domain c)).
  { intros c Hc. apply in_map_iff in Hc as (d & <- & Hd). split; [exact Hd | reflexivity]. }
  assert (Hdom : List.map domain scored = pool).
  { unfold scored. rewrite map_map. apply map_id. }
  assert (Hnd : NoDup (List.map domain (best :: others))).
  { assert (Hp : Permutation (List.map domain (best :: others)) (List.map domain scored))
      by apply Permutation_map, Hperm.
    rewrite Hp, Hdom. eapply candidate_pool_NoDup, Epool. }
  cbn [List.map] in Hnd. apply NoDup_cons in Hnd as [Hbest Hothers].
  assert (Hb : In best scored) by (eapply Permutation_in; [exact Hperm | now left]).
  split; [|split].
  - apply List.Forall_forall. intros p Hp.
    apply in_map_iff in Hp as ([c o0] & <- & Hp).
    apply in_map_iff in Hp as (o & E & Ho). injection E as <- <-.
    apply List.filter_In in Ho as [Ho Hbeats].
    assert (Hos : In o scored) by (eapply Permutation_in; [exact Hperm | now right]).
    destruct (Hscored _ Hb) as [Hbp Hbe]. destruct (Hscored _ Hos) as [Hop Hoe].
    cbn. split; [reflexivity|]. split; [|split; [|split; [|split; [|split]]]].
    + intros E. apply Hbest. rewrite E. apply list_elem_of_In. now apply in_map.
    + apply Qltb_lt. exact Hbeats.
    + eapply candidate_pool_In; eassumption.
    + eapply candidate_pool_In; eassumption.
    + now rewrite Hbe at 1.
    + now rewrite Hoe at 1.
  - intros p q Hp Hq.
    apply in_map_iff in Hp as ([c o] & <- & Hp). apply in_map_iff in Hp as (? & E & _).
    injection E as <- _.
    apply in_map_iff in Hq as ([c' o'] & <- & Hq). apply in_map_iff in Hq as (? & E & _).
    injection E as <- _. reflexivity.
  - rewrite !map_map. cbn. now apply NoDup_map_filter.
Qed.

End PromptPairs.

(** ** Splitting the dataset *)

Section SplitFacts.
Import split_dataset.

Lemma int_train (n : nat) : int (of_nat n * TRAIN_RATIO) = 4 * n / 5.
Proof.
  unfold int, TRAIN_RATIO, of_nat, inject_Z, Qmult, Qfloor. cbn [Qnum Qden].
  change (1 * 10)%positive with 10%positive.
  apply Nat2Z.inj. rewrite Z2Nat.id by (apply Z.div_pos; lia).
  rewrite Nat2Z.inj_div, Nat2Z.inj_mul. change (Z.of_nat 4) with 4%Z.
  change (Z.of_nat 5) with 5%Z.
  rewrite <- (Z.div_mul_cancel_l (4 * Z.of_nat n) 5 2) by lia.
  f_equal. lia.
Qed.

Lemma int_val (n : nat) : int (of_nat n * VAL_RATIO) = n / 10.
Proof.
  unfold int, VAL_RATIO, of_nat, inject_Z, Qmult, Qfloor. cbn [Qnum Qden].
  change (1 * 10)%positive with 10%positive.
  apply Nat2Z.inj. rewrite Z2Nat.id by (apply Z.div_pos; lia).
  rewrite Nat2Z.inj_div. change (Z.of_nat 10) with 10%Z. f_equal. lia.
Qed.

(** X16.  [split_dataset] raises [ZeroDivisionError] on an empty dataset,
    when it prints the shares, before anything is saved.  On a non-empty
    dataset it cuts the shuffled data into three consecutive pieces: train,
    validation and test concatenated give the data back, so no sample is
    lost or used twice.  Train has floor(4n/5) samples, validation
    floor(n/10), and test the remainder, which is at least the size of
    validation and at most two more. *)
Theorem split_dataset_partitions {A} (data : list A) :
  (data = [] -> split_dataset data = Raise ZeroDivisionError) /\
  (data <> [] ->
   exists train_data val_data test_data,
     split_dataset data = Ok (train_data, val_data, test_data) /\
     train_data ++ val_data ++ test_data = data /\
     length train_data = 4 * length data / 5 /\
     length val_data = length data / 10 /\
     length val_data <= length test_data <= length val_data + 2).
Proof.
  split; [intros ->; reflexivity|].
  intros Hne. unfold split_dataset, slice. rewrite int_train, int_val.
  assert (Htotal : ~ (of_nat (length data) == 0)%Q).
  { assert (0 < of_nat (length data))%Q.
    { apply of_nat_pos. destruct data; [contradiction | simpl; lia]. }
    lra. }
  cbv zeta. rewrite !pydiv_Ok by exact Htotal. cbn [bind].
  eexists _, _, _. split; [reflexivity|].
  set (n := length data). set (a := 4 * n / 5). set (b := n / 10).
  assert (Ha : 5 * a <= 4 * n < 5 * a + 5).
  { unfold a. pose proof (Nat.div_mod_eq (4 * n) 5).
    pose proof (Nat.mod_upper_bound (4 * n) 5). lia. }
  assert (Hb : 10 * b <= n < 10 * b + 10).
  { unfold b. pose proof (Nat.div_mod_eq n 10).
    pose proof (Nat.mod_upper_bound n 10). lia. }
  replace (a + b - a) with b by lia.
  assert (E : skipn (a + b) data = skipn b (skipn a data)).
  { rewrite skipn_skipn. f_equal. lia. }
  rewrite E. split; [|split; [|split]].
  - now rewrite firstn_skipn, firstn_skipn.
  - rewrite length_firstn. fold n. lia.
  - rewrite length_firstn, length_skipn. fold n. lia.
  - rewrite length_firstn, !length_skipn. fold n. lia.
Qed.

End SplitFacts.

(** ** Loading the test prompts *)

Section LoaderFacts.
Import preference_data.

Lemma load_loop_extends (lines : list json_line) (num_prompts : Z) :
  forall prompts, exists more, load_loop lines num_prompts prompts = prompts ++ more.
Proof.
  induction lines as [|data lines IH]; intros prompts; cbn [load_loop].
  - exists []. now rewrite app_nil_r.
  - destruct (num_prompts <=? Z.of_nat (length prompts))%Z;
      [exists []; now rewrite app_nil_r|].
    destruct (line_prompt data) as [p|].
    { destruct (IH (prompts ++ [{| tp_prompt := p;
                                   expected := default [] (line_response data) |}]))
        as (more & ->).
      eexists. now rewrite <- app_assoc. }
    destruct (line_messages data) as [messages|]; [|apply IH].
    destruct (first_user messages) as [msg|]; [|apply IH].
    destruct (IH (prompts ++ [{| tp_prompt := content msg;
                                 expected := expected_of messages |}]))
      as (more & ->).
    eexists. now rewrite <- app_assoc.
Qed.

Lemma load_loop_length (lines : list json_line) (num_prompts : Z) :
  forall prompts,
    length (load_loop lines num_prompts prompts)
    <= Nat.max (length prompts) (Z.to_nat num_prompts).
Proof.
  induction lines as [|data lines IH]; intros prompts; cbn [load_loop]; [lia|].
  destruct (num_prompts <=? Z.of_nat (length prompts))%Z eqn:E; [lia|].
  apply Z.leb_gt in E.
  assert (Hstep : forall x : test_prompt,
             length (load_loop lines num_prompts (prompts ++ [x]))
             <= Nat.max (length prompts) (Z.to_nat num_prompts)).
  { intros x. etransitivity; [apply IH|]. rewrite length_app. cbn [length]. lia. }
  destruct (line_prompt data) as [p|]; [apply Hstep|].
  destruct (line_messages data) as [messages|]; [|apply IH].
  destruct (first_user messages) as [msg|]; [apply Hstep | apply IH].
Qed.

Lemma load_loop_agree (lines : list json_line) (num_prompts : Z) :
  forall prompts,
    List.map tp_prompt (load_loop lines num_prompts prompts)
    = generate_model_responses.load_loop lines num_prompts (List.map tp_prompt prompts).
Proof.
  induction lines as [|data lines IH]; intros prompts;
    cbn [load_loop generate_model_responses.load_loop]; [reflexivity|].
  rewrite length_map.
  destruct (num_prompts <=? Z.of_nat (length prompts))%Z; [reflexivity|].
  destruct (line_prompt data) as [p|]; [rewrite IH, map_app; reflexivity|].
  destruct (line_messages data) as [messages|]; [|apply IH].
  destruct (first_user messages) as [msg|]; [rewrite IH, map_app; reflexivity | apply IH].
Qed.

Lemma load_loop_limit (lines : list json_line) (n m : Z) :
  (n <= m)%Z ->
  forall prompts,
    length prompts <= Z.to_nat n ->
    load_loop lines n prompts = firstn (Z.to_nat n) (load_loop lines m prompts).
Proof.
  intros Hnm. induction lines as [|data lines IH]; intros prompts Hlen; cbn [load_loop].
  - now rewrite firstn_all2.
  - destruct (n <=? Z.of_nat (length prompts))%Z eqn:En.
    + apply Z.leb_le in En.
      assert (El : Z.to_nat n = length prompts) by lia.
      match goal with
      | |- _ = firstn _ ?r =>
          assert (Hext : exists more, r = prompts ++ more)
      end.
      { destruct (m <=? Z.of_nat (length prompts))%Z;
          [exists []; now rewrite app_nil_r|].
        destruct (line_prompt data) as [p|].
        { destruct (load_loop_extends lines m
                      (prompts ++ [{| tp_prompt := p;
                                      expected := default [] (line_response data) |}]))
            as (more & ->).
          eexists. now rewrite <- app_assoc. }
        destruct (line_messages data) as [messages|]; [|apply load_loop_extends].
        destruct (first_user messages) as [msg|]; [|apply load_loop_extends].
        destruct (load_loop_extends lines m
                    (prompts ++ [{| tp_prompt := content msg;
                                    expected := expected_of messages |}]))
          as (more & ->).
        eexists. now rewrite <- app_assoc. }
      destruct Hext as (more & ->). rewrite El, firstn_app, Nat.sub_diag, firstn_all.
      simpl. now rewrite app_nil_r.
    + apply Z.leb_gt in En.
      assert (Em : (m <=? Z.of_nat (length prompts))%Z = false) by (apply Z.leb_gt; lia).
      rewrite Em.
      assert (Hstep : forall x : test_prompt, length (prompts ++ [x]) <= Z.to_nat n).
      { intros x. rewrite length_app. cbn [length]. lia. }
      destruct (line_prompt data) as [p|]; [apply IH, Hstep|].
      destruct (line_messages data) as [messages|]; [|now apply IH].
      destruct (first_user messages) as [msg|]; [apply IH, Hstep | now apply IH].
Qed.

(** X17.  [load_test_prompts] returns at most [num_prompts] entries (none
    for a negative [num_prompts]); the loader of
    [generate_model_responses.py] returns exactly the prompts of these
    entries; and a larger limit only appends: the result for [num_prompts]
    is the first [num_prompts] entries of the result for any larger
    limit. *)
Theorem load_test_prompts_limit (lines : list json_line) (num_prompts : Z) :
  length (load_test_prompts lines num_prompts) <= Z.to_nat num_prompts /\
  List.map tp_prompt (load_test_prompts lines num_prompts)
  = generate_model_responses.load_test_prompts lines num_prompts /\
  (forall more : Z,
     (num_prompts <= more)%Z ->
     load_test_prompts lines num_prompts
     = firstn (Z.to_nat num_prompts) (load_test_prompts lines more)).
Proof.
  unfold load_test_prompts, generate_model_responses.load_test_prompts.
  split; [|split].
  - pose proof (load_loop_length lines num_prompts []) as H. simpl in H. lia.
  - apply (load_loop_agree lines num_prompts []).
  - intros more H. apply load_loop_limit; [exact H | simpl; lia].
Qed.

End LoaderFacts.

(** ** Replies wrapped in a fenced code block *)

Section FenceFacts.
Import generate_preferences preference_data.

Lemma startswith_app (sep rest : list N) : startswith (sep ++ rest) sep = true.
Proof.
  induction sep as [|a sep IH]; simpl; [now destruct rest|].
  now rewrite N.eqb_refl, IH.
Qed.

Lemma startswith_prefix (s p q : list N) :
  startswith s (p ++ q) = true -> startswith s p = true.
Proof.
  revert s. induction p as [|a p IH]; intros s H; [now destruct s|].
  destruct s as [|c s]; simpl in *; [discriminate|].
  apply andb_true_iff in H as [-> H]. now apply IH.
Qed.

Lemma contains_prefix (s p q : list N) :
  contains s (p ++ q) = true -> contains s p = true.
Proof.
  induction s as [|c s IH]; cbn [contains]; intros H.
  - apply orb_true_iff in H as [H | H]; [|discriminate].
    apply startswith_prefix in H. now rewrite H.
  - apply orb_true_iff in H as [H | H].
    + apply startswith_prefix in H. now rewrite H.
    + rewrite (IH H). apply orb_true_r.
Qed.

(** A separator that starts with a backtick is not found inside a text
    without backticks. *)
Lemma fence_skips (sep' pre rest : list N) :
  no_backtick pre ->
  contains (pre ++ (96%N :: sep') ++ rest) (96%N :: sep') = true /\
  before_first (96%N :: sep') (pre ++ (96%N :: sep') ++ rest) = pre /\
  after_first (96%N :: sep') (pre ++ (96%N :: sep') ++ rest) = rest.
Proof.
  induction 1 as [|c pre Hc _ IH].
  - cbn [app]. change (96%N :: sep' ++ rest) with ((96%N :: sep') ++ rest).
    pose proof (startswith_app (96%N :: sep') rest) as Hs.
    split; [|split].
    + destruct ((96%N :: sep') ++ rest) eqn:E; cbn [contains]; now rewrite Hs.
    + destruct ((96%N :: sep') ++ rest) eqn:E; [reflexivity|].
      cbn [before_first]. now rewrite Hs.
    + destruct ((96%N :: sep') ++ rest) eqn:E; [discriminate|].
      cbn [after_first]. rewrite Hs, <- E.
      rewrite skipn_app, Nat.sub_diag, skipn_all. reflexivity.
  - destruct IH as (IH1 & IH2 & IH3).
    assert (Hs : forall t, startswith (c :: t) (96%N :: sep') = false).
    { intros t. cbn [startswith]. apply andb_false_iff. left.
      apply N.eqb_neq. congruence. }
    set (X := (96%N :: sep') ++ rest) in *.
    cbn [app]. split; [|split].
    + cbn [contains]. rewrite IH1. apply orb_true_r.
    + cbn [before_first]. now rewrite Hs, IH2.
    + cbn [after_first]. now rewrite Hs, IH3.
Qed.

Lemma fence_absent (sep' s : list N) :
  no_backtick s -> before_first (96%N :: sep') s = s.
Proof.
  induction 1 as [|c s Hc _ IH]; [reflexivity|].
  cbn [before_first startswith].
  assert (E : (96 =? c)%N = false) by (apply N.eqb_neq; congruence).
  now rewrite E, IH.
Qed.

Lemma before_first_skip (sep' body rest : list N) :
  no_backtick body ->
  before_first (96%N :: sep') (body ++ rest) = body ++ before_first (96%N :: sep') rest.
Proof.
  induction 1 as [|c body Hc _ IH]; [reflexivity|].
  cbn [app before_first startswith].
  assert (E : (96 =? c)%N = false) by (apply N.eqb_neq; congruence).
  now rewrite E, IH.
Qed.

(** The text between the opening fence and what follows it, when the
    closing fence is not followed by another backtick. *)
Lemma between_json (body post : list N) :
  no_backtick body ->
  match post with c :: _ => c <> 96%N | [] => True end ->
  before_first fence (before_first fence_json (body ++ fence ++ post)) = body.
Proof.
  intros Hbody Hpost.
  change fence_json with (96%N :: skipn 1 fence_json).
  rewrite (before_first_skip (skipn 1 fence_json) body (fence ++ post) Hbody).
  change (96%N :: skipn 1 fence_json) with fence_json.
  assert (Hcase : before_first fence_json (fence ++ post) = []
                  \/ exists t, before_first fence_json (fence ++ post) = fence ++ t).
  { destruct post as [|c post].
    - right. exists []. reflexivity.
    - assert (E : (96 =? c)%N = false) by (apply N.eqb_neq; congruence).
      change fence with [96; 96; 96]%N.
      change fence_json with [96; 96; 96; 106; 115; 111; 110]%N.
      cbn [app before_first startswith]. rewrite !N.eqb_refl, !E. cbn [andb].
      match goal with
      | |- context [if ?b then _ else _] => destruct b; [now left|]
      end.
      right. eexists. reflexivity. }
  destruct Hcase as [-> | (t & ->)].
  - rewrite app_nil_r. now apply fence_absent.
  - apply (fence_skips (skipn 1 fence) body t Hbody).
Qed.

(** X18.  What [call_judge] hands to the JSON parser when the reply wraps
    its answer in a fenced code block.  Let the text before the fence and the
    body contain no backtick and let the closing fence not be followed by a
    backtick.  Then a block opened with the json fence yields the body; a
    block opened with the plain fence yields the body when the json fence
    occurs nowhere in the reply; a json block that is never closed yields
    what follows the opening fence; and a reply without any fence is
    handed over unchanged. *)
Theorem unfence_fenced (pre body post : list N) :
  no_backtick pre -> no_backtick body ->
  match post with c :: _ => c <> 96%N | [] => True end ->
  unfence (pre ++ fence_json ++ body ++ fence ++ post) = body /\
  (contains (pre ++ fence ++ body ++ fence ++ post) fence_json = false ->
   unfence (pre ++ fence ++ body ++ fence ++ post) = body) /\
  unfence (pre ++ fence_json ++ body) = body /\
  (forall content, contains content fence = false -> unfence content = content).
Proof.
  intros Hpre Hbody Hpost.
  destruct (fence_skips (skipn 1 fence_json) pre (body ++ fence ++ post) Hpre)
    as (Hc & _ & Ha).
  destruct (fence_skips (skipn 1 fence) pre (body ++ fence ++ post) Hpre)
    as (Hc' & _ & Ha').
  destruct (fence_skips (skipn 1 fence_json) pre body Hpre) as (Hc'' & _ & Ha'').
  change (96%N :: skipn 1 fence_json) with fence_json in *.
  change (96%N :: skipn 1 fence) with fence in *.
  split; [|split; [|split]].
  - unfold unfence, between. rewrite Hc, Ha. now apply between_json.
  - intros Hno. unfold unfence, between. rewrite Hno, Hc', Ha'.
    destruct (fence_skips (skipn 1 fence) body post Hbody) as (_ & Hb & _).
    change (96%N :: skipn 1 fence) with fence in Hb.
    rewrite Hb. now apply (fence_absent (skipn 1 fence)).
  - unfold unfence, between. rewrite Hc'', Ha''.
    change (before_first fence_json body)
      with (before_first (96%N :: skipn 1 fence_json) body).
    rewrite (fence_absent (skipn 1 fence_json) body Hbody).
    now apply (fence_absent (skipn 1 fence)).
  - intros content Hno. unfold unfence. rewrite Hno.
    destruct (contains content fence_json) eqn:E; [|reflexivity].
    change fence_json with (fence ++ lit "json") in E.
    apply contains_prefix in E. congruence.
Qed.

(** X18, witness: a reply with one json block. *)
Lemma unfence_fenced_witness :
  unfence (lit "Scores:" ++ fence_json ++ lit "{}" ++ fence ++ lit " done") = lit "{}".
Proof.
  apply (unfence_fenced (lit "Scores:") (lit "{}") (lit " done")).
  - repeat constructor; discriminate.
  - repeat constructor; discriminate.
  - discriminate.
Defined.

End FenceFacts.

(** ** The floor of the pronounceability score *)

Section PronounceFloor.
Import pronounceability.
Local Open Scope Q_scope.
Context {U : Unicode}.

Lemma letters_stable (s : list N) :
  List.Forall (fun c => az c = true) s ->
  str_lower s = s /\ List.filter chr_isalpha s = s.
Proof.
  intros H. split.
  - apply str_lower_stable. eapply List.Forall_impl; [|exact H]. apply az_stable.
  - induction H as [|c s Hc _ IH]; [reflexivity|]. simpl.
    destruct (az_stable c Hc) as [Ha _].
    rewrite (chr_isalpha_ascii c Ha). unfold ascii_alpha. rewrite Hc. simpl. now rewrite IH.
Qed.

Lemma filter_az (s : list N) : List.Forall (fun c => az c = true) (List.filter az s).
Proof. apply List.Forall_forall. intros c Hc. apply List.filter_In in Hc. tauto. Qed.

Lemma vowel_ratio_floor (alpha_name : list N) :
  alpha_name <> [] -> List.Forall (fun c => az c = true) alpha_name ->
  exists v, calculate_vowel_ratio alpha_name = Ok v /\ 0.2 <= v /\ v <= 1.
Proof.
  intros Hne Haz. unfold calculate_vowel_ratio.
  destruct (letters_stable alpha_name Haz) as [-> ->].
  destruct alpha_name as [|c cs]; [contradiction|].
  rewrite pydiv_Ok.
  2:{ assert (0 < of_nat (length (c :: cs))) by (apply of_nat_pos; simpl; lia). lra. }
  cbn [bind].
  repeat match goal with |- context [if ?b then _ else _] => destruct b end;
    eexists; (split; [reflexivity | split; vm_compute; discriminate]).
Qed.

Lemma cluster_score_floor (name : list N) : 0.2 <= calculate_consonant_cluster_score name.
Proof.
  unfold calculate_consonant_cluster_score.
  destruct (fold_left _ BAD_PATTERNS 0%nat) as [|[|[|n]]]; vm_compute; discriminate.
Qed.

Lemma length_score_floor (name : list N) : 0.3 <= calculate_length_score name.
Proof.
  unfold calculate_length_score.
  repeat match goal with |- context [if ?b then _ else _] => destruct b end;
    vm_compute; discriminate.
Qed.

(** X19.  [check_pronounceability] always returns.  For a name without a
    letter [a-z] every field is 0.  For any other name the vowel score and
    the cluster score are at least 0.2, the length score at least 0.3 and
    the overall score at least 0.165: no name with a letter scores between
    0 and 0.165. *)
Theorem pronounceability_floor (name : list N) :
  exists r,
    check_pronounceability name = Ok r /\
    ((List.filter az (str_lower name) = [] /\
      r = Build_PronounceabilityResult 0 0 0 0 0) \/
     (List.filter az (str_lower name) <> [] /\
      0.2 <= vowel_ratio r /\ 0.2 <= consonant_cluster_score r /\
      0 <= pattern_score r /\ 0.3 <= length_score r /\ 0.165 <= overall r)).
Proof.
  unfold check_pronounceability.
  pose proof (filter_az (str_lower name)) as Haz.
  destruct (List.filter az (str_lower name)) as [|c cs] eqn:Ea.
  { eexists. split; [reflexivity|]. left. split; reflexivity. }
  set (alpha_name := c :: cs) in *.
  unfold pronounceability_locals.
  destruct (vowel_ratio_floor alpha_name) as (v & -> & Hv & _); [discriminate | exact Haz|].
  cbn [bind]. eexists. split; [reflexivity|]. right. split; [discriminate|].
  pose proof (cluster_score_floor alpha_name) as Hc.
  pose proof (calculate_pattern_score_unit alpha_name) as [Hp _].
  pose proof (length_score_floor name) as Hl.
  unfold round_result.
  cbn [vowel_ratio consonant_cluster_score pattern_score length_score overall].
  assert (F : forall (k : Z) (c0 x : Q),
             c0 == inject_Z k / 1000 -> c0 <= x -> c0 <= round3 x).
  { intros k c0 x E H. rewrite E. apply round3_floor. now rewrite <- E. }
  split; [apply (F 200%Z); [reflexivity | exact Hv]|].
  split; [apply (F 200%Z); [reflexivity | exact Hc]|].
  split; [apply (F 0%Z); [reflexivity | exact Hp]|].
  split; [apply (F 300%Z); [reflexivity | exact Hl]|].
  apply (F 165%Z); [reflexivity|]. lra.
Qed.

End PronounceFloor.

(** ** What [extract_domains_from_response] leaves of a line *)

Section CleanFacts.
Import generate_preferences.
Context {U : Unicode}.

Lemma lstrip_suffix (p : N -> bool) (s : list N) : exists a, s = a ++ lstrip p s.
Proof.
  induction s as [|c s (a & IH)]; [now exists []|].
  cbn [lstrip]. destruct (p c); [|now exists []].
  exists (c :: a). simpl. now rewrite <- IH.
Qed.

Lemma lstrip_head (p : N -> bool) (s : list N) :
  match lstrip p s with c :: _ => p c = false | [] => True end.
Proof.
  induction s as [|c s IH]; [exact I|].
  cbn [lstrip]. destruct (p c) eqn:E; [exact IH | exact E].
Qed.

Lemma strip_parts (p : N -> bool) (s : list N) :
  exists a b, s = a ++ strip p s ++ b /\ lstrip p s = strip p s ++ b.
Proof.
  unfold strip. destruct (lstrip_suffix p s) as (a & Ha).
  destruct (lstrip_suffix p (rev (lstrip p s))) as (b & Hb).
  exists a, (rev b).
  assert (E : lstrip p s = rev (lstrip p (rev (lstrip p s))) ++ rev b).
  { rewrite <- rev_app_distr, <- Hb. now rewrite rev_involutive. }
  split; [|exact E]. now rewrite <- E.
Qed.

Lemma strip_substring (p : N -> bool) (s : list N) : substring (strip p s) s.
Proof. destruct (strip_parts p s) as (a & b & E & _). now exists a, b. Qed.

Lemma strip_trimmed (p : N -> bool) (s : list N) : trimmed p (strip p s).
Proof.
  split.
  - destruct (strip_parts p s) as (a & b & _ & E).
    pose proof (lstrip_head p s) as H. rewrite E in H.
    destruct (strip p s); [exact I | exact H].
  - unfold strip. rewrite rev_involutive. apply lstrip_head.
Qed.

Lemma substring_trans (a b c : list N) : substring a b -> substring b c -> substring a c.
Proof.
  intros (x & y & ->) (x' & y' & ->). exists (x' ++ x), (y ++ y').
  now rewrite <- !app_assoc.
Qed.

Lemma startswith_app_l (s t sep : list N) :
  startswith s sep = true -> startswith (s ++ t) sep = true.
Proof.
  revert s. induction sep as [|a sep IH]; intros s H; [now destruct (s ++ t)|].
  destruct s as [|c s]; simpl in *; [discriminate|].
  apply andb_true_iff in H as [-> H]. now rewrite IH.
Qed.

Lemma contains_substring (t s sep : list N) :
  substring t s -> contains t sep = true -> contains s sep = true.
Proof.
  intros (a & b & ->) H.
  assert (Hb : contains (t ++ b) sep = true).
  { clear a. induction t as [|c t IH]; cbn [contains app] in *.
    - apply orb_true_iff in H as [H | H]; [|discriminate].
      apply (startswith_app_l [] b) in H. simpl in H.
      destruct b; cbn [contains]; now rewrite H.
    - apply orb_true_iff in H as [H | H].
      + apply (startswith_app_l (c :: t) b) in H.
        change ((c :: t) ++ b) with (c :: t ++ b) in H. now rewrite H.
      + rewrite (IH H). apply orb_true_r. }
  induction a as [|c a IH]; [exact Hb|].
  cbn [app contains]. rewrite IH. apply orb_true_r.
Qed.

Lemma before_first_prefix (sep s : list N) : exists rest, s = before_first sep s ++ rest.
Proof.
  induction s as [|c s (rest & IH)]; [now exists []|].
  cbn [before_first]. destruct (startswith (c :: s) sep); [now exists (c :: s)|].
  exists rest. simpl. now rewrite <- IH.
Qed.

Lemma before_first_free (sep s : list N) :
  sep <> [] -> contains (before_first sep s) sep = false.
Proof.
  intros Hsep. destruct sep as [|a sep]; [contradiction|].
  induction s as [|c s IH]; [reflexivity|].
  cbn [before_first]. destruct (startswith (c :: s) (a :: sep)) eqn:E; [reflexivity|].
  cbn [contains]. rewrite IH, orb_false_r.
  destruct (startswith (c :: before_first (a :: sep) s) (a :: sep)) eqn:E'; [|reflexivity].
  destruct (before_first_prefix (a :: sep) s) as (rest & Hrest).
  apply (startswith_app_l _ rest) in E'. simpl app in E'. rewrite <- Hrest in E'. congruence.
Qed.

Lemma cut_free (sep line : list N) :
  sep <> [] ->
  contains (if contains line sep then strip chr_isspace (before_first sep line) else line) sep
  = false.
Proof.
  intros Hsep. destruct (contains line sep) eqn:E; [|exact E].
  destruct (contains (strip chr_isspace (before_first sep line)) sep) eqn:E'; [|reflexivity].
  apply (contains_substring _ (before_first sep line)) in E'; [|apply strip_substring].
  now rewrite before_first_free in E'.
Qed.

Lemma cut_substring (sep line : list N) :
  substring (if contains line sep then strip chr_isspace (before_first sep line) else line) line.
Proof.
  destruct (contains line sep).
  - eapply substring_trans; [apply strip_substring|].
    destruct (before_first_prefix sep line) as (rest & E).
    exists [], rest. simpl. exact E.
  - exists [], []. simpl. now rewrite app_nil_r.
Qed.

Lemma clean_line_clean (line : list N) :
  trimmed chr_isspace (clean_line line) /\
  contains (clean_line line) (lit " - ") = false /\
  contains (clean_line line) (lit " (") = false.
Proof.
  unfold clean_line. cbv zeta.
  match goal with
  | |- context [strip chr_isspace (strip (chr_is 96) (strip (chr_is 42) ?l4))] =>
      set (line4 := l4)
  end.
  assert (Hsub : substring (strip chr_isspace (strip (chr_is 96) (strip (chr_is 42) line4)))
                           line4).
  { eapply substring_trans; [apply strip_substring|].
    eapply substring_trans; apply strip_substring. }
  split; [apply strip_trimmed|]. split.
  - match goal with |- ?c = false => destruct c eqn:E; [|reflexivity] end.
    apply (contains_substring _ line4) in E; [|exact Hsub].
    unfold line4 in E.
    match type of E with
    | contains (if contains ?l3 _ then _ else _) _ = true =>
        apply (contains_substring _ l3) in E; [|apply cut_substring]
    end.
    rewrite cut_free in E by discriminate. discriminate.
  - match goal with |- ?c = false => destruct c eqn:E; [|reflexivity] end.
    apply (contains_substring _ line4) in E; [|exact Hsub].
    unfold line4 in E. rewrite cut_free in E by discriminate. discriminate.
Qed.

Lemma extract_fold_clean (P : list N -> Prop) (lines : list (list N)) :
  (forall line, P (clean_line line)) ->
  forall acc,
  List.Forall P acc ->
  List.Forall P
    (fold_left (fun domains line =>
                  let line := strip chr_isspace line in
                  if is_empty line || startswith line (lit "#") || startswith line (lit "Here")
                  then domains
                  else
                    let domain := clean_line line in
                    if negb (is_empty domain) && contains domain (lit ".")
                       && (length domain <? 50)%nat
                    then domains ++ [domain] else domains)
               lines acc).
Proof.
  intros HP. induction lines as [|line lines IH]; intros acc Hacc; [exact Hacc|].
  cbn [fold_left]. apply IH. cbv zeta.
  destruct (_ || _ || _); [exact Hacc|].
  destruct (negb _ && _ && _); [|exact Hacc].
  apply Forall_app. split; [exact Hacc|]. constructor; [apply HP | constructor].
Qed.

(** X20.  Every candidate that [extract_domains_from_response] returns is
    non-empty, neither begins nor ends with white space, and contains
    neither the separator of a description (space, hyphen, space) nor an
    opening parenthesis after a space: descriptions are cut off. *)
Theorem extracted_candidates_clean (response : list N) :
  List.Forall (fun d => d <> [] /\
                        trimmed chr_isspace d /\
                        contains d (lit " - ") = false /\
                        contains d (lit " (") = false)
              (extract_domains_from_response response).
Proof.
  pose proof (extract_domains_ok response) as [_ Hdom].
  assert (Hclean : List.Forall (fun d => trimmed chr_isspace d /\
                                         contains d (lit " - ") = false /\
                                         contains d (lit " (") = false)
                               (extract_domains_from_response response)).
  { unfold extract_domains_from_response. apply Forall_take.
    apply extract_fold_clean; [apply clean_line_clean | constructor]. }
  apply List.Forall_forall. intros d Hd.
  pose proof (proj1 (List.Forall_forall _ _) Hdom d Hd) as [Hdot _].
  pose proof (proj1 (List.Forall_forall _ _) Hclean d Hd) as Hc.
  split; [|exact Hc]. intros ->. discriminate.
Qed.

End CleanFacts.

(** ** A prompt without constraints *)

Section Unconstrained.
Import constraint_satisfaction.
Local Open Scope Q_scope.
Context {U : Unicode}.

Lemma round3_one : round3 1 == 1.
Proof. vm_compute. reflexivity. Qed.

(** X21.  A prompt without constraints is fully satisfied.  If the prompt
    carries no length, TLD, prefix or suffix constraint and no count
    constraint, or the count 0 (which the code treats as no constraint
    instead of dividing by it), then for every response with at least one
    domain all five fields of [check_constraints] are 1. *)
Theorem unconstrained_prompt_full_score (prompt response : list N) :
  extract_length_constraint prompt = Ok None ->
  extract_tld_constraint prompt = None ->
  extract_prefix_suffix_constraint prompt = (None, None) ->
  (extract_count_constraint prompt = Ok None \/
   extract_count_constraint prompt = Ok (Some 0%N)) ->
  parse_domains_from_response response <> [] ->
  exists r,
    check_constraints prompt response = Ok r /\
    length_satisfied r == 1 /\ tld_satisfied r == 1 /\ prefix_suffix_satisfied r == 1 /\
    count_satisfied r == 1 /\ overall r == 1.
Proof.
  intros Hl Ht Hps Hc Hd. unfold check_constraints.
  destruct (parse_domains_from_response response) as [|d ds]; [contradiction|].
  unfold constraint_locals. rewrite Hl, Ht, Hps. cbn [bind truthy orb].
  destruct Hc as [-> | ->]; cbn [bind N.eqb].
  all: eexists; (split; [reflexivity|]); unfold round_result;
    cbn [length_satisfied tld_satisfied prefix_suffix_satisfied count_satisfied overall];
    repeat split; apply round3_one.
Qed.

End Unconstrained.

(** X21, witness: a prompt without any constraint and a response with two
    domains. *)
Lemma unconstrained_prompt_full_score_witness :
  exists r,
    constraint_satisfaction.check_constraints (U := ascii_table)
      (lit "Name my coffee shop.") example_response = Ok r /\
    constraint_satisfaction.overall r == 1.
Proof.
  destruct (unconstrained_prompt_full_score (U := ascii_table)
              (lit "Name my coffee shop.") example_response)
    as (r & Hr & _ & _ & _ & _ & Ho).
  - vm_compute. reflexivity.
  - vm_compute. reflexivity.
  - vm_compute. reflexivity.
  - left. vm_compute. reflexivity.
  - vm_compute. discriminate.
  - exists r. split; [exact Hr | exact Ho].
Defined.
